(** * H264Decoder: the decode orchestrator of packages/den/video

    A shallow embedding of [H264Decoder.ts] together with the part of the
    JavaScript run time it relies on: promises, [await], the microtask
    queue, [setTimeout] and the [once]/[emit] pair of the event emitter the
    class extends.

    The source holds two revisions of the class. The later one is embedded
    here: it has the keyframe gate ([#hasKeyframe]), the [#decoding]
    promise, the internal [#timestamp] and the replacement of a closed
    decoder. The earlier one has none of these: it reports an error and
    returns [undefined] on a closed decoder, stamps chunks with the
    caller's timestamp, stores each output frame in [#pendingFrame] without
    closing the one held, and awaits [flush] instead of a frame event;
    [resetForSeek] and [close] are the same in both. *)

From Stdlib Require Import List ZArith Bool Lia Ascii String Sorted
  Permutation.
Import ListNotations.
Open Scope Z_scope.

Set Implicit Arguments.

(** ** Data *)

(** A [Uint8Array]. *)
Definition bytes := list Byte.byte.

Definition byteLength (b : bytes) : Z := Z.of_nat (List.length b).

(** [NaluType] of h264Utils: only the two constants the decoder compares
    against. *)
Module NaluType.
Definition IDR : Z := 5.
Definition SPS : Z := 7.
End NaluType.

(** [stream.type] of a [NALUStream]. *)
Inductive StreamType := packet | annexB | unknown.

Record NaluStreamInfo := {
  type : StreamType;
  boxSize : Z
}.

Record VideoDecoderConfig := {
  codec : string;
  codedHeight : Z;
  codedWidth : Z;
  optimizeForLatency : bool
}.

(** [EncodedVideoChunk.type]. *)
Inductive ChunkType := key | delta.

Record EncodedVideoChunk := {
  chunk_type : ChunkType;
  chunk_data : bytes;
  chunk_timestamp : Z
}.

(** A [VideoFrame] is an opaque handle; [close()] on it is recorded in the
    run time's [closedFrames]. *)
Definition VideoFrame := nat.

(** [VideoDecoder.state]. *)
Inductive CodecState := unconfigured | configured | closed.

(** One [VideoDecoder] object: its state and which [new VideoDecoder] call
    made it. *)
Record VideoDecoder := {
  state : CodecState;
  instance : nat
}.

(** A call that can throw: [Ok v] is normal completion, [Thrown] an
    exception. *)
Inductive Result (A : Type) := Ok (v : A) | Thrown.
Arguments Thrown {A}.

Definition CodecState_eqb (a b : CodecState) : bool :=
  match a, b with
  | unconfigured, unconfigured | configured, configured | closed, closed => true
  | _, _ => false
  end.

(** ** Bitstream *)

(** Modelled from the spec: the Bit Reader of h264Utils ([Bitstream]), which
    is imported by H264Decoder.ts but is not part of the sources at hand.
    [seek] positions absolutely and fails beyond the buffer length in bits;
    [u n] reads [n] bits, most significant first, and fails when fewer than
    [n] bits remain. *)
Module Bitstream.

Record t := { buffer : bytes; ptr : Z }.

Definition make (b : bytes) : t := {| buffer := b; ptr := 0 |}.

Definition max (bs : t) : Z := 8 * byteLength (buffer bs).

Definition seek (bs : t) (pos : Z) : Result t :=
    if (pos <? 0) || (max bs <? pos) then Thrown
    else Ok {| buffer := buffer bs; ptr := pos |}.

(** The bit at absolute position [i], counted from the most significant
    bit of the first byte. *)
Definition bit (b : bytes) (i : Z) : Z :=
    match nth_error b (Z.to_nat (i / 8)) with
    | Some x => Z.b2z (Z.testbit (Z.of_N (Byte.to_N x)) (7 - i mod 8))
    | None => 0
    end.

Fixpoint read (b : bytes) (pos : Z) (n : nat) (acc : Z) : Z :=
    match n with
    | O => acc
    | S n' => read b (pos + 1) n' (2 * acc + bit b pos)
    end.

Definition u (bs : t) (n : nat) : Result (Z * t) :=
    if max bs <? ptr bs + Z.of_nat n then Thrown
    else Ok (read (buffer bs) (ptr bs) n 0,
             {| buffer := buffer bs; ptr := ptr bs + Z.of_nat n |}).

End Bitstream.

(** [bitstream.seek(3); bitstream.u(5)] on a fresh [Bitstream] over one NAL
    unit, as both [_getDecoderConfig] and [isKeyFrame] do. *)
Definition nal_unit_type (nalu : bytes) : Result Z :=
  match Bitstream.seek (Bitstream.make nalu) 3 with
  | Thrown => Thrown
  | Ok bs =>
      match Bitstream.u bs 5 with
      | Thrown => Thrown
      | Ok (v, _) => Ok v
      end
  end.

(** ** h264Utils and the platform decoder, as interfaces *)

(** What H264Decoder.ts uses of [NALUStream] and [SPS]. *)
Class H264Utils := {
  (** [new NALUStream(buffer, { strict: true })]: the [type] and [boxSize] it
      determined, either possibly undefined; [Thrown] when the constructor
      throws. *)
  NALUStream_strict : bytes -> Result (option StreamType * option Z);
  (** [new NALUStream(data, {type: "packet", boxSize}).convertToAnnexB().buf] *)
  convertToAnnexB : bytes -> Z -> Result bytes;
  (** [new NALUStream(annexBFrame, {type: "annexB"}).nalus()], each element
      being the [nalu.nalu] of a yielded unit, [None] for a falsy one. *)
  nalus : bytes -> list (option bytes);
  (** [new SPS(nalu)]: its [MIME], [picHeight] and [picWidth]. *)
  SPS : bytes -> Result (string * Z * Z)
}.

(** What H264Decoder.ts relies on of the platform's [VideoDecoder]. *)
Class VideoDecoderPlatform := {
  (** whether [configure(config)] accepts the configuration (it throws
      otherwise) *)
  configure_accepts : VideoDecoderConfig -> bool;
  (** whether [decode(chunk)] accepts the chunk (it throws otherwise) *)
  decode_accepts : VideoDecoder -> EncodedVideoChunk -> bool;
  (** the state [reset()] leaves the decoder in *)
  reset_state : CodecState -> CodecState
}.


(** ** The object and the run time *)

Definition PromiseId := nat.

(** What the object passes to [emit] for the events ["debug"], ["warn"] and
    ["error"]; message texts are kept as constructors with the values the
    source interpolates. *)
Inductive Emitted :=
| warn_closed
| error_convert (byteLength : Z)
| debug_configuring (config : VideoDecoderConfig)
| warn_state (s : CodecState)
| debug_skipping
| warn_timed_out (byteLength timestampMicros : Z)
| debug_decoded (byteLength : Z) (ty : ChunkType) (timestampMicros : Z)
    (frame : VideoFrame)
| error_failed_decode (byteLength timestampMicros : Z)
| error_unable_identify
| error_unable_identify_because
| error_unhandled (ty : StreamType)
| debug_identified (ty : StreamType) (box : Z)
| error_invalid_sps
| error_decoder.

(** The private fields of the class. *)
Record H264Decoder := {
  decoder : VideoDecoder;
  naluStreamInfo : option NaluStreamInfo;
  videoDecoderConfig : option VideoDecoderConfig;
  hasKeyframe : bool;
  decoding : option PromiseId;
  pendingFrame : option VideoFrame;
  timestamp : Z
}.

(** The closure registered by [this.once("frame", ...)] in [decode]. *)
Record FrameListener := {
  l_byteLength : Z;
  l_type : ChunkType;
  l_timestampMicros : Z;
  l_timeoutId : nat;
  l_resolve : PromiseId
}.

(** A timer armed by [setTimeout(..., 30)] in [decode]. *)
Record Timeout := {
  t_id : nat;
  t_byteLength : Z;
  t_timestampMicros : Z;
  t_resolve : PromiseId
}.

(** Where a suspended [decode] call continues: after [await this.#decoding]
    at its entry, or after the [await this.#decoding] on its own promise. *)
Inductive Continuation :=
| resume_decode (call : nat) (data : bytes) (timestampMicros : Z)
| finish_decode (call : nat).

(** How the promise returned by a [decode] call settled. *)
Inductive Outcome := returned (frame : option VideoFrame) | rejected.

(** One [this.#decoder.decode(chunk)] call: the decoder object, the chunk and
    whether the decoder accepted it. *)
Record DecodeCall := {
  dc_decoder : VideoDecoder;
  dc_chunk : EncodedVideoChunk;
  dc_accepted : bool
}.

Record Runtime := {
  this : H264Decoder;
  (** promises *)
  settled : list PromiseId;
  nextPromise : PromiseId;
  reactions : list (PromiseId * Continuation);
  microtasks : list Continuation;
  (** event emitter and timers *)
  frameListeners : list FrameListener;
  timeouts : list Timeout;
  (** counters for fresh decoder objects and calls *)
  nextDecoder : nat;
  nextCall : nat;
  (** what has been observed so far, oldest first *)
  emitted : list Emitted;
  decodeCalls : list DecodeCall;
  closedFrames : list VideoFrame;
  outcomes : list (nat * Outcome)
}.

(** *** Field updates *)

Definition set_decoder (d : VideoDecoder) (o : H264Decoder) : H264Decoder :=
  {| decoder := d; naluStreamInfo := naluStreamInfo o;
     videoDecoderConfig := videoDecoderConfig o; hasKeyframe := hasKeyframe o;
     decoding := decoding o; pendingFrame := pendingFrame o;
     timestamp := timestamp o |}.

Definition set_naluStreamInfo (i : option NaluStreamInfo) (o : H264Decoder)
  : H264Decoder :=
  {| decoder := decoder o; naluStreamInfo := i;
     videoDecoderConfig := videoDecoderConfig o; hasKeyframe := hasKeyframe o;
     decoding := decoding o; pendingFrame := pendingFrame o;
     timestamp := timestamp o |}.

Definition set_videoDecoderConfig (c : option VideoDecoderConfig)
  (o : H264Decoder) : H264Decoder :=
  {| decoder := decoder o; naluStreamInfo := naluStreamInfo o;
     videoDecoderConfig := c; hasKeyframe := hasKeyframe o;
     decoding := decoding o; pendingFrame := pendingFrame o;
     timestamp := timestamp o |}.

Definition set_hasKeyframe (b : bool) (o : H264Decoder) : H264Decoder :=
  {| decoder := decoder o; naluStreamInfo := naluStreamInfo o;
     videoDecoderConfig := videoDecoderConfig o; hasKeyframe := b;
     decoding := decoding o; pendingFrame := pendingFrame o;
     timestamp := timestamp o |}.

Definition set_decoding (p : option PromiseId) (o : H264Decoder) : H264Decoder :=
  {| decoder := decoder o; naluStreamInfo := naluStreamInfo o;
     videoDecoderConfig := videoDecoderConfig o; hasKeyframe := hasKeyframe o;
     decoding := p; pendingFrame := pendingFrame o;
     timestamp := timestamp o |}.

Definition set_pendingFrame (f : option VideoFrame) (o : H264Decoder)
  : H264Decoder :=
  {| decoder := decoder o; naluStreamInfo := naluStreamInfo o;
     videoDecoderConfig := videoDecoderConfig o; hasKeyframe := hasKeyframe o;
     decoding := decoding o; pendingFrame := f;
     timestamp := timestamp o |}.

Definition set_timestamp (t : Z) (o : H264Decoder) : H264Decoder :=
  {| decoder := decoder o; naluStreamInfo := naluStreamInfo o;
     videoDecoderConfig := videoDecoderConfig o; hasKeyframe := hasKeyframe o;
     decoding := decoding o; pendingFrame := pendingFrame o;
     timestamp := t |}.

(** [upd f rt]: the run time with [f] applied to the object. *)
Definition upd (f : H264Decoder -> H264Decoder) (rt : Runtime) : Runtime :=
  {| this := f (this rt); settled := settled rt; nextPromise := nextPromise rt;
     reactions := reactions rt; microtasks := microtasks rt;
     frameListeners := frameListeners rt; timeouts := timeouts rt;
     nextDecoder := nextDecoder rt; nextCall := nextCall rt;
     emitted := emitted rt; decodeCalls := decodeCalls rt;
     closedFrames := closedFrames rt; outcomes := outcomes rt |}.

(** [this.emit(...)] for the events nobody inside the class listens to. *)
Definition emit (e : Emitted) (rt : Runtime) : Runtime :=
  {| this := this rt; settled := settled rt; nextPromise := nextPromise rt;
     reactions := reactions rt; microtasks := microtasks rt;
     frameListeners := frameListeners rt; timeouts := timeouts rt;
     nextDecoder := nextDecoder rt; nextCall := nextCall rt;
     emitted := emitted rt ++ [e]; decodeCalls := decodeCalls rt;
     closedFrames := closedFrames rt; outcomes := outcomes rt |}.

(** The promise machinery: the settled promises, the reactions registered
    on pending ones and the microtask queue. *)
Definition set_promises (s : list PromiseId) (n : PromiseId)
  (r : list (PromiseId * Continuation)) (m : list Continuation)
  (rt : Runtime) : Runtime :=
  {| this := this rt; settled := s; nextPromise := n;
     reactions := r; microtasks := m;
     frameListeners := frameListeners rt; timeouts := timeouts rt;
     nextDecoder := nextDecoder rt; nextCall := nextCall rt;
     emitted := emitted rt; decodeCalls := decodeCalls rt;
     closedFrames := closedFrames rt; outcomes := outcomes rt |}.

Definition set_frameListeners (l : list FrameListener) (rt : Runtime)
  : Runtime :=
  {| this := this rt; settled := settled rt; nextPromise := nextPromise rt;
     reactions := reactions rt; microtasks := microtasks rt;
     frameListeners := l; timeouts := timeouts rt;
     nextDecoder := nextDecoder rt; nextCall := nextCall rt;
     emitted := emitted rt; decodeCalls := decodeCalls rt;
     closedFrames := closedFrames rt; outcomes := outcomes rt |}.

Definition set_timeouts (l : list Timeout) (rt : Runtime) : Runtime :=
  {| this := this rt; settled := settled rt; nextPromise := nextPromise rt;
     reactions := reactions rt; microtasks := microtasks rt;
     frameListeners := frameListeners rt; timeouts := l;
     nextDecoder := nextDecoder rt; nextCall := nextCall rt;
     emitted := emitted rt; decodeCalls := decodeCalls rt;
     closedFrames := closedFrames rt; outcomes := outcomes rt |}.

Definition set_counters (d c : nat) (rt : Runtime) : Runtime :=
  {| this := this rt; settled := settled rt; nextPromise := nextPromise rt;
     reactions := reactions rt; microtasks := microtasks rt;
     frameListeners := frameListeners rt; timeouts := timeouts rt;
     nextDecoder := d; nextCall := c;
     emitted := emitted rt; decodeCalls := decodeCalls rt;
     closedFrames := closedFrames rt; outcomes := outcomes rt |}.

Definition log_decodeCall (c : DecodeCall) (rt : Runtime) : Runtime :=
  {| this := this rt; settled := settled rt; nextPromise := nextPromise rt;
     reactions := reactions rt; microtasks := microtasks rt;
     frameListeners := frameListeners rt; timeouts := timeouts rt;
     nextDecoder := nextDecoder rt; nextCall := nextCall rt;
     emitted := emitted rt; decodeCalls := decodeCalls rt ++ [c];
     closedFrames := closedFrames rt; outcomes := outcomes rt |}.

(** [frame.close()] *)
Definition close_frame (f : VideoFrame) (rt : Runtime) : Runtime :=
  {| this := this rt; settled := settled rt; nextPromise := nextPromise rt;
     reactions := reactions rt; microtasks := microtasks rt;
     frameListeners := frameListeners rt; timeouts := timeouts rt;
     nextDecoder := nextDecoder rt; nextCall := nextCall rt;
     emitted := emitted rt; decodeCalls := decodeCalls rt;
     closedFrames := closedFrames rt ++ [f]; outcomes := outcomes rt |}.

(** The promise of [decode] call [call] settles with [o]. *)
Definition settle (call : nat) (o : Outcome) (rt : Runtime) : Runtime :=
  {| this := this rt; settled := settled rt; nextPromise := nextPromise rt;
     reactions := reactions rt; microtasks := microtasks rt;
     frameListeners := frameListeners rt; timeouts := timeouts rt;
     nextDecoder := nextDecoder rt; nextCall := nextCall rt;
     emitted := emitted rt; decodeCalls := decodeCalls rt;
     closedFrames := closedFrames rt; outcomes := outcomes rt ++ [(call, o)] |}.

(** *** Promises *)

(** [resolve()] of promise [p]: nothing if it is settled already; else its
    reactions are queued as microtasks in the order they were registered. *)
Definition resolve (p : PromiseId) (rt : Runtime) : Runtime :=
  if existsb (Nat.eqb p) (settled rt) then rt
  else
    set_promises (p :: settled rt) (nextPromise rt)
      (filter (fun r => negb (Nat.eqb (fst r) p)) (reactions rt))
      (microtasks rt
         ++ map snd (filter (fun r => Nat.eqb (fst r) p) (reactions rt)))
      rt.

(** [await p] with continuation [k]: the continuation runs in a later
    microtask, queued at once when [p] is settled already. *)
Definition await (p : PromiseId) (k : Continuation) (rt : Runtime) : Runtime :=
  if existsb (Nat.eqb p) (settled rt) then
    set_promises (settled rt) (nextPromise rt) (reactions rt)
      (microtasks rt ++ [k]) rt
  else
    set_promises (settled rt) (nextPromise rt) (reactions rt ++ [(p, k)])
      (microtasks rt) rt.

(** ** The class *)

Section Decoder.

Context {utils : H264Utils} {platform : VideoDecoderPlatform}.

(** [new VideoDecoder({...})]: a fresh object in state ["unconfigured"]. *)
Definition new_VideoDecoder (rt : Runtime) : VideoDecoder * Runtime :=
  ({| state := unconfigured; instance := nextDecoder rt |},
   set_counters (S (nextDecoder rt)) (nextCall rt) rt).

(** [constructor] *)
Definition constructor : Runtime :=
  {| this := {| decoder := {| state := unconfigured; instance := 0 |};
                naluStreamInfo := None; videoDecoderConfig := None;
                hasKeyframe := false; decoding := None; pendingFrame := None;
                timestamp := 0 |};
     settled := []; nextPromise := 0%nat; reactions := []; microtasks := [];
     frameListeners := []; timeouts := [];
     nextDecoder := 1%nat; nextCall := 0%nat;
     emitted := []; decodeCalls := []; closedFrames := []; outcomes := [] |}.

(** [_identifyNaluStreamInfo] *)
Definition _identifyNaluStreamInfo (buffer : bytes) (rt : Runtime)
  : option NaluStreamInfo * Runtime :=
  match NALUStream_strict buffer with
  | Ok (Some packet, Some box) =>
      (Some {| type := packet; boxSize := box |}, rt)
  | Ok (Some annexB, Some box) =>
      (Some {| type := annexB; boxSize := box |}, rt)
  | Ok _ => (None, emit error_unable_identify rt)
  | Thrown => (None, emit error_unable_identify_because rt)
  end.

(** [_getNaluStreamInfo] *)
Definition _getNaluStreamInfo (data : bytes) (rt : Runtime)
  : option NaluStreamInfo * Runtime :=
  match naluStreamInfo (this rt) with
  | Some i => (Some i, rt)
  | None =>
      let (r, rt1) := _identifyNaluStreamInfo data rt in
      let rt2 := upd (set_naluStreamInfo r) rt1 in
      match r with
      | Some i => (r, emit (debug_identified (type i) (boxSize i)) rt2)
      | None => (None, rt2)
      end
  end.

(** [_getAnnexBFrame] *)
Definition _getAnnexBFrame (data : bytes) (rt : Runtime)
  : Result (option bytes) * Runtime :=
  match _getNaluStreamInfo data rt with
  | (None, rt1) => (Ok None, emit error_unable_identify rt1)
  | (Some streamInfo, rt1) =>
      match type streamInfo with
      | packet =>
          match convertToAnnexB data (boxSize streamInfo) with
          | Ok buf => (Ok (Some buf), rt1)
          | Thrown => (Thrown, rt1)
          end
      | annexB => (Ok (Some data), rt1)
      | unknown => (Ok None, emit (error_unhandled unknown) rt1)
      end
  end.

(** The loop of [_getDecoderConfig] over the units still to be visited. *)
Fixpoint scan_for_SPS (units : list (option bytes)) (rt : Runtime)
  : Result (option VideoDecoderConfig) * Runtime :=
  match units with
  | [] => (Ok None, rt)
  | None :: rest => scan_for_SPS rest rt
  | Some nalu :: rest =>
      match nal_unit_type nalu with
      | Thrown => (Thrown, rt)
      | Ok ty =>
          if ty =? NaluType.SPS then
            match SPS nalu with
            | Ok (mime, picHeight, picWidth) =>
                let config := {| codec := mime; codedHeight := picHeight;
                                 codedWidth := picWidth;
                                 optimizeForLatency := true |} in
                (Ok (Some config),
                 upd (set_videoDecoderConfig (Some config)) rt)
            | Thrown => (Ok None, emit error_invalid_sps rt)
            end
          else scan_for_SPS rest rt
      end
  end.

(** [_getDecoderConfig] *)
Definition _getDecoderConfig (annexBFrame : bytes) (rt : Runtime)
  : Result (option VideoDecoderConfig) * Runtime :=
  match videoDecoderConfig (this rt) with
  | Some c => (Ok (Some c), rt)
  | None => scan_for_SPS (nalus annexBFrame) rt
  end.

(** The loop of [isKeyFrame]. *)
Fixpoint scan_for_IDR (units : list (option bytes)) : Result bool :=
  match units with
  | [] => Ok false
  | None :: rest => scan_for_IDR rest
  | Some nalu :: rest =>
      match nal_unit_type nalu with
      | Thrown => Thrown
      | Ok ty => if ty =? NaluType.IDR then Ok true else scan_for_IDR rest
      end
  end.

(** [isKeyFrame] *)
Definition isKeyFrame (annexBFrame : bytes) : Result bool :=
  scan_for_IDR (nalus annexBFrame).

(** *** [decode] *)

(** [decode], the test of the decoder state at its head: a closed decoder is
    replaced by a new one, with a warning. *)
Definition replace_closed_decoder (rt : Runtime) : Runtime :=
  match state (decoder (this rt)) with
  | closed =>
      let rt1 := emit warn_closed rt in
      let (d, rt2) := new_VideoDecoder rt1 in
      upd (set_decoder d) rt2
  | _ => rt
  end.

(** [decode], "Configure the VideoDecoder if needed". [configure] throws on
    a configuration the platform refuses and nothing catches it. *)
Definition configure_if_needed (annexBFrame : bytes) (rt : Runtime)
  : Result unit * Runtime :=
  match state (decoder (this rt)) with
  | unconfigured =>
      match _getDecoderConfig annexBFrame rt with
      | (Thrown, rt1) => (Thrown, rt1)
      | (Ok None, rt1) => (Ok tt, rt1)
      | (Ok (Some decoderConfig), rt1) =>
          let rt2 := emit (debug_configuring decoderConfig) rt1 in
          if configure_accepts decoderConfig then
            (Ok tt,
             upd (set_decoder {| state := configured;
                                 instance := instance (decoder (this rt2)) |})
               rt2)
          else (Thrown, rt2)
      end
  | _ => (Ok tt, rt)
  end.

(** [decode] from [this.#decoding = new Promise(...)] to the [await] on it.
    The executor runs at once: it arms the timer, registers the listener
    and calls the decoder with the chunk stamped [this.#timestamp++]. The
    timer is identified by the promise it resolves. *)
Definition submit (call : nat) (data : bytes) (timestampMicros : Z)
  (ty : ChunkType) (annexBFrame : bytes) (rt : Runtime) : Runtime :=
  let p := nextPromise rt in
  let rt1 :=
    set_promises (settled rt) (S p) (reactions rt) (microtasks rt) rt in
  let rt2 :=
    set_timeouts
      (timeouts rt1 ++ [{| t_id := p; t_byteLength := byteLength data;
                           t_timestampMicros := timestampMicros;
                           t_resolve := p |}]) rt1 in
  let rt3 :=
    set_frameListeners
      (frameListeners rt2
         ++ [{| l_byteLength := byteLength data; l_type := ty;
                l_timestampMicros := timestampMicros; l_timeoutId := p;
                l_resolve := p |}]) rt2 in
  let chunk := {| chunk_type := ty; chunk_data := annexBFrame;
                  chunk_timestamp := timestamp (this rt3) |} in
  let rt4 := upd (set_timestamp (timestamp (this rt3) + 1)) rt3 in
  let ok := decode_accepts (decoder (this rt4)) chunk in
  let rt5 :=
    log_decodeCall {| dc_decoder := decoder (this rt4); dc_chunk := chunk;
                      dc_accepted := ok |} rt4 in
  let rt6 :=
    if ok then rt5
    else emit (error_failed_decode (byteLength data) timestampMicros) rt5 in
  let rt7 := upd (set_decoding (Some p)) rt6 in
  await p (finish_decode call) rt7.

(** [decode] from the keyframe test on. *)
Definition gate_and_submit (call : nat) (data : bytes) (timestampMicros : Z)
  (annexBFrame : bytes) (rt : Runtime) : Runtime :=
  match isKeyFrame annexBFrame with
  | Thrown => settle call rejected rt
  | Ok k =>
      let ty := if k then key else delta in
      if hasKeyframe (this rt) then
        submit call data timestampMicros ty annexBFrame rt
      else
        match ty with
        | key =>
            submit call data timestampMicros ty annexBFrame
              (upd (set_hasKeyframe true) rt)
        | delta => settle call (returned None) (emit debug_skipping rt)
        end
  end.

(** [decode] after the [await] at its head. *)
Definition decode_body (call : nat) (data : bytes) (timestampMicros : Z)
  (rt : Runtime) : Runtime :=
  let rt1 := replace_closed_decoder rt in
  match _getAnnexBFrame data rt1 with
  | (Thrown, rt2) => settle call rejected rt2
  | (Ok None, rt2) =>
      settle call (returned None) (emit (error_convert (byteLength data)) rt2)
  | (Ok (Some annexBFrame), rt2) =>
      match configure_if_needed annexBFrame rt2 with
      | (Thrown, rt3) => settle call rejected rt3
      | (Ok _, rt3) =>
          match state (decoder (this rt3)) with
          | configured =>
              gate_and_submit call data timestampMicros annexBFrame rt3
          | s => settle call (returned None) (emit (warn_state s) rt3)
          end
      end
  end.

(** [decode] after the [await] on its own promise. *)
Definition decode_finish (call : nat) (rt : Runtime) : Runtime :=
  let rt1 := upd (set_decoding None) rt in
  let maybeVideoFrame := pendingFrame (this rt1) in
  let rt2 := upd (set_pendingFrame None) rt1 in
  settle call (returned maybeVideoFrame) rt2.

(** A call of [decode]: it runs up to its first [await]. *)
Definition decode (data : bytes) (timestampMicros : Z) (rt : Runtime)
  : Runtime :=
  let call := nextCall rt in
  let rt1 := set_counters (nextDecoder rt) (S call) rt in
  match decoding (this rt1) with
  | Some p => await p (resume_decode call data timestampMicros) rt1
  | None => decode_body call data timestampMicros rt1
  end.

(** [resetForSeek] *)
Definition resetForSeek (rt : Runtime) : Runtime :=
  upd (fun o =>
         set_decoder {| state := reset_state (state (decoder o));
                        instance := instance (decoder o) |} o) rt.

(** [close] *)
Definition close (rt : Runtime) : Runtime :=
  let rt1 :=
    upd (fun o =>
           set_decoder {| state := closed; instance := instance (decoder o) |}
             o) rt in
  let rt2 := upd (set_naluStreamInfo None) rt1 in
  upd (set_videoDecoderConfig None) rt2.

(** *** Callbacks *)

(** [clearTimeout(id)] *)
Definition clearTimeout (id : nat) (rt : Runtime) : Runtime :=
  set_timeouts (filter (fun t => negb (Nat.eqb (t_id t) id)) (timeouts rt)) rt.

(** The listener [decode] registers with [this.once("frame", ...)], called
    with the decoded frame. *)
Definition on_frame (l : FrameListener) (videoFrame : VideoFrame)
  (rt : Runtime) : Runtime :=
  let rt1 :=
    emit (debug_decoded (l_byteLength l) (l_type l) (l_timestampMicros l)
            videoFrame) rt in
  let rt2 := clearTimeout (l_timeoutId l) rt1 in
  let rt3 :=
    match pendingFrame (this rt2) with
    | Some held => close_frame held rt2
    | None => rt2
    end in
  let rt4 := upd (set_pendingFrame (Some videoFrame)) rt3 in
  resolve (l_resolve l) rt4.

(** The [output] callback of the decoder, [this.emit("frame", frame)]: every
    listener registered with [once] is removed and called, in the order of
    registration. *)
Definition emit_frame (frame : VideoFrame) (rt : Runtime) : Runtime :=
  fold_left (fun r l => on_frame l frame r) (frameListeners rt)
    (set_frameListeners [] rt).

(** The callback [decode] passes to [setTimeout]. *)
Definition on_timeout (t : Timeout) (rt : Runtime) : Runtime :=
  let rt1 :=
    emit (warn_timed_out (t_byteLength t) (t_timestampMicros t)) rt in
  resolve (t_resolve t) rt1.

(** The [error] callback of the decoder, [this.emit("error", error)]; the
    platform closes a decoder that reports an error. *)
Definition on_decoder_error (rt : Runtime) : Runtime :=
  upd (fun o =>
         set_decoder {| state := closed; instance := instance (decoder o) |} o)
    (emit error_decoder rt).

(** ** The event loop *)

(** What can happen next: a caller invokes a method, the head of the
    microtask queue runs, an armed timer fires, or the decoder calls back. *)
Inductive Event :=
| call_decode (data : bytes) (timestampMicros : Z)
| call_resetForSeek
| call_close
| microtask
| timeout_fires (id : nat)
| decoder_output (frame : VideoFrame)
| decoder_error.

Definition run_microtask (k : Continuation) (rt : Runtime) : Runtime :=
  match k with
  | resume_decode call data timestampMicros =>
      decode_body call data timestampMicros rt
  | finish_decode call => decode_finish call rt
  end.

(** One turn; [None] when the event cannot happen in [rt]. *)
Definition step (e : Event) (rt : Runtime) : option Runtime :=
  match e with
  | call_decode data timestampMicros => Some (decode data timestampMicros rt)
  | call_resetForSeek => Some (resetForSeek rt)
  | call_close => Some (close rt)
  | microtask =>
      match microtasks rt with
      | [] => None
      | k :: rest =>
          Some (run_microtask k
                  (set_promises (settled rt) (nextPromise rt) (reactions rt)
                     rest rt))
      end
  | timeout_fires id =>
      match find (fun t => Nat.eqb (t_id t) id) (timeouts rt) with
      | None => None
      | Some t => Some (on_timeout t (clearTimeout id rt))
      end
  | decoder_output frame => Some (emit_frame frame rt)
  | decoder_error => Some (on_decoder_error rt)
  end.

(** A run of events from [rt]. *)
Fixpoint run (es : list Event) (rt : Runtime) : option Runtime :=
  match es with
  | [] => Some rt
  | e :: rest =>
      match step e rt with
      | None => None
      | Some rt' => run rest rt'
      end
  end.

(** The states a freshly constructed object can get into. *)
Inductive reachable : Runtime -> Prop :=
| reachable_constructor : reachable constructor
| reachable_step e rt rt' :
    reachable rt -> step e rt = Some rt' -> reachable rt'.

End Decoder.

(** ** Frame accounting *)

(** The frame a message reports as decoded and stored, if it is the
    message of the frame listener. *)
Definition frame_of (e : Emitted) : list VideoFrame :=
  match e with
  | debug_decoded _ _ _ frame => [frame]
  | _ => []
  end.

(** The frames the listeners of [decode] have stored in [#pendingFrame] so
    far, oldest first. *)
Definition stored (rt : Runtime) : list VideoFrame :=
  flat_map frame_of (emitted rt).

Definition frame_of_outcome (o : nat * Outcome) : list VideoFrame :=
  match snd o with
  | returned (Some frame) => [frame]
  | _ => []
  end.

(** The frames [decode] calls have returned to their callers. *)
Definition handed (rt : Runtime) : list VideoFrame :=
  flat_map frame_of_outcome (outcomes rt).

(** What [#pendingFrame] holds. *)
Definition slot (rt : Runtime) : list VideoFrame :=
  match pendingFrame (this rt) with
  | Some frame => [frame]
  | None => []
  end.


(** Every frame a listener has stored was since closed by the object,
    returned to a caller, or is the one in the slot. *)
Definition accounted (rt : Runtime) : Prop :=
  Permutation (stored rt) (closedFrames rt ++ handed rt ++ slot rt).

(** The decoder objects the state refers to, the one the object holds and
    those a chunk was handed to, were all made before the counter of
    decoder objects got to where it stands. *)
Definition decoders_made (rt : Runtime) : Prop :=
  (instance (decoder (this rt)) < nextDecoder rt)%nat
  /\ forall c, In c (decodeCalls rt) ->
               (instance (dc_decoder c) < nextDecoder rt)%nat.

(** The promises [decode] has made that are still pending; each was made
    together with one call of the decoder. *)
Definition in_flight (rt : Runtime) : list PromiseId :=
  filter (fun p => negb (existsb (Nat.eqb p) (settled rt)))
    (seq 0 (nextPromise rt)).

(** ** The head of [decode] *)

(** [same_core rt rt']: [rt'] differs from [rt] at most in the decoder
    object, the two caches, the counter of decoder objects and the emitted
    messages, none of which reports a stored frame. *)
Record same_core (rt rt' : Runtime) : Prop := {
  sc_hasKeyframe : hasKeyframe (this rt') = hasKeyframe (this rt);
  sc_decoding : decoding (this rt') = decoding (this rt);
  sc_pendingFrame : pendingFrame (this rt') = pendingFrame (this rt);
  sc_timestamp : timestamp (this rt') = timestamp (this rt);
  sc_settled : settled rt' = settled rt;
  sc_nextPromise : nextPromise rt' = nextPromise rt;
  sc_reactions : reactions rt' = reactions rt;
  sc_microtasks : microtasks rt' = microtasks rt;
  sc_frameListeners : frameListeners rt' = frameListeners rt;
  sc_timeouts : timeouts rt' = timeouts rt;
  sc_nextCall : nextCall rt' = nextCall rt;
  sc_decodeCalls : decodeCalls rt' = decodeCalls rt;
  sc_closedFrames : closedFrames rt' = closedFrames rt;
  sc_outcomes : outcomes rt' = outcomes rt;
  sc_stored : stored rt' = stored rt
}.

(** ** Auxiliary notions *)

Section Notions.

Context {utils : H264Utils} {platform : VideoDecoderPlatform}.

(** The chunk type [decode] computes for [data] in [rt], when it gets as
    far as computing one: [const type = isKeyFrame(annexBFrame) ? "key" :
    "delta"] on the Annex B form of [data]. *)
Definition chunk_kind (data : bytes) (rt : Runtime) : option ChunkType :=
  match fst (_getAnnexBFrame data (replace_closed_decoder rt)) with
  | Ok (Some annexBFrame) =>
      match isKeyFrame annexBFrame with
      | Ok true => Some key
      | Ok false => Some delta
      | Thrown => None
      end
  | _ => None
  end.

(** Nothing is in flight and nothing has been submitted. *)
Definition quiet (rt : Runtime) : Prop :=
  decoding (this rt) = None /\ pendingFrame (this rt) = None
  /\ timestamp (this rt) = 0
  /\ reactions rt = [] /\ microtasks rt = []
  /\ frameListeners rt = [] /\ timeouts rt = [] /\ decodeCalls rt = [].

(** The configuration [_getDecoderConfig] builds from a parsed SPS. *)
Definition config_of_SPS (sps : string * Z * Z) : VideoDecoderConfig :=
  let '(mime, picHeight, picWidth) := sps in
  {| codec := mime; codedHeight := picHeight; codedWidth := picWidth;
     optimizeForLatency := true |}.

(** The first unit of type SPS among [units], as the loop of
    [_getDecoderConfig] meets it; [Thrown] when reading the type of a unit
    before it throws. *)
Fixpoint first_SPS_unit (units : list (option bytes))
  : Result (option bytes) :=
  match units with
  | [] => Ok None
  | None :: rest => first_SPS_unit rest
  | Some nalu :: rest =>
      match nal_unit_type nalu with
      | Thrown => Thrown
      | Ok ty =>
          if ty =? NaluType.SPS then Ok (Some nalu) else first_SPS_unit rest
      end
  end.

(** The claim's words, "the first SPS that parses successfully": the
    configuration of the first unit of type SPS that [SPS] accepts. *)
Fixpoint first_parseable_SPS (units : list (option bytes))
  : option VideoDecoderConfig :=
  match units with
  | [] => None
  | None :: rest => first_parseable_SPS rest
  | Some nalu :: rest =>
      match nal_unit_type nalu with
      | Thrown => None
      | Ok ty =>
          if ty =? NaluType.SPS then
            match SPS nalu with
            | Ok sps => Some (config_of_SPS sps)
            | Thrown => first_parseable_SPS rest
            end
          else first_parseable_SPS rest
      end
  end.

(** The timestamps of the chunks handed to [this.#decoder.decode], in the
    order of the calls. *)
Definition stamps (rt : Runtime) : list Z :=
  map (fun c => chunk_timestamp (dc_chunk c)) (decodeCalls rt).

(** The timestamps of the chunks the decoder accepted. *)
Definition accepted_stamps (rt : Runtime) : list Z :=
  map (fun c => chunk_timestamp (dc_chunk c))
    (filter dc_accepted (decodeCalls rt)).

(** The chunks so far carry 0, 1, 2, ... and [#timestamp] is the next
    number. [#timestamp] is a JavaScript number; it is modelled as an
    integer, which is exact as long as it stays below 2^53. *)
Definition stamped (rt : Runtime) : Prop :=
  stamps rt = map Z.of_nat (seq 0 (List.length (decodeCalls rt)))
  /\ timestamp (this rt) = Z.of_nat (List.length (decodeCalls rt)).

End Notions.

(** ** A reference implementation of the interfaces *)

(** Modelled from the spec: the parts of h264Utils ([NALUStream], [SPS])
    that H264Decoder.ts imports and that are not among the sources at hand,
    written after the description of the stream classifier, the iterator
    and the SPS parser; and a platform decoder that behaves as the external
    interface is described. They instantiate the interfaces wherever a
    concrete run is evaluated. *)
Module Reference.

Import Byte.

Definition start_code : bytes := [x00; x00; x00; x01].

(** A run of bytes collected back to front becomes a unit, unless it is
    empty. *)
Definition flush (cur : list byte) : list bytes :=
  match cur with
  | [] => []
  | _ => [rev cur]
  end.

(** The Annex B iterator: the ranges between start codes [00 00 01] and
    [00 00 00 01], without the start codes, empty ranges skipped. [zeros]
    counts the zero bytes just read, [cur] holds the unit being collected,
    back to front. *)
Fixpoint annexB_scan (b : bytes) (zeros : nat) (cur : list byte)
  : list bytes :=
  match b with
  | [] => flush (repeat x00 zeros ++ cur)
  | x :: rest =>
      if Byte.eqb x x00 then annexB_scan rest (S zeros) cur
      else if Byte.eqb x x01 && (2 <=? zeros)%nat then
        flush (repeat x00 (zeros - 3) ++ cur) ++ annexB_scan rest 0 []
      else annexB_scan rest 0 (x :: repeat x00 zeros ++ cur)
  end.

Definition annexB_units (b : bytes) : list bytes := annexB_scan b 0 [].

(** A big-endian number of [w] bytes at the head of [b], and what follows
    it. *)
Fixpoint read_length (w : nat) (b : bytes) (acc : Z) : option (Z * bytes) :=
  match w with
  | O => Some (acc, b)
  | S w' =>
      match b with
      | [] => None
      | x :: rest => read_length w' rest (256 * acc + Z.of_N (Byte.to_N x))
      end
  end.

(** The length-prefixed iterator with prefixes of [w] bytes; [None] when a
    length overruns the buffer. *)
Fixpoint packet_units (fuel : nat) (w : nat) (b : bytes)
  : option (list bytes) :=
  match b with
  | [] => Some []
  | _ =>
      match fuel with
      | O => None
      | S fuel' =>
          match read_length w b 0 with
          | None => None
          | Some (n, rest) =>
              if Z.of_nat (List.length rest) <? n then None
              else
                match packet_units fuel' w (skipn (Z.to_nat n) rest) with
                | None => None
                | Some us => Some (firstn (Z.to_nat n) rest :: us)
                end
          end
      end
  end.

(** The low five bits of the first byte of a unit form a type other than
    the reserved 0. *)
Definition plausible (u : bytes) : bool :=
  match u with
  | [] => false
  | x :: _ => negb (Z.of_N (Byte.to_N x) mod 32 =? 0)
  end.

(** The length of the start code at the head of the buffer, if any. *)
Definition leading_start_code (b : bytes) : option Z :=
  match b with
  | x00 :: x00 :: x01 :: _ => Some 3
  | x00 :: x00 :: x00 :: x01 :: _ => Some 4
  | _ => None
  end.

(** The classifier: length prefixes of 4, 2 and 1 bytes are tried in this
    order, then start codes. For Annex B the box size is the length of the
    leading start code. *)
Definition classify (b : bytes) : option StreamType * option Z :=
  let fits w :=
    match packet_units (S (List.length b)) w b with
    | Some (_ :: _) => true
    | _ => false
    end in
  if fits 4%nat then (Some packet, Some 4)
  else if fits 2%nat then (Some packet, Some 2)
  else if fits 1%nat then (Some packet, Some 1)
  else
    match leading_start_code b with
    | Some n =>
        if forallb plausible (annexB_units b) then (Some annexB, Some n)
        else (Some unknown, None)
    | None => (Some unknown, None)
    end.

(** Every length prefix becomes the start code [00 00 00 01]; [Thrown]
    when a length overruns the buffer. *)
Definition to_annexB (b : bytes) (box : Z) : Result bytes :=
  match packet_units (S (List.length b)) (Z.to_nat box) b with
  | Some us => Ok (List.concat (map (fun u => start_code ++ u) us))
  | None => Thrown
  end.

(** *** The SPS parser *)

(** Reading from a [Bitstream]: a parser either fails or yields a value and
    the advanced reader. *)
Definition Parser (A : Type) := Bitstream.t -> Result (A * Bitstream.t).

Definition pret {A} (a : A) : Parser A := fun bs => Ok (a, bs).

Definition pbind {A B} (p : Parser A) (f : A -> Parser B) : Parser B :=
  fun bs =>
    match p bs with
    | Ok (a, bs') => f a bs'
    | Thrown => Thrown
    end.

Definition pfail {A} : Parser A := fun _ => Thrown.

Notation "x <- p ;; q" := (pbind p (fun x => q))
  (at level 61, p at next level, right associativity).

Definition u (n : nat) : Parser Z := fun bs => Bitstream.u bs n.

(** The zero bits before the next 1 bit, which is consumed. *)
Fixpoint leading_zeros (fuel k : nat) : Parser nat :=
  match fuel with
  | O => pfail
  | S fuel' =>
      b <- u 1 ;;
      if b =? 1 then pret k else leading_zeros fuel' (S k)
  end.

(** [readExpGolomb], ue(v) *)
Definition ue : Parser Z :=
  k <- leading_zeros 32 0 ;;
  suffix <- u k ;;
  pret (2 ^ Z.of_nat k - 1 + suffix).

(** [readSignedExpGolomb], se(v) *)
Definition se : Parser Z :=
  codeNum <- ue ;;
  pret (if Z.even codeNum then - (codeNum / 2) else (codeNum + 1) / 2).

Fixpoint skip_se (n : nat) : Parser unit :=
  match n with
  | O => pret tt
  | S n' => _ <- se ;; skip_se n'
  end.

Definition high_profiles : list Z :=
  [100; 110; 122; 244; 44; 83; 86; 118; 128; 138; 139; 134; 135].

Definition hex_digit (n : Z) : string :=
  String (nth (Z.to_nat n)
            ["0"; "1"; "2"; "3"; "4"; "5"; "6"; "7"; "8"; "9";
             "a"; "b"; "c"; "d"; "e"; "f"]%char "0"%char) EmptyString.

Definition hex_byte (n : Z) : string :=
  (hex_digit (n / 16) ++ hex_digit (n mod 16))%string.

(** The fields of a sequence parameter set up to the cropping offsets, in
    the order of the bitstream; a scaling matrix is not supported. *)
Definition sps_fields : Parser (string * Z * Z) :=
  _ <- u 8 ;;
  profile_idc <- u 8 ;;
  constraints <- u 8 ;;
  level_idc <- u 8 ;;
  _ <- ue ;;
  chroma_format_idc <-
    (if existsb (Z.eqb profile_idc) high_profiles then
       chroma <- ue ;;
       _ <- (if chroma =? 3 then u 1 else pret 0) ;;
       _ <- ue ;;
       _ <- ue ;;
       _ <- u 1 ;;
       seq_scaling_matrix_present_flag <- u 1 ;;
       if seq_scaling_matrix_present_flag =? 1 then pfail else pret chroma
     else pret 1) ;;
  _ <- ue ;;
  pic_order_cnt_type <- ue ;;
  _ <- (if pic_order_cnt_type =? 0 then _ <- ue ;; pret tt
        else if pic_order_cnt_type =? 1 then
          _ <- u 1 ;;
          _ <- se ;;
          _ <- se ;;
          n <- ue ;;
          skip_se (Z.to_nat n)
        else pret tt) ;;
  _ <- ue ;;
  _ <- u 1 ;;
  pic_width_in_mbs_minus1 <- ue ;;
  pic_height_in_map_units_minus1 <- ue ;;
  frame_mbs_only_flag <- u 1 ;;
  _ <- (if frame_mbs_only_flag =? 0 then u 1 else pret 0) ;;
  _ <- u 1 ;;
  frame_cropping_flag <- u 1 ;;
  crop <-
    (if frame_cropping_flag =? 1 then
       l <- ue ;; r <- ue ;; t <- ue ;; b <- ue ;; pret (l + r, t + b)
     else pret (0, 0)) ;;
  let cropUnitX := if chroma_format_idc =? 1 then 2 else 1 in
  let cropUnitY := cropUnitX * (2 - frame_mbs_only_flag) in
  let picWidth :=
    (pic_width_in_mbs_minus1 + 1) * 16 - fst crop * cropUnitX in
  let picHeight :=
    (2 - frame_mbs_only_flag) * (pic_height_in_map_units_minus1 + 1) * 16
    - snd crop * cropUnitY in
  pret (("avc1." ++ hex_byte profile_idc ++ hex_byte constraints
           ++ hex_byte level_idc)%string,
        picHeight, picWidth).

Definition parse_SPS (nalu : bytes) : Result (string * Z * Z) :=
  match sps_fields (Bitstream.make nalu) with
  | Ok (r, _) => Ok r
  | Thrown => Thrown
  end.

(** *** The instances *)

Definition utils : H264Utils :=
  {| NALUStream_strict := fun b => Ok (classify b);
     convertToAnnexB := to_annexB;
     nalus := fun b => map Some (annexB_units b);
     SPS := parse_SPS |}.

(** A decoder that takes any configuration of positive size and any chunk
    while it is configured; [reset] retains the configuration. *)
Definition platform : VideoDecoderPlatform :=
  {| configure_accepts :=
       fun c => (0 <? codedWidth c) && (0 <? codedHeight c);
     decode_accepts := fun d _ => CodecState_eqb (state d) configured;
     reset_state := fun s => s |}.

(** A decoder that throws on every chunk that is not a key chunk. *)
Definition key_only_platform : VideoDecoderPlatform :=
  {| configure_accepts :=
       fun c => (0 <? codedWidth c) && (0 <? codedHeight c);
     decode_accepts :=
       fun d c =>
         CodecState_eqb (state d) configured
         && match chunk_type c with key => true | delta => false end;
     reset_state := fun s => s |}.


(** *** Sample chunks *)

(** A baseline SPS (profile 66, level 30, 20 by 15 macroblocks). *)
Definition sps_unit : bytes := [x67; x42; x00; x1e; xf4; x0a; x0f; xc8].

Definition idr_unit : bytes := [x65; x88; x84; x21].

Definition slice_unit : bytes := [x41; x9a; x24; x6c].

(** A unit of type SPS that is cut off after the profile. *)
Definition broken_sps_unit : bytes := [x67; x42].

(** A chunk with a broken parameter set before a good one. *)
Definition chunk_with_two_sps : bytes :=
  start_code ++ broken_sps_unit ++ start_code ++ sps_unit
    ++ start_code ++ idr_unit.

(** A chunk that is neither Annex B nor length-prefixed. *)
Definition garbage_chunk : bytes := [xff].

(** A key chunk with its parameter set, Annex B. *)
Definition key_chunk : bytes :=
  start_code ++ sps_unit ++ start_code ++ idr_unit.

(** A delta chunk, Annex B. *)
Definition delta_chunk : bytes := start_code ++ slice_unit.

(** A delta chunk that brings the parameter set along. *)
Definition delta_chunk_with_sps : bytes :=
  start_code ++ sps_unit ++ start_code ++ slice_unit.

End Reference.

(** ** Notions for the further properties *)

(** The call a continuation belongs to. *)
Definition call_of (k : Continuation) : nat :=
  match k with
  | resume_decode call _ _ => call
  | finish_decode call => call
  end.

(** The continuations that are yet to run: those waiting for a promise and
    those queued as microtasks. *)
Definition pending (rt : Runtime) : list Continuation :=
  map snd (reactions rt) ++ microtasks rt.

(** Call [c] has settled or has a continuation that is yet to run. *)
Definition covered (c : nat) (rt : Runtime) : Prop :=
  In c (map fst (outcomes rt)) \/ In c (map call_of (pending rt)).

(** The part of the run time the promises, timers and listeners live in. *)
Definition promise_state (rt : Runtime) :=
  (settled rt, nextPromise rt, reactions rt, timeouts rt, frameListeners rt,
   decoding (this rt)).

(** The promises, timers and listeners fit together: settled promises,
    timers, reactions, listeners and [#decoding] refer to promises that
    have been made; a timer resolves the promise it is named after and is
    armed only while that promise is pending; nothing waits for a settled
    promise; a listener clears the timer of the promise it resolves; and
    every promise is settled or has its timer armed. *)
Record well_formed (rt : Runtime) : Prop := {
  wf_settled : forall p, In p (settled rt) -> (p < nextPromise rt)%nat;
  wf_timeouts :
    forall t, In t (timeouts rt) ->
      t_resolve t = t_id t /\ (t_id t < nextPromise rt)%nat
      /\ ~ In (t_id t) (settled rt);
  wf_reactions :
    forall p k, In (p, k) (reactions rt) ->
      (p < nextPromise rt)%nat /\ ~ In p (settled rt);
  wf_decoding :
    forall p, decoding (this rt) = Some p -> (p < nextPromise rt)%nat;
  wf_timer :
    forall p, (p < nextPromise rt)%nat ->
      In p (settled rt) \/ exists t, In t (timeouts rt) /\ t_id t = p;
  wf_listeners :
    forall l, In l (frameListeners rt) ->
      l_timeoutId l = l_resolve l /\ (l_resolve l < nextPromise rt)%nat
}.

(** Every call made so far is covered. *)
Definition all_covered (rt : Runtime) : Prop :=
  forall c, (c < nextCall rt)%nat -> covered c rt.

Definition is_resume (k : Continuation) : bool :=
  match k with
  | resume_decode _ _ _ => true
  | finish_decode _ => false
  end.

(** Every promise made so far is settled, but for [o]. *)
Definition all_settled_but (o : option PromiseId) (rt : Runtime) : Prop :=
  forall q, (q < nextPromise rt)%nat -> In q (settled rt) \/ o = Some q.

(** The six situations of an object whose callers keep at most one call
    waiting behind the one in flight: nothing going on; a submission in
    flight, with or without a call waiting for it; the promise of the
    submission settled and the end of its call queued, with or without a
    call queued behind it; a call queued that has waited. *)
Inductive flight (rt : Runtime) : Prop :=
| idle :
    reactions rt = [] -> microtasks rt = [] -> decoding (this rt) = None ->
    all_settled_but None rt -> flight rt
| flying p c :
    reactions rt = [(p, finish_decode c)] -> microtasks rt = [] ->
    decoding (this rt) = Some p -> ~ In p (settled rt) ->
    all_settled_but (Some p) rt -> flight rt
| flying_waited p c c' data ts :
    reactions rt = [(p, finish_decode c); (p, resume_decode c' data ts)] ->
    microtasks rt = [] ->
    decoding (this rt) = Some p -> ~ In p (settled rt) ->
    all_settled_but (Some p) rt -> flight rt
| landed p c :
    reactions rt = [] -> microtasks rt = [finish_decode c] ->
    decoding (this rt) = Some p -> all_settled_but None rt -> flight rt
| landed_waited p c c' data ts :
    reactions rt = [] ->
    microtasks rt = [finish_decode c; resume_decode c' data ts] ->
    decoding (this rt) = Some p -> all_settled_but None rt -> flight rt
| waited c' data ts :
    reactions rt = [] -> microtasks rt = [resume_decode c' data ts] ->
    decoding (this rt) = None -> all_settled_but None rt -> flight rt.

(** The error of the last branch of the [switch] in [_getAnnexBFrame]. *)
Definition is_unhandled (e : Emitted) : bool :=
  match e with
  | error_unhandled _ => true
  | _ => false
  end.

(** The stream information held is of a type [_getAnnexBFrame] handles, and
    the error of its last branch has not been emitted. *)
Record handled (rt : Runtime) : Prop := {
  h_type : forall i, naluStreamInfo (this rt) = Some i -> type i <> unknown;
  h_emitted : existsb is_unhandled (emitted rt) = false
}.

Section Polite.

Context {utils : H264Utils} {platform : VideoDecoderPlatform}.

(** The states the object gets into when [decode] is never called while a
    call made earlier is still waiting to start. *)
Inductive polite : Runtime -> Prop :=
| polite_constructor : polite constructor
| polite_step e rt rt' :
    polite rt -> step e rt = Some rt' ->
    (forall data ts,
       e = call_decode data ts -> existsb is_resume (pending rt) = false) ->
    polite rt'.

(** A run of events that stops, with no state, at a call of [decode] made
    while an earlier call is still waiting to start. *)
Fixpoint run_politely (es : list Event) (rt : Runtime) : option Runtime :=
  match es with
  | [] => Some rt
  | e :: es' =>
      if match e with
         | call_decode _ _ => existsb is_resume (pending rt)
         | _ => false
         end
      then None
      else match step e rt with
           | Some rt' => run_politely es' rt'
           | None => None
           end
  end.

End Polite.

(** ** Basic facts about the run time *)

(** [observe g E X]: from [E : run es rt0 = Some rt], the value of [g rt]
    by evaluating [g] on the run, as [X : v = g rt]. *)
Ltac observe g E X :=
  pose proof (f_equal (option_map g) E) as X;
  match type of X with
  | ?l = _ =>
      let v := eval vm_compute in l in
      let Hv := fresh in
      assert (l = v) as Hv by (vm_compute; reflexivity);
      rewrite Hv in X; clear Hv;
      simpl in X; injection X as X
  end.

Section Facts.

Context {utils : H264Utils} {platform : VideoDecoderPlatform}.

Lemma this_resolve p rt : this (resolve p rt) = this rt.
Proof. unfold resolve. destruct (existsb _ _); reflexivity. Qed.

Lemma this_await p k rt : this (await p k rt) = this rt.
Proof. unfold await. destruct (existsb _ _); reflexivity. Qed.

Lemma outcomes_resolve p rt : outcomes (resolve p rt) = outcomes rt.
Proof. unfold resolve. destruct (existsb _ _); reflexivity. Qed.

Lemma outcomes_await p k rt : outcomes (await p k rt) = outcomes rt.
Proof. unfold await. destruct (existsb _ _); reflexivity. Qed.

Lemma decodeCalls_resolve p rt : decodeCalls (resolve p rt) = decodeCalls rt.
Proof. unfold resolve. destruct (existsb _ _); reflexivity. Qed.

Lemma decodeCalls_await p k rt : decodeCalls (await p k rt) = decodeCalls rt.
Proof. unfold await. destruct (existsb _ _); reflexivity. Qed.

Lemma reachable_run es rt rt' :
  reachable rt -> run es rt = Some rt' -> reachable rt'.
Proof.
  revert rt. induction es as [|e es IH]; simpl; intros rt R E.
  - inversion E; subst. exact R.
  - destruct (step e rt) as [rt1|] eqn:S; [|discriminate].
    exact (IH rt1 (reachable_step e R S) E).
Qed.

End Facts.

Lemma same_core_refl rt : same_core rt rt.
Proof. constructor; reflexivity. Qed.

Lemma same_core_trans a b c : same_core a b -> same_core b c -> same_core a c.
Proof. intros [] []; constructor; congruence. Qed.

Lemma stored_emit e rt : stored (emit e rt) = stored rt ++ frame_of e.
Proof.
  unfold stored. simpl. rewrite flat_map_app. simpl.
  rewrite app_nil_r. reflexivity.
Qed.

Lemma same_core_emit e rt : frame_of e = [] -> same_core rt (emit e rt).
Proof.
  intros H. constructor; try reflexivity.
  rewrite stored_emit, H, app_nil_r. reflexivity.
Qed.

Lemma same_core_decoder d rt : same_core rt (upd (set_decoder d) rt).
Proof. constructor; reflexivity. Qed.

Lemma same_core_naluStreamInfo i rt :
  same_core rt (upd (set_naluStreamInfo i) rt).
Proof. constructor; reflexivity. Qed.

Lemma same_core_videoDecoderConfig c rt :
  same_core rt (upd (set_videoDecoderConfig c) rt).
Proof. constructor; reflexivity. Qed.

Create HintDb core_db.

#[local] Hint Resolve same_core_refl same_core_emit same_core_decoder
  same_core_naluStreamInfo same_core_videoDecoderConfig : core_db.

Section Head.

Context {utils : H264Utils} {platform : VideoDecoderPlatform}.

Lemma same_core_replace_closed_decoder rt :
  same_core rt (replace_closed_decoder rt).
Proof.
  unfold replace_closed_decoder.
  destruct (state (decoder (this rt))); try apply same_core_refl.
  apply (same_core_trans (same_core_emit warn_closed rt eq_refl)).
  constructor; reflexivity.
Qed.

Lemma same_core__identifyNaluStreamInfo buffer rt :
  same_core rt (snd (_identifyNaluStreamInfo buffer rt)).
Proof.
  unfold _identifyNaluStreamInfo.
  destruct (NALUStream_strict buffer) as [[[[]|] [box|]]|]; simpl;
    auto with core_db.
Qed.

Lemma same_core__getNaluStreamInfo data rt :
  same_core rt (snd (_getNaluStreamInfo data rt)).
Proof.
  unfold _getNaluStreamInfo.
  destruct (naluStreamInfo (this rt)); simpl; [apply same_core_refl|].
  pose proof (same_core__identifyNaluStreamInfo data rt) as H.
  destruct (_identifyNaluStreamInfo data rt) as [[i|] rt1]; simpl in *;
    eauto using same_core_trans with core_db.
Qed.

Lemma same_core__getAnnexBFrame data rt :
  same_core rt (snd (_getAnnexBFrame data rt)).
Proof.
  unfold _getAnnexBFrame.
  pose proof (same_core__getNaluStreamInfo data rt) as H.
  destruct (_getNaluStreamInfo data rt) as [[i|] rt1]; simpl in *;
    [|eauto using same_core_trans with core_db].
  destruct (type i); simpl; eauto using same_core_trans with core_db.
  destruct (convertToAnnexB data (boxSize i)); simpl; auto.
Qed.


(** Identifying the stream touches neither the decoder nor the cached
    configuration. *)
Lemma decoder__getAnnexBFrame data rt :
  decoder (this (snd (_getAnnexBFrame data rt))) = decoder (this rt)
  /\ videoDecoderConfig (this (snd (_getAnnexBFrame data rt)))
     = videoDecoderConfig (this rt).
Proof.
  unfold _getAnnexBFrame, _getNaluStreamInfo, _identifyNaluStreamInfo.
  destruct (naluStreamInfo (this rt)) as [i|]; simpl.
  - destruct (type i); simpl; auto.
    destruct (convertToAnnexB data (boxSize i)); simpl; auto.
  - destruct (NALUStream_strict data) as [[[[]|] [box|]]|]; simpl; auto;
      destruct (convertToAnnexB data box); simpl; auto.
Qed.

(** What the loop of [_getDecoderConfig] can do to the run time. *)
Lemma scan_for_SPS_effect units rt r rt' :
  scan_for_SPS units rt = (r, rt') ->
  rt' = rt
  \/ (exists c, r = Ok (Some c)
                /\ rt' = upd (set_videoDecoderConfig (Some c)) rt)
  \/ (r = Ok None /\ rt' = emit error_invalid_sps rt).
Proof.
  induction units as [|[nalu|] rest IH]; simpl; intros E.
  - inversion E; auto.
  - destruct (nal_unit_type nalu) as [ty|]; [|inversion E; auto].
    destruct (ty =? NaluType.SPS); [|auto].
    destruct (SPS nalu) as [[[mime h] w]|]; inversion E; subst; eauto.
  - auto.
Qed.

Lemma same_core__getDecoderConfig annexBFrame rt :
  same_core rt (snd (_getDecoderConfig annexBFrame rt)).
Proof.
  unfold _getDecoderConfig.
  destruct (videoDecoderConfig (this rt)); simpl; [apply same_core_refl|].
  destruct (scan_for_SPS (nalus annexBFrame) rt) as [r rt'] eqn:E.
  apply scan_for_SPS_effect in E.
  destruct E as [->|[(c & _ & ->)|[_ ->]]]; simpl; auto with core_db.
Qed.

Lemma same_core_configure_if_needed annexBFrame rt :
  same_core rt (snd (configure_if_needed annexBFrame rt)).
Proof.
  unfold configure_if_needed.
  destruct (state (decoder (this rt))); simpl; try apply same_core_refl.
  pose proof (same_core__getDecoderConfig annexBFrame rt) as H.
  destruct (_getDecoderConfig annexBFrame rt) as [[[c|]|] rt1]; simpl in *;
    auto.
  destruct (configure_accepts c); simpl; apply (same_core_trans H).
  - apply (same_core_trans (same_core_emit (debug_configuring c) rt1 eq_refl)).
    apply same_core_decoder.
  - apply same_core_emit. reflexivity.
Qed.

(** The loop of [_getDecoderConfig] stops at the first unit of type SPS,
    whether it parses or not. *)
Lemma scan_for_SPS_first units rt :
  scan_for_SPS units rt
  = match first_SPS_unit units with
    | Thrown => (Thrown, rt)
    | Ok None => (Ok None, rt)
    | Ok (Some nalu) =>
        match SPS nalu with
        | Ok sps =>
            (Ok (Some (config_of_SPS sps)),
             upd (set_videoDecoderConfig (Some (config_of_SPS sps))) rt)
        | Thrown => (Ok None, emit error_invalid_sps rt)
        end
    end.
Proof.
  induction units as [|[nalu|] rest IH]; simpl; auto.
  destruct (nal_unit_type nalu) as [ty|]; auto.
  destruct (ty =? NaluType.SPS); auto.
  destruct (SPS nalu) as [[[mime h] w]|]; reflexivity.
Qed.

(** A chunk that [isKeyFrame] scans to its end has readable units only, so
    the scan for an SPS cannot throw on it. *)
Lemma first_SPS_unit_readable units :
  scan_for_IDR units = Ok false -> first_SPS_unit units <> Thrown.
Proof.
  induction units as [|[nalu|] rest IH]; simpl; intros E.
  - discriminate.
  - destruct (nal_unit_type nalu) as [ty|]; [|discriminate].
    destruct (ty =? NaluType.SPS); [discriminate|].
    destruct (ty =? NaluType.IDR); [discriminate|auto].
  - auto.
Qed.

(** When [configure_if_needed] throws on such a chunk, it is [configure]
    that throws, on a configuration the platform refuses. *)
Lemma configure_if_needed_thrown a rt :
  fst (configure_if_needed a rt) = Thrown ->
  isKeyFrame a = Ok false ->
  exists c, configure_accepts c = false.
Proof.
  unfold configure_if_needed, _getDecoderConfig, isKeyFrame. intros T K.
  destruct (state (decoder (this rt))); try discriminate.
  destruct (videoDecoderConfig (this rt)) as [c|].
  - simpl in T. destruct (configure_accepts c) eqn:A; [discriminate|eauto].
  - rewrite scan_for_SPS_first in T.
    pose proof (first_SPS_unit_readable _ K) as R.
    destruct (first_SPS_unit (nalus a)) as [[nalu|]|];
      [|discriminate|contradiction].
    destruct (SPS nalu) as [sps|]; [|discriminate]. simpl in T.
    destruct (configure_accepts (config_of_SPS sps)) eqn:A;
      [discriminate|eauto].
Qed.

End Head.

(** ** Keyframe gating *)

Section Gating.

Context {utils : H264Utils} {platform : VideoDecoderPlatform}.

(** [decode_body] runs its head, which leaves the core of the run time
    alone, and then either settles the call without a frame or goes on to
    the keyframe test with a configured decoder. The call is rejected only
    when the conversion to Annex B throws or the configuration step does. *)
Lemma decode_body_cases call data ts rt :
  exists rt0, same_core rt rt0 /\
    (state (decoder (this rt)) = configured ->
     decoder (this rt0) = decoder (this rt)) /\
    ((exists o, decode_body call data ts rt = settle call o rt0
                /\ (o = returned None
                    \/ o = rejected
                       /\ (fst (_getAnnexBFrame data
                                  (replace_closed_decoder rt)) = Thrown
                           \/ state (decoder (this rt)) <> configured
                              /\ exists a rt2,
                                  fst (_getAnnexBFrame data
                                         (replace_closed_decoder rt))
                                  = Ok (Some a)
                                  /\ fst (configure_if_needed a rt2)
                                     = Thrown)))
     \/ (exists a,
           fst (_getAnnexBFrame data (replace_closed_decoder rt)) = Ok (Some a)
           /\ state (decoder (this rt0)) = configured
           /\ decode_body call data ts rt
              = gate_and_submit call data ts a rt0)).
Proof.
  unfold decode_body.
  pose proof (same_core_replace_closed_decoder rt) as H1.
  assert (state (decoder (this rt)) = configured ->
          replace_closed_decoder rt = rt) as Hc.
  { unfold replace_closed_decoder. intros ->. reflexivity. }
  set (rt1 := replace_closed_decoder rt) in *.
  pose proof (same_core__getAnnexBFrame data rt1) as H2.
  destruct (decoder__getAnnexBFrame data rt1) as [Hd _].
  destruct (_getAnnexBFrame data rt1) as [[[a|]|] rt2]; simpl in *.
  - pose proof (same_core_configure_if_needed a rt2) as H3.
    assert (state (decoder (this rt)) = configured ->
            configure_if_needed a rt2 = (Ok tt, rt2)) as Hk.
    { intros C. unfold configure_if_needed. rewrite Hd, (Hc C), C.
      reflexivity. }
    destruct (configure_if_needed a rt2) as [[[]|] rt3] eqn:E; simpl in *.
    + assert (state (decoder (this rt)) = configured ->
              decoder (this rt3) = decoder (this rt)) as D.
      { intros C. specialize (Hk C). inversion Hk; subst.
        rewrite Hd, (Hc C). reflexivity. }
      destruct (state (decoder (this rt3))) eqn:S.
      * exists (emit (warn_state unconfigured) rt3). split.
        { eauto using same_core_trans, same_core_emit. }
        split; [exact D|]. left. eauto.
      * exists rt3. split; [eauto using same_core_trans|].
        split; [exact D|]. right. eauto.
      * exists (emit (warn_state closed) rt3). split.
        { eauto using same_core_trans, same_core_emit. }
        split; [exact D|]. left. eauto.
    + exists rt3. split; [eauto using same_core_trans|].
      split; [intros C; specialize (Hk C); discriminate|].
      left. exists rejected. split; [reflexivity|]. right.
      split; [reflexivity|]. right. split.
      * intros C. specialize (Hk C). discriminate.
      * exists a, rt2. rewrite E. split; reflexivity.
  - exists (emit (error_convert (byteLength data)) rt2). split.
    { eauto using same_core_trans, same_core_emit. }
    split; [intros C; simpl; rewrite Hd, (Hc C); reflexivity|].
    left. eauto.
  - exists rt2. split; [eauto using same_core_trans|].
    split; [intros C; rewrite Hd, (Hc C); reflexivity|].
    left. exists rejected. eauto.
Qed.

(** *** What a submission does *)

Lemma submit_this call data ts ty a rt :
  this (submit call data ts ty a rt)
  = set_decoding (Some (nextPromise rt))
      (set_timestamp (timestamp (this rt) + 1) (this rt)).
Proof.
  unfold submit. rewrite this_await.
  destruct (decode_accepts _ _); reflexivity.
Qed.

Lemma submit_decodeCalls call data ts ty a rt :
  decodeCalls (submit call data ts ty a rt)
  = decodeCalls rt
      ++ [let chunk := {| chunk_type := ty; chunk_data := a;
                          chunk_timestamp := timestamp (this rt) |} in
          {| dc_decoder := decoder (this rt); dc_chunk := chunk;
             dc_accepted := decode_accepts (decoder (this rt)) chunk |}].
Proof.
  unfold submit. rewrite decodeCalls_await. simpl.
  destruct (decode_accepts _ _); reflexivity.
Qed.

Lemma submit_outcomes call data ts ty a rt :
  outcomes (submit call data ts ty a rt) = outcomes rt.
Proof.
  unfold submit. rewrite outcomes_await.
  destruct (decode_accepts _ _); reflexivity.
Qed.

(** The frame callback changes nothing of the object but the frame slot. *)
Lemma this_fold_on_frame frame ls rt :
  this (fold_left (fun r l => on_frame l frame r) ls rt) = this rt
  \/ this (fold_left (fun r l => on_frame l frame r) ls rt)
     = set_pendingFrame (Some frame) (this rt).
Proof.
  revert rt. induction ls as [|l ls IH]; intros rt; simpl; [auto|].
  right.
  assert (this (on_frame l frame rt) = set_pendingFrame (Some frame) (this rt))
    as E.
  { unfold on_frame. rewrite this_resolve. simpl.
    destruct (pendingFrame (this rt)); reflexivity. }
  destruct (IH (on_frame l frame rt)) as [-> | ->]; rewrite E; reflexivity.
Qed.

Lemma this_emit_frame frame rt :
  this (emit_frame frame rt) = this rt
  \/ this (emit_frame frame rt) = set_pendingFrame (Some frame) (this rt).
Proof.
  unfold emit_frame.
  apply (this_fold_on_frame frame (frameListeners rt)
           (set_frameListeners [] rt)).
Qed.

(** *** The flag only ever goes from false to true *)

Lemma hasKeyframe_gate_and_submit call data ts a rt :
  hasKeyframe (this rt) = true ->
  hasKeyframe (this (gate_and_submit call data ts a rt)) = true.
Proof.
  unfold gate_and_submit. intros H.
  destruct (isKeyFrame a) as [k|]; [|assumption].
  rewrite H, submit_this. assumption.
Qed.

Lemma hasKeyframe_decode_body call data ts rt :
  hasKeyframe (this rt) = true ->
  hasKeyframe (this (decode_body call data ts rt)) = true.
Proof.
  intros H.
  destruct (decode_body_cases call data ts rt)
    as (rt0 & S & _ & [(o & -> & _) | (a & _ & _ & ->)]).
  - simpl. rewrite (sc_hasKeyframe S). assumption.
  - apply hasKeyframe_gate_and_submit. rewrite (sc_hasKeyframe S). assumption.
Qed.

Lemma hasKeyframe_monotone e rt rt' :
  step e rt = Some rt' ->
  hasKeyframe (this rt) = true -> hasKeyframe (this rt') = true.
Proof.
  intros St H. destruct e; simpl in St.
  - inversion St; subst; clear St. unfold decode.
    destruct (decoding _); simpl.
    + rewrite this_await. assumption.
    + apply hasKeyframe_decode_body. assumption.
  - inversion St; subst. assumption.
  - inversion St; subst. assumption.
  - destruct (microtasks rt) as [|[call data ts|call] rest]; inversion St; subst.
    + apply hasKeyframe_decode_body. assumption.
    + assumption.
  - destruct (find _ _); inversion St; subst.
    unfold on_timeout. rewrite this_resolve. assumption.
  - inversion St; subst.
    destruct (this_emit_frame frame rt) as [-> | ->]; assumption.
  - inversion St; subst. assumption.
Qed.

(** *** Nothing is in flight before the first keyframe *)

Lemma quiet_same_core rt rt' : same_core rt rt' -> quiet rt -> quiet rt'.
Proof.
  intros [] (?&?&?&?&?&?&?&?). unfold quiet.
  repeat split; congruence.
Qed.

Lemma gate_and_submit_closed call data ts a rt :
  hasKeyframe (this rt) = false ->
  match isKeyFrame a with
  | Thrown => gate_and_submit call data ts a rt = settle call rejected rt
  | Ok true =>
      gate_and_submit call data ts a rt
      = submit call data ts key a (upd (set_hasKeyframe true) rt)
  | Ok false =>
      gate_and_submit call data ts a rt
      = settle call (returned None) (emit debug_skipping rt)
  end.
Proof.
  unfold gate_and_submit. intros ->.
  destruct (isKeyFrame a) as [[]|]; reflexivity.
Qed.

Lemma quiet_before_keyframe rt :
  reachable rt -> hasKeyframe (this rt) = false -> quiet rt.
Proof.
  induction 1 as [|e rt rt' R IH St].
  - intros _. repeat split.
  - intros H'.
    destruct (hasKeyframe (this rt)) eqn:H.
    { rewrite (hasKeyframe_monotone e rt St H) in H'. discriminate. }
    specialize (IH eq_refl).
    destruct IH as (Hd & Hp & Ht & Hr & Hm & Hl & Ho & Hc).
    assert (quiet rt) as Q by (repeat split; assumption).
    destruct e; simpl in St.
    + inversion St; subst; clear St. unfold decode in *.
      simpl in *. rewrite Hd in *.
      set (rt1 := set_counters (nextDecoder rt) (S (nextCall rt)) rt) in *.
      assert (quiet rt1) as Q1 by exact Q.
      destruct (decode_body_cases (nextCall rt) data timestampMicros rt1)
        as (rt0 & S & _ & [(o & E & _) | (a & _ & _ & E)]); rewrite E in *.
      * exact (quiet_same_core S Q1).
      * pose proof (gate_and_submit_closed (nextCall rt) data
                      timestampMicros a rt0) as G.
        rewrite (sc_hasKeyframe S) in G. specialize (G H).
        destruct (isKeyFrame a) as [[]|]; rewrite G in *.
        -- rewrite submit_this in H'. discriminate.
        -- exact (quiet_same_core
                    (same_core_trans S (same_core_emit debug_skipping rt0 eq_refl))
                    Q1).
        -- exact (quiet_same_core S Q1).
    + inversion St; subst. exact Q.
    + inversion St; subst. exact Q.
    + rewrite Hm in St. discriminate.
    + rewrite Ho in St. discriminate.
    + inversion St; subst. unfold emit_frame. rewrite Hl. simpl.
      repeat split; assumption.
    + inversion St; subst. exact Q.
Qed.

(** *** The chunk type depends on the cached stream information only *)

Lemma fst__getAnnexBFrame_info data rt rt' :
  naluStreamInfo (this rt) = naluStreamInfo (this rt') ->
  fst (_getAnnexBFrame data rt) = fst (_getAnnexBFrame data rt').
Proof.
  unfold _getAnnexBFrame, _getNaluStreamInfo, _identifyNaluStreamInfo.
  intros <-.
  destruct (naluStreamInfo (this rt)) as [i|]; simpl.
  - destruct (type i); simpl; auto.
    destruct (convertToAnnexB data (boxSize i)); reflexivity.
  - destruct (NALUStream_strict data) as [[[[]|] [box|]]|]; simpl; auto;
      destruct (convertToAnnexB data box); reflexivity.
Qed.

Lemma naluStreamInfo_replace_closed_decoder rt :
  naluStreamInfo (this (replace_closed_decoder rt)) = naluStreamInfo (this rt).
Proof.
  unfold replace_closed_decoder.
  destruct (state (decoder (this rt))); reflexivity.
Qed.

Lemma chunk_kind_info data rt rt' :
  naluStreamInfo (this rt) = naluStreamInfo (this rt') ->
  chunk_kind data rt = chunk_kind data rt'.
Proof.
  intros E. unfold chunk_kind.
  rewrite (fst__getAnnexBFrame_info data (replace_closed_decoder rt)
             (replace_closed_decoder rt')).
  - reflexivity.
  - rewrite !naluStreamInfo_replace_closed_decoder. exact E.
Qed.

Lemma chunk_kind_inv data rt ty :
  chunk_kind data rt = Some ty ->
  exists a,
    fst (_getAnnexBFrame data (replace_closed_decoder rt)) = Ok (Some a)
    /\ isKeyFrame a = Ok (match ty with key => true | delta => false end).
Proof.
  unfold chunk_kind.
  destruct (fst (_getAnnexBFrame data (replace_closed_decoder rt)))
    as [[a|]|]; try discriminate.
  destruct (isKeyFrame a) as [[]|] eqn:K; intros E; inversion E; subst;
    exists a; split; auto.
Qed.

(** *** A call made while the gate is closed *)

(** The call runs to its end at once: a chunk without IDR unit is dropped,
    one with an IDR unit opens the gate and is passed to the decoder. *)
Lemma decode_gate_closed rt data ts :
  decoding (this rt) = None -> hasKeyframe (this rt) = false ->
  let rt' := decode data ts rt in
  (chunk_kind data rt = Some delta ->
     hasKeyframe (this rt') = false /\ decoding (this rt') = None
     /\ decodeCalls rt' = decodeCalls rt
     /\ nextCall rt' = S (nextCall rt)
     /\ (state (decoder (this rt)) = configured ->
         decoder (this rt') = decoder (this rt))
     /\ exists o,
          outcomes rt' = outcomes rt ++ [(nextCall rt, o)]
          /\ (o = returned None
              \/ o = rejected /\ state (decoder (this rt)) <> configured
                 /\ exists c, configure_accepts c = false))
  /\ (hasKeyframe (this rt') = true ->
       chunk_kind data rt = Some key
       /\ exists c, decodeCalls rt' = decodeCalls rt ++ [c]
                    /\ chunk_type (dc_chunk c) = key).
Proof.
  intros Hd H. unfold decode. simpl. rewrite Hd.
  set (rt1 := set_counters (nextDecoder rt) (S (nextCall rt)) rt).
  assert (chunk_kind data rt = chunk_kind data rt1) as K
    by (apply chunk_kind_info; reflexivity).
  rewrite K.
  destruct (decode_body_cases (nextCall rt) data ts rt1)
    as (rt0 & S & D & [(o & E & Ho) | (a & Ea & _ & E)]); rewrite E; clear E.
  - split.
    + intros Kd. apply chunk_kind_inv in Kd. destruct Kd as (a & Ea & Ka).
      simpl. rewrite (sc_hasKeyframe S), (sc_decoding S), (sc_decodeCalls S),
        (sc_outcomes S), (sc_nextCall S).
      repeat split; try assumption; try exact D.
      exists o. split; [reflexivity|].
      destruct Ho as [->|[-> [C|(C & a' & rt2 & Ea' & T)]]]; auto.
      * congruence.
      * right. split; [reflexivity|]. split; [exact C|].
        assert (a' = a) by congruence. subst a'.
        exact (configure_if_needed_thrown a rt2 T Ka).
    + simpl. rewrite (sc_hasKeyframe S). simpl. congruence.
  - pose proof (gate_and_submit_closed (nextCall rt) data ts a rt0) as G.
    rewrite (sc_hasKeyframe S) in G. specialize (G H).
    unfold chunk_kind. rewrite Ea.
    destruct (isKeyFrame a) as [[]|]; rewrite G; clear G.
    + split; [discriminate|]. intros _. split; [reflexivity|].
      rewrite submit_decodeCalls. simpl. rewrite (sc_decodeCalls S).
      eexists. split; reflexivity.
    + split.
      * intros _. simpl.
        rewrite (sc_hasKeyframe S), (sc_decoding S), (sc_decodeCalls S),
          (sc_outcomes S), (sc_nextCall S).
        repeat split; try assumption; try exact D. eauto.
      * simpl. rewrite (sc_hasKeyframe S). simpl. congruence.
    + split; [discriminate|].
      simpl. rewrite (sc_hasKeyframe S). simpl. congruence.
Qed.





End Gating.



(** ** [resetForSeek] *)

Section Seek.

Context {utils : H264Utils} {platform : VideoDecoderPlatform}.

(** With a configured decoder the head of [decode] only converts the
    chunk. *)
Lemma decode_body_configured call data ts rt a :
  state (decoder (this rt)) = configured ->
  fst (_getAnnexBFrame data rt) = Ok (Some a) ->
  decode_body call data ts rt
  = gate_and_submit call data ts a (snd (_getAnnexBFrame data rt)).
Proof.
  intros C E. unfold decode_body, replace_closed_decoder. rewrite C.
  destruct (decoder__getAnnexBFrame data rt) as [D _].
  destruct (_getAnnexBFrame data rt) as [r rt2]. simpl in *. subst r.
  unfold configure_if_needed. rewrite D, C. rewrite D, C. reflexivity.
Qed.

(** A call that finds the gate open and the decoder configured passes the
    chunk on, whatever its type. *)
Lemma decode_gate_open rt data ts ty :
  decoding (this rt) = None -> hasKeyframe (this rt) = true ->
  state (decoder (this rt)) = configured ->
  chunk_kind data rt = Some ty ->
  exists c, decodeCalls (decode data ts rt) = decodeCalls rt ++ [c]
            /\ chunk_type (dc_chunk c) = ty
            /\ chunk_timestamp (dc_chunk c) = timestamp (this rt).
Proof.
  intros Hd H C K. unfold decode. simpl. rewrite Hd.
  set (rt1 := set_counters (nextDecoder rt) (S (nextCall rt)) rt).
  rewrite (chunk_kind_info data rt rt1 eq_refl) in K.
  apply chunk_kind_inv in K. destruct K as (a & Ea & Ka).
  assert (replace_closed_decoder rt1 = rt1) as Er.
  { unfold replace_closed_decoder. simpl. rewrite C. reflexivity. }
  rewrite Er in Ea.
  rewrite (decode_body_configured (nextCall rt) data ts rt1 C Ea).
  pose proof (same_core__getAnnexBFrame data rt1) as S.
  set (rt2 := snd (_getAnnexBFrame data rt1)) in *.
  unfold gate_and_submit. rewrite Ka, (sc_hasKeyframe S). simpl. rewrite H.
  rewrite submit_decodeCalls, (sc_decodeCalls S), (sc_timestamp S). simpl.
  eexists. split; [reflexivity|]. split; [|reflexivity].
  simpl. destruct ty; reflexivity.
Qed.

(** C2, as the code has it. [resetForSeek] resets the decoder and nothing
    else: [#hasKeyframe], the cached stream information and the cached
    decoder configuration are what they were. So a chunk without IDR unit
    decoded right after it yields no frame when no keyframe had been seen
    before the seek; when one had been seen and the decoder is still
    configured, the chunk is passed to the decoder as a delta chunk. *)
Theorem resetForSeek_keeps_gate rt data ts :
  reachable rt ->
  chunk_kind data rt = Some delta ->
  let rt1 := resetForSeek rt in
  hasKeyframe (this rt1) = hasKeyframe (this rt)
  /\ naluStreamInfo (this rt1) = naluStreamInfo (this rt)
  /\ videoDecoderConfig (this rt1) = videoDecoderConfig (this rt)
  /\ (hasKeyframe (this rt) = false ->
      decodeCalls (decode data ts rt1) = decodeCalls rt
      /\ exists o,
           outcomes (decode data ts rt1) = outcomes rt ++ [(nextCall rt, o)]
           /\ (o = returned None
               \/ o = rejected /\ state (decoder (this rt1)) <> configured
                  /\ exists c, configure_accepts c = false))
  /\ (hasKeyframe (this rt) = true -> decoding (this rt) = None ->
      state (decoder (this rt1)) = configured ->
      exists c, decodeCalls (decode data ts rt1) = decodeCalls rt ++ [c]
                /\ chunk_type (dc_chunk c) = delta).
Proof.
  intros R K rt1.
  assert (chunk_kind data rt1 = Some delta) as K1.
  { rewrite <- K. apply chunk_kind_info. reflexivity. }
  assert (reachable rt1) as R1.
  { exact (reachable_step call_resetForSeek R eq_refl). }
  split; [reflexivity|]. split; [reflexivity|]. split; [reflexivity|].
  split.
  - intros H.
    assert (hasKeyframe (this rt1) = false) as H1 by exact H.
    destruct (quiet_before_keyframe R1 H1) as (Hd & _).
    destruct (decode_gate_closed rt1 data ts Hd H1) as [P _].
    destruct (P K1) as (_ & _ & Dc & _ & _ & o & O & Ho).
    split; [exact Dc|]. exists o. split; [exact O|exact Ho].
  - intros H Hd C.
    destruct (decode_gate_open rt1 data ts Hd H C K1) as (c & Dc & Ty & _).
    exists c. split; [exact Dc|exact Ty].
Qed.

End Seek.

(** C2 as stated fails: after a key chunk has been decoded, [resetForSeek]
    leaves [#hasKeyframe] true, and the delta chunk decoded next is passed
    to the decoder and yields the frame the decoder puts out. *)
Lemma resetForSeek_gate_stays_open :
  let U := Reference.utils in
  let P := Reference.platform in
  option_map (fun rt => hasKeyframe (this rt))
    (run (utils := U) (platform := P)
       [call_decode Reference.key_chunk 0; decoder_output 7%nat; microtask;
        call_resetForSeek] constructor)
  = Some true
  /\ option_map outcomes
       (run (utils := U) (platform := P)
          [call_decode Reference.key_chunk 0; decoder_output 7%nat; microtask;
           call_resetForSeek;
           call_decode Reference.delta_chunk 40; decoder_output 8%nat;
           microtask] constructor)
     = Some [(0%nat, returned (Some 7%nat)); (1%nat, returned (Some 8%nat))].
Proof. split; reflexivity. Qed.

Lemma resetForSeek_keeps_gate_witness :
  let U := Reference.utils in
  let P := Reference.platform in
  let rt := decode (utils := U) (platform := P)
              Reference.delta_chunk_with_sps 0 constructor in
  reachable (utils := U) (platform := P) rt
  /\ chunk_kind (utils := U) Reference.delta_chunk rt = Some delta
  /\ hasKeyframe (this (resetForSeek (platform := P) rt))
     = hasKeyframe (this rt).
Proof.
  intros U P rt.
  assert (reachable (utils := U) (platform := P) rt) as R.
  { apply (reachable_step (call_decode Reference.delta_chunk_with_sps 0)
             reachable_constructor).
    reflexivity. }
  assert (chunk_kind (utils := U) Reference.delta_chunk rt = Some delta) as K
    by reflexivity.
  split; [exact R|]. split; [exact K|].
  exact (proj1 (resetForSeek_keeps_gate Reference.delta_chunk 5 R K)).
Defined.

(** ** [close] and the replacement of a closed decoder *)

Section Lifecycle.

Context {utils : H264Utils} {platform : VideoDecoderPlatform}.

(** C5, the code against its claim. [close] closes the decoder and clears
    the cached stream information and decoder configuration, but it does
    not touch [#pendingFrame]: a held frame is neither closed nor dropped.
    After a submission has timed out and its frame has come late, [close]
    leaves that frame in the slot, unreleased. *)
Theorem close_leaves_pending_frame :
  (forall rt,
     state (decoder (this (close rt))) = closed
     /\ naluStreamInfo (this (close rt)) = None
     /\ videoDecoderConfig (this (close rt)) = None
     /\ pendingFrame (this (close rt)) = pendingFrame (this rt)
     /\ closedFrames (close rt) = closedFrames rt)
  /\ option_map (fun rt => (pendingFrame (this rt), closedFrames rt))
       (run (utils := Reference.utils) (platform := Reference.platform)
          [call_decode Reference.key_chunk 0; timeout_fires 0; microtask;
           decoder_output 7%nat; call_close] constructor)
     = Some (Some 7%nat, []).
Proof.
  split.
  - intros rt. repeat split.
  - reflexivity.
Qed.

Lemma decoder__getDecoderConfig a rt :
  decoder (this (snd (_getDecoderConfig a rt))) = decoder (this rt).
Proof.
  unfold _getDecoderConfig.
  destruct (videoDecoderConfig (this rt)); [reflexivity|].
  destruct (scan_for_SPS (nalus a) rt) as [r rt'] eqn:E.
  apply scan_for_SPS_effect in E.
  destruct E as [->|[(c & _ & ->)|[_ ->]]]; reflexivity.
Qed.

Lemma instance_configure_if_needed a rt :
  instance (decoder (this (snd (configure_if_needed a rt))))
  = instance (decoder (this rt)).
Proof.
  unfold configure_if_needed.
  destruct (state (decoder (this rt))); try reflexivity.
  pose proof (decoder__getDecoderConfig a rt) as D.
  destruct (_getDecoderConfig a rt) as [[[c|]|] rt1]; simpl in *;
    try (rewrite D; reflexivity).
  destruct (configure_accepts c); simpl; rewrite D; reflexivity.
Qed.

Lemma decoder_gate_and_submit call data ts a rt :
  decoder (this (gate_and_submit call data ts a rt)) = decoder (this rt).
Proof.
  unfold gate_and_submit.
  destruct (isKeyFrame a) as [[]|]; try reflexivity;
    destruct (hasKeyframe (this rt)); rewrite ?submit_this; reflexivity.
Qed.

(** The decoder object [decode] ends with is the one it has after the test
    for a closed decoder. *)
Lemma instance_decode_body call data ts rt :
  instance (decoder (this (decode_body call data ts rt)))
  = instance (decoder (this (replace_closed_decoder rt))).
Proof.
  unfold decode_body.
  destruct (decoder__getAnnexBFrame data (replace_closed_decoder rt))
    as [D _].
  destruct (_getAnnexBFrame data (replace_closed_decoder rt))
    as [[[a|]|] rt2]; simpl in *; try (rewrite D; reflexivity).
  pose proof (instance_configure_if_needed a rt2) as I.
  destruct (configure_if_needed a rt2) as [[[]|] rt3]; simpl in *;
    try (rewrite I, D; reflexivity).
  destruct (state (decoder (this rt3))); simpl;
    rewrite ?decoder_gate_and_submit, I, D; reflexivity.
Qed.

End Lifecycle.

(** ** The internal timestamp *)

Section Stamps.

Context {utils : H264Utils} {platform : VideoDecoderPlatform}.

Lemma stamped_same rt rt' :
  decodeCalls rt' = decodeCalls rt ->
  timestamp (this rt') = timestamp (this rt) ->
  stamped rt -> stamped rt'.
Proof. unfold stamped, stamps. intros -> ->. auto. Qed.

Lemma stamped_submit call data ts ty a rt :
  stamped rt -> stamped (submit call data ts ty a rt).
Proof.
  unfold stamped, stamps. intros [S T].
  rewrite submit_decodeCalls, submit_this. simpl.
  rewrite map_app, length_app, S. simpl.
  rewrite Nat.add_1_r, seq_S, map_app. simpl.
  split; [rewrite T; reflexivity|lia].
Qed.

Lemma stamped_same_core rt rt' : same_core rt rt' -> stamped rt -> stamped rt'.
Proof.
  intros S. apply stamped_same; [exact (sc_decodeCalls S)|exact (sc_timestamp S)].
Qed.

Lemma stamped_gate_and_submit call data ts a rt :
  stamped rt -> stamped (gate_and_submit call data ts a rt).
Proof.
  intros S. unfold gate_and_submit.
  destruct (isKeyFrame a) as [[]|]; [| |exact S];
    destruct (hasKeyframe (this rt)); try exact S;
    apply stamped_submit; exact S.
Qed.

Lemma stamped_decode_body call data ts rt :
  stamped rt -> stamped (decode_body call data ts rt).
Proof.
  intros S.
  destruct (decode_body_cases call data ts rt)
    as (rt0 & C & _ & [(o & -> & _) | (a & _ & _ & ->)]).
  - exact (stamped_same_core C S).
  - apply stamped_gate_and_submit. exact (stamped_same_core C S).
Qed.

Lemma decodeCalls_fold_on_frame frame ls rt :
  decodeCalls (fold_left (fun r l => on_frame l frame r) ls rt)
  = decodeCalls rt.
Proof.
  revert rt. induction ls as [|l ls IH]; intros rt; simpl; [reflexivity|].
  rewrite IH. unfold on_frame. rewrite decodeCalls_resolve. simpl.
  destruct (pendingFrame (this rt)); reflexivity.
Qed.

Lemma stamped_step e rt rt' : step e rt = Some rt' -> stamped rt -> stamped rt'.
Proof.
  intros St S. destruct e; simpl in St.
  - inversion St; subst; clear St. unfold decode.
    destruct (decoding _); simpl.
    + apply (@stamped_same rt); [|rewrite this_await; reflexivity|exact S].
      rewrite decodeCalls_await. reflexivity.
    + apply stamped_decode_body. exact S.
  - inversion St; subst. exact S.
  - inversion St; subst. exact S.
  - destruct (microtasks rt) as [|[call data ts|call] rest]; inversion St; subst.
    + apply stamped_decode_body. exact S.
    + exact S.
  - destruct (find _ _); inversion St; subst.
    apply (@stamped_same rt); [| |exact S]; unfold on_timeout.
    + rewrite decodeCalls_resolve. reflexivity.
    + rewrite this_resolve. reflexivity.
  - inversion St; subst.
    apply (@stamped_same rt); [| |exact S].
    + unfold emit_frame. rewrite decodeCalls_fold_on_frame. reflexivity.
    + destruct (this_emit_frame frame rt) as [-> | ->]; reflexivity.
  - inversion St; subst. exact S.
Qed.

Lemma stamped_reachable rt : reachable rt -> stamped rt.
Proof.
  induction 1 as [|e rt rt' R IH St].
  - split; reflexivity.
  - exact (stamped_step e St IH).
Qed.

Lemma seq_strictly_increasing a n :
  StronglySorted Z.lt (map Z.of_nat (seq a n)).
Proof.
  revert a. induction n as [|n IH]; intros a; simpl; constructor.
  - apply IH.
  - apply Forall_forall. intros x Hx.
    apply in_map_iff in Hx. destruct Hx as (k & <- & Hk).
    apply in_seq in Hk. lia.
Qed.

Lemma sorted_map_filter {A} (f : A -> Z) (p : A -> bool) l :
  StronglySorted Z.lt (map f l) ->
  StronglySorted Z.lt (map f (filter p l)).
Proof.
  induction l as [|x l IH]; simpl; intros S; [constructor|].
  inversion S as [|? ? S' F]; subst.
  destruct (p x); simpl; [|auto].
  constructor; [auto|].
  rewrite Forall_forall in *. intros y Hy. apply F.
  apply in_map_iff in Hy. destruct Hy as (z & <- & Hz).
  apply filter_In in Hz. apply in_map. tauto.
Qed.

(** The timestamp argument of [decode] has no part in what the call hands
    to the decoder. *)
Lemma decodeCalls_decode_body_ts call data ts ts' rt :
  decodeCalls (decode_body call data ts rt)
  = decodeCalls (decode_body call data ts' rt).
Proof.
  unfold decode_body.
  destruct (_getAnnexBFrame data (replace_closed_decoder rt))
    as [[[a|]|] rt2]; try reflexivity.
  destruct (configure_if_needed a rt2) as [[[]|] rt3]; try reflexivity.
  destruct (state (decoder (this rt3))); try reflexivity.
  unfold gate_and_submit.
  destruct (isKeyFrame a) as [[]|]; try reflexivity;
    destruct (hasKeyframe (this rt3)); rewrite ?submit_decodeCalls;
    reflexivity.
Qed.

(** C9. In every state the object can reach, the chunks handed to the
    decoder carry the timestamps 0, 1, 2, ... in the order of submission,
    so they increase strictly, also among the chunks the decoder accepted;
    and the timestamp a caller passes to [decode] does not enter the chunk
    the call submits. *)
Theorem internal_timestamps rt :
  reachable rt ->
  stamps rt = map Z.of_nat (seq 0 (List.length (decodeCalls rt)))
  /\ StronglySorted Z.lt (stamps rt)
  /\ StronglySorted Z.lt (accepted_stamps rt)
  /\ forall data ts ts',
       decodeCalls (decode data ts rt) = decodeCalls (decode data ts' rt).
Proof.
  intros R. destruct (stamped_reachable R) as [S _].
  assert (StronglySorted Z.lt (stamps rt)) as Sorted.
  { rewrite S. apply seq_strictly_increasing. }
  split; [exact S|]. split; [exact Sorted|]. split.
  - apply sorted_map_filter. exact Sorted.
  - intros data ts ts'. unfold decode.
    destruct (decoding (this _)); simpl.
    + rewrite !decodeCalls_await. reflexivity.
    + apply decodeCalls_decode_body_ts.
Qed.

End Stamps.

(** Three chunks into a run with a seek in it. *)
Lemma internal_timestamps_witness :
  let U := Reference.utils in
  let P := Reference.platform in
  match run (utils := U) (platform := P)
          [call_decode Reference.key_chunk 900; decoder_output 7%nat;
           microtask; call_decode Reference.delta_chunk 100;
           timeout_fires 1; microtask; call_resetForSeek;
           call_decode Reference.key_chunk 5] constructor with
  | Some rt =>
      stamps rt = [0; 1; 2] /\ StronglySorted Z.lt (stamps rt)
  | None => False
  end.
Proof.
  intros U P.
  destruct (run (utils := U) (platform := P) _ constructor) as [rt|] eqn:E;
    [|vm_compute in E; discriminate].
  assert (reachable (utils := U) (platform := P) rt) as R
    by exact (reachable_run _ reachable_constructor E).
  split.
  - apply (f_equal (option_map stamps)) in E.
    vm_compute in E. inversion E as [E']. symmetry. exact E'.
  - exact (proj1 (proj2 (internal_timestamps R))).
Defined.

(** ** The decoder configuration *)

Section Config.

Context {utils : H264Utils} {platform : VideoDecoderPlatform}.

Lemma videoDecoderConfig_replace_closed_decoder rt :
  videoDecoderConfig (this (replace_closed_decoder rt))
  = videoDecoderConfig (this rt).
Proof.
  unfold replace_closed_decoder.
  destruct (state (decoder (this rt))); reflexivity.
Qed.

Lemma videoDecoderConfig_configure_if_needed a rt c :
  videoDecoderConfig (this rt) = Some c ->
  videoDecoderConfig (this (snd (configure_if_needed a rt))) = Some c.
Proof.
  intros H. unfold configure_if_needed, _getDecoderConfig. rewrite H.
  destruct (state (decoder (this rt))); simpl; auto.
  destruct (configure_accepts c); simpl; exact H.
Qed.

Lemma videoDecoderConfig_gate_and_submit call data ts a rt :
  videoDecoderConfig (this (gate_and_submit call data ts a rt))
  = videoDecoderConfig (this rt).
Proof.
  unfold gate_and_submit.
  destruct (isKeyFrame a) as [[]|]; try reflexivity;
    destruct (hasKeyframe (this rt)); rewrite ?submit_this; reflexivity.
Qed.

Lemma videoDecoderConfig_decode_body call data ts rt c :
  videoDecoderConfig (this rt) = Some c ->
  videoDecoderConfig (this (decode_body call data ts rt)) = Some c.
Proof.
  intros H. unfold decode_body.
  pose proof (videoDecoderConfig_replace_closed_decoder rt) as H1.
  destruct (decoder__getAnnexBFrame data (replace_closed_decoder rt))
    as [_ H2].
  destruct (_getAnnexBFrame data (replace_closed_decoder rt))
    as [[[a|]|] rt2]; simpl in *; try congruence.
  assert (videoDecoderConfig (this rt2) = Some c) as H3 by congruence.
  pose proof (videoDecoderConfig_configure_if_needed a rt2 H3) as H4.
  destruct (configure_if_needed a rt2) as [[[]|] rt3]; simpl in *;
    try exact H4.
  destruct (state (decoder (this rt3))); simpl; try exact H4.
  rewrite videoDecoderConfig_gate_and_submit. exact H4.
Qed.

(** C6, as the code has it. [_getDecoderConfig] returns a cached
    configuration as it is, without looking at the chunk. While none is
    cached it looks at the first unit of type SPS of the chunk and at no
    other: if that unit parses, its configuration is returned and cached;
    if it does not, an error is emitted and nothing is derived from the
    chunk. A cached configuration stays as it is until [close]. *)
Theorem decoder_config_derivation :
  (forall a rt c,
     videoDecoderConfig (this rt) = Some c ->
     _getDecoderConfig a rt = (Ok (Some c), rt))
  /\ (forall a rt,
        videoDecoderConfig (this rt) = None ->
        _getDecoderConfig a rt
        = match first_SPS_unit (nalus a) with
          | Thrown => (Thrown, rt)
          | Ok None => (Ok None, rt)
          | Ok (Some nalu) =>
              match SPS nalu with
              | Ok sps =>
                  (Ok (Some (config_of_SPS sps)),
                   upd (set_videoDecoderConfig (Some (config_of_SPS sps))) rt)
              | Thrown => (Ok None, emit error_invalid_sps rt)
              end
          end)
  /\ (forall e rt rt' c,
        e <> call_close ->
        step e rt = Some rt' ->
        videoDecoderConfig (this rt) = Some c ->
        videoDecoderConfig (this rt') = Some c).
Proof.
  split; [|split].
  - intros a rt c H. unfold _getDecoderConfig. rewrite H. reflexivity.
  - intros a rt H. unfold _getDecoderConfig. rewrite H.
    apply scan_for_SPS_first.
  - intros e rt rt' c Ne St H. destruct e; simpl in St.
    + inversion St; subst; clear St. unfold decode.
      destruct (decoding _); simpl.
      * rewrite this_await. exact H.
      * apply videoDecoderConfig_decode_body. exact H.
    + inversion St; subst. exact H.
    + contradiction.
    + destruct (microtasks rt) as [|[call data ts|call] rest];
        inversion St; subst.
      * apply videoDecoderConfig_decode_body. exact H.
      * exact H.
    + destruct (find _ _); inversion St; subst.
      unfold on_timeout. rewrite this_resolve. exact H.
    + inversion St; subst.
      destruct (this_emit_frame frame rt) as [-> | ->]; exact H.
    + inversion St; subst. exact H.
Qed.

End Config.

(** C6 as stated fails: in a chunk whose first SPS unit is cut off and
    whose second one parses, the first SPS that parses is the second, yet
    [_getDecoderConfig] derives nothing and leaves the cache unset. *)
Lemma first_broken_SPS_ends_the_scan :
  let U := Reference.utils in
  let r := _getDecoderConfig (utils := U) Reference.chunk_with_two_sps
             constructor in
  first_parseable_SPS (utils := U) (nalus Reference.chunk_with_two_sps)
  = Some {| codec := "avc1.42001e"; codedHeight := 240; codedWidth := 320;
            optimizeForLatency := true |}
  /\ fst r = Ok None
  /\ videoDecoderConfig (this (snd r)) = None
  /\ emitted (snd r) = [error_invalid_sps].
Proof. repeat split; vm_compute; reflexivity. Qed.

Lemma decoder_config_derivation_witness :
  let U := Reference.utils in
  let P := Reference.platform in
  let rt := decode (utils := U) (platform := P)
              Reference.delta_chunk_with_sps 0 constructor in
  let c := {| codec := "avc1.42001e"; codedHeight := 240; codedWidth := 320;
              optimizeForLatency := true |} in
  videoDecoderConfig (this rt) = Some c
  /\ videoDecoderConfig
       (this (decode (utils := U) (platform := P) Reference.key_chunk 1 rt))
     = Some c.
Proof.
  intros U P rt c.
  assert (videoDecoderConfig (this rt) = Some c) as H
    by (vm_compute; reflexivity).
  clearbody rt.
  split; [exact H|].
  assert (call_decode Reference.key_chunk 1 <> call_close) as Ne
    by discriminate.
  exact (proj2 (proj2 (decoder_config_derivation (utils := U)
                         (platform := P)))
           (call_decode Reference.key_chunk 1) rt _ c Ne eq_refl H).
Defined.

(** ** The pending frame *)

Section Frames.

Context {utils : H264Utils} {platform : VideoDecoderPlatform}.

Lemma resolve_shape p rt :
  exists s n r m, resolve p rt = set_promises s n r m rt.
Proof.
  unfold resolve. destruct (existsb _ _); [|eauto].
  exists (settled rt), (nextPromise rt), (reactions rt), (microtasks rt).
  destruct rt; reflexivity.
Qed.

Lemma await_shape p k rt :
  exists s n r m, await p k rt = set_promises s n r m rt.
Proof. unfold await. destruct (existsb _ _); eauto. Qed.

Lemma accounted_same rt rt' :
  stored rt' = stored rt -> closedFrames rt' = closedFrames rt ->
  outcomes rt' = outcomes rt ->
  pendingFrame (this rt') = pendingFrame (this rt) ->
  accounted rt -> accounted rt'.
Proof.
  unfold accounted, handed, slot. intros -> -> -> ->. auto.
Qed.

Lemma accounted_same_core rt rt' :
  same_core rt rt' -> accounted rt -> accounted rt'.
Proof.
  intros S. apply accounted_same;
    [exact (sc_stored S)|exact (sc_closedFrames S)|exact (sc_outcomes S)
    |exact (sc_pendingFrame S)].
Qed.

(** What the frame listener does with the frame and the slot. *)
Lemma on_frame_effect l frame rt :
  pendingFrame (this (on_frame l frame rt)) = Some frame
  /\ closedFrames (on_frame l frame rt) = closedFrames rt ++ slot rt
  /\ stored (on_frame l frame rt) = stored rt ++ [frame]
  /\ outcomes (on_frame l frame rt) = outcomes rt.
Proof.
  unfold on_frame, slot.
  match goal with
  | |- context [resolve ?p ?r] =>
      destruct (resolve_shape p r) as (s & n & r' & m & ->)
  end.
  unfold stored. simpl.
  destruct (pendingFrame (this rt)); simpl;
    rewrite flat_map_app, ?app_nil_r; simpl; auto.
Qed.

Lemma accounted_on_frame l frame rt :
  accounted rt -> accounted (on_frame l frame rt).
Proof.
  unfold accounted. intros A.
  destruct (on_frame_effect l frame rt) as (P & C & S & O).
  assert (slot (on_frame l frame rt) = [frame]) as P'
    by (unfold slot; rewrite P; reflexivity).
  assert (handed (on_frame l frame rt) = handed rt) as O'
    by (unfold handed; rewrite O; reflexivity).
  rewrite P', C, S, O'.
  rewrite (Permutation_app_tail [frame] A).
  rewrite <- !app_assoc. apply Permutation_app_head.
  rewrite !app_assoc. apply Permutation_app_tail.
  apply Permutation_app_comm.
Qed.

Lemma accounted_fold_on_frame frame ls rt :
  accounted rt ->
  accounted (fold_left (fun r l => on_frame l frame r) ls rt).
Proof.
  revert rt. induction ls as [|l ls IH]; intros rt A; simpl; [exact A|].
  apply IH, accounted_on_frame, A.
Qed.

Lemma accounted_submit call data ts ty a rt :
  accounted rt -> accounted (submit call data ts ty a rt).
Proof.
  apply accounted_same; unfold submit;
    match goal with
    | |- context [await ?p ?k ?r] =>
        destruct (await_shape p k r) as (s & n & r' & m & ->)
    end;
    destruct (decode_accepts _ _); try reflexivity;
    unfold stored; simpl; rewrite flat_map_app; simpl;
    rewrite app_nil_r; reflexivity.
Qed.

Lemma accounted_settle call o rt :
  o = returned None \/ o = rejected ->
  accounted rt -> accounted (settle call o rt).
Proof.
  unfold accounted, handed, slot. simpl. intros [-> | ->] A;
    rewrite flat_map_app; simpl; rewrite app_nil_r; exact A.
Qed.

Lemma accounted_gate_and_submit call data ts a rt :
  accounted rt -> accounted (gate_and_submit call data ts a rt).
Proof.
  intros A. unfold gate_and_submit.
  destruct (isKeyFrame a) as [[]|]; [| |apply accounted_settle; auto];
    destruct (hasKeyframe (this rt));
    try (apply accounted_submit; exact A).
  apply accounted_settle; [auto|].
  exact (accounted_same_core (same_core_emit debug_skipping rt eq_refl) A).
Qed.

Lemma accounted_decode_body call data ts rt :
  accounted rt -> accounted (decode_body call data ts rt).
Proof.
  intros A.
  destruct (decode_body_cases call data ts rt)
    as (rt0 & C & _ & [(o & -> & Ho) | (a & _ & _ & ->)]).
  - apply accounted_settle; [tauto|]. exact (accounted_same_core C A).
  - apply accounted_gate_and_submit. exact (accounted_same_core C A).
Qed.

Lemma accounted_decode_finish call rt :
  accounted rt -> accounted (decode_finish call rt).
Proof.
  unfold accounted, decode_finish, handed, slot. simpl. intros A.
  rewrite flat_map_app. simpl. unfold frame_of_outcome at 2. simpl.
  rewrite !app_nil_r.
  destruct (pendingFrame (this rt)); simpl in *;
    rewrite ?app_nil_r in *; exact A.
Qed.

Lemma accounted_step e rt rt' :
  step e rt = Some rt' -> accounted rt -> accounted rt'.
Proof.
  intros St A. destruct e; simpl in St.
  - inversion St; subst; clear St. unfold decode.
    destruct (decoding _); simpl.
    + match goal with
      | |- context [await ?p ?k ?r] =>
          destruct (await_shape p k r) as (s & n & r' & m & ->)
      end. exact A.
    + apply accounted_decode_body. exact A.
  - inversion St; subst. exact A.
  - inversion St; subst. exact A.
  - destruct (microtasks rt) as [|[call data ts|call] rest]; inversion St; subst.
    + apply accounted_decode_body. exact A.
    + apply accounted_decode_finish. exact A.
  - destruct (find _ _) as [t|]; inversion St; subst. unfold on_timeout.
    match goal with
    | |- context [resolve ?p ?r] =>
        destruct (resolve_shape p r) as (s & n & r' & m & ->)
    end.
    revert A. apply accounted_same; try reflexivity.
    unfold stored. simpl. rewrite flat_map_app. simpl.
    rewrite app_nil_r. reflexivity.
  - inversion St; subst. unfold emit_frame.
    apply accounted_fold_on_frame. exact A.
  - inversion St; subst. revert A. apply accounted_same; try reflexivity.
    unfold stored. simpl. rewrite flat_map_app. simpl.
    rewrite app_nil_r. reflexivity.
Qed.

Lemma accounted_reachable rt : reachable rt -> accounted rt.
Proof.
  induction 1 as [|e rt rt' R IH St].
  - unfold accounted. simpl. constructor.
  - exact (accounted_step e St IH).
Qed.

Lemma fold_on_frame_keeps frame ls rt :
  pendingFrame (this rt) = Some frame ->
  pendingFrame (this (fold_left (fun r l => on_frame l frame r) ls rt))
  = Some frame
  /\ exists more,
       closedFrames (fold_left (fun r l => on_frame l frame r) ls rt)
       = closedFrames rt ++ more.
Proof.
  revert rt. induction ls as [|l ls IH]; intros rt P; simpl.
  - split; [exact P|]. exists []. rewrite app_nil_r. reflexivity.
  - destruct (on_frame_effect l frame rt) as (P1 & C1 & _).
    destruct (IH _ P1) as (P2 & more & C2).
    split; [exact P2|]. rewrite C2, C1, <- app_assoc. eauto.
Qed.

(** A frame that arrives while a listener is registered ends up in the
    slot, and the frame held before is closed. *)
Lemma emit_frame_stores frame rt :
  frameListeners rt <> [] ->
  pendingFrame (this (emit_frame frame rt)) = Some frame
  /\ forall held,
       pendingFrame (this rt) = Some held ->
       In held (closedFrames (emit_frame frame rt)).
Proof.
  intros Ne. unfold emit_frame.
  destruct (frameListeners rt) as [|l ls]; [contradiction|]. simpl.
  set (rt0 := set_frameListeners [] rt).
  destruct (on_frame_effect l frame rt0) as (P1 & C1 & _).
  destruct (@fold_on_frame_keeps frame ls _ P1) as (P2 & more & C2).
  split; [exact P2|]. intros held Hh.
  rewrite C2, C1. unfold slot. simpl. rewrite Hh.
  apply in_or_app. left. apply in_or_app. right. left. reflexivity.
Qed.

Lemma stored_fold_on_frame frame ls rt :
  stored (fold_left (fun r l => on_frame l frame r) ls rt)
  = stored rt ++ repeat frame (List.length ls).
Proof.
  revert rt. induction ls as [|l ls IH]; intros rt; simpl.
  - rewrite app_nil_r. reflexivity.
  - destruct (on_frame_effect l frame rt) as (_ & _ & S & _).
    rewrite IH, S, <- app_assoc. reflexivity.
Qed.

Lemma emit_frame_stored frame rt :
  frameListeners rt <> [] -> In frame (stored (emit_frame frame rt)).
Proof.
  intros Ne. unfold emit_frame. rewrite stored_fold_on_frame.
  apply in_or_app. right.
  destruct (frameListeners rt) as [|l ls]; [contradiction|].
  left. reflexivity.
Qed.

Lemma emit_frame_drops frame rt :
  frameListeners rt = [] ->
  this (emit_frame frame rt) = this rt
  /\ closedFrames (emit_frame frame rt) = closedFrames rt
  /\ stored (emit_frame frame rt) = stored rt
  /\ outcomes (emit_frame frame rt) = outcomes rt.
Proof.
  intros E. unfold emit_frame. rewrite E. simpl. auto.
Qed.

Lemma accounted_held rt f :
  accounted rt ->
  In f (stored rt) ->
  In f (closedFrames rt) \/ In f (handed rt) \/ pendingFrame (this rt) = Some f.
Proof.
  intros A I. apply (Permutation_in _ A) in I.
  apply in_app_or in I. destruct I as [I|I]; [left; exact I|].
  apply in_app_or in I. destruct I as [I|I]; [right; left; exact I|].
  right. right. unfold slot in I.
  destruct (pendingFrame (this rt)) as [g|]; [|destruct I].
  destruct I as [->|[]]. reflexivity.
Qed.

(** C4, as the code has it. [#pendingFrame] is one slot, and in every
    reachable state a frame that a listener has stored and that has neither
    been closed nor been returned to a caller is the frame in the slot: at
    most one frame is held. The frame listener of [decode] closes the frame
    the slot holds, if any, and stores the new frame. So a frame that
    arrives while a listener is registered ends in the slot with the frame
    held before closed. A frame that arrives while no listener is
    registered is dropped: the slot, the closed frames and the stored
    frames all stay as they were, so the frame held is neither closed nor
    replaced. *)
Theorem at_most_one_pending_frame :
  (forall rt f,
     reachable rt ->
     In f (stored rt) ->
     In f (closedFrames rt) \/ In f (handed rt)
     \/ pendingFrame (this rt) = Some f)
  /\ (forall l frame rt,
        pendingFrame (this (on_frame l frame rt)) = Some frame
        /\ closedFrames (on_frame l frame rt) = closedFrames rt ++ slot rt)
  /\ (forall frame rt,
        frameListeners rt <> [] ->
        pendingFrame (this (emit_frame frame rt)) = Some frame
        /\ In frame (stored (emit_frame frame rt))
        /\ forall held,
             pendingFrame (this rt) = Some held ->
             In held (closedFrames (emit_frame frame rt)))
  /\ (forall frame rt,
        frameListeners rt = [] ->
        this (emit_frame frame rt) = this rt
        /\ closedFrames (emit_frame frame rt) = closedFrames rt
        /\ stored (emit_frame frame rt) = stored rt
        /\ outcomes (emit_frame frame rt) = outcomes rt).
Proof.
  split; [|split; [|split]].
  - intros rt f R. exact (@accounted_held rt f (accounted_reachable R)).
  - intros l frame rt.
    destruct (on_frame_effect l frame rt) as (P & C & _).
    split; [exact P|exact C].
  - intros frame rt Ne.
    destruct (@emit_frame_stores frame rt Ne) as [P H].
    split; [exact P|]. split; [|exact H].
    exact (@emit_frame_stored frame rt Ne).
  - intros frame rt E. exact (@emit_frame_drops frame rt E).
Qed.

End Frames.

(** C4 as stated fails: a call times out and returns, its frame arrives
    late and is stored by the listener the call left behind, and then a
    further frame arrives with no call waiting. No listener is registered,
    so that frame is not stored and the frame held is not closed. *)
Lemma frame_without_listener_is_dropped :
  let U := Reference.utils in
  let P := Reference.platform in
  option_map
    (fun rt =>
       (pendingFrame (this rt), frameListeners rt, closedFrames rt,
        (pendingFrame (this (emit_frame 8%nat rt)),
         closedFrames (emit_frame 8%nat rt),
         stored (emit_frame 8%nat rt))))
    (run (utils := U) (platform := P)
       [call_decode Reference.key_chunk 0; timeout_fires 0; microtask;
        decoder_output 7%nat] constructor)
  = Some (Some 7%nat, [], [], (Some 7%nat, [], [7%nat])).
Proof. reflexivity. Qed.

(** A late frame in the slot is closed when the next frame arrives at the
    listener of a further call; and a frame that arrives when that call has
    returned is dropped. *)
Lemma at_most_one_pending_frame_witness :
  let U := Reference.utils in
  let P := Reference.platform in
  match run (utils := U) (platform := P)
          [call_decode Reference.key_chunk 0; timeout_fires 0; microtask;
           decoder_output 7%nat; call_decode Reference.delta_chunk 40]
          constructor with
  | Some rt =>
      frameListeners rt <> []
      /\ pendingFrame (this rt) = Some 7%nat
      /\ In 7%nat (stored rt)
      /\ pendingFrame (this (emit_frame 8%nat rt)) = Some 8%nat
      /\ In 7%nat (closedFrames (emit_frame 8%nat rt))
      /\ (In 7%nat (closedFrames rt) \/ In 7%nat (handed rt)
          \/ pendingFrame (this rt) = Some 7%nat)
      /\ frameListeners (emit_frame 8%nat rt) = []
      /\ this (emit_frame 9%nat (emit_frame 8%nat rt))
         = this (emit_frame 8%nat rt)
  | None => False
  end.
Proof.
  intros U P.
  destruct (run (utils := U) (platform := P) _ constructor) as [rt|] eqn:E;
    [|vm_compute in E; discriminate].
  assert (reachable (utils := U) (platform := P) rt) as R
    by exact (reachable_run _ reachable_constructor E).
  assert (frameListeners rt <> []) as Ne.
  { observe (fun r => List.length (frameListeners r)) E X.
    destruct (frameListeners rt); [discriminate X|discriminate]. }
  assert (pendingFrame (this rt) = Some 7%nat) as Hp.
  { observe (fun r => pendingFrame (this r)) E X. symmetry. exact X. }
  assert (In 7%nat (stored rt)) as Hs.
  { observe (fun r => stored r) E X. rewrite <- X. left. reflexivity. }
  assert (frameListeners (emit_frame 8%nat rt) = []) as Hl.
  { observe (fun r => frameListeners (emit_frame 8%nat r)) E X.
    symmetry. exact X. }
  pose proof (at_most_one_pending_frame (utils := U) (platform := P))
    as (T1 & _ & T3 & T4).
  destruct (T3 8%nat rt Ne) as (S1 & _ & S2).
  split; [exact Ne|]. split; [exact Hp|]. split; [exact Hs|].
  split; [exact S1|]. split; [exact (S2 _ Hp)|].
  split; [exact (T1 rt _ R Hs)|]. split; [exact Hl|].
  exact (proj1 (T4 9%nat _ Hl)).
Defined.

(** ** Timeouts *)

Section TimedOut.

Context {utils : H264Utils} {platform : VideoDecoderPlatform}.

(** The turn in which a timer fires while its promise is pending. *)
Lemma step_timeout_pending rt p t :
  find (fun t' => Nat.eqb (t_id t') p) (timeouts rt) = Some t ->
  existsb (Nat.eqb (t_resolve t)) (settled rt) = false ->
  step (timeout_fires p) rt
  = Some (set_promises (t_resolve t :: settled rt) (nextPromise rt)
            (filter (fun r => negb (Nat.eqb (fst r) (t_resolve t)))
               (reactions rt))
            (microtasks rt
               ++ map snd (filter (fun r => Nat.eqb (fst r) (t_resolve t))
                             (reactions rt)))
            (emit (warn_timed_out (t_byteLength t) (t_timestampMicros t))
               (clearTimeout p rt))).
Proof.
  intros Ht Hs. unfold step. rewrite Ht.
  unfold on_timeout, resolve.
  change (settled (emit _ (clearTimeout p rt))) with (settled rt).
  rewrite Hs. reflexivity.
Qed.

Lemma step_microtask rt k rest :
  microtasks rt = k :: rest ->
  step microtask rt
  = Some (run_microtask k
            (set_promises (settled rt) (nextPromise rt) (reactions rt) rest
               rt)).
Proof. intros H. unfold step. rewrite H. reflexivity. Qed.

(** The timer of a pending promise fires, and the continuation waiting
    first for that promise is the next microtask to run. *)
Lemma timeout_then_finish rt p t call more :
  find (fun t' => Nat.eqb (t_id t') p) (timeouts rt) = Some t ->
  existsb (Nat.eqb (t_resolve t)) (settled rt) = false ->
  microtasks rt = [] ->
  filter (fun r => Nat.eqb (fst r) (t_resolve t)) (reactions rt)
  = (t_resolve t, finish_decode call) :: more ->
  exists rt1,
    run [timeout_fires p; microtask] rt = Some (decode_finish call rt1)
    /\ settled rt1 = t_resolve t :: settled rt
    /\ frameListeners rt1 = frameListeners rt
    /\ pendingFrame (this rt1) = pendingFrame (this rt)
    /\ decoder (this rt1) = decoder (this rt)
    /\ decodeCalls rt1 = decodeCalls rt
    /\ emitted rt1
       = emitted rt ++ [warn_timed_out (t_byteLength t) (t_timestampMicros t)]
    /\ outcomes rt1 = outcomes rt.
Proof.
  intros Ht Hs Hm Hf.
  pose proof (step_timeout_pending rt p Ht Hs) as S1.
  rewrite Hm, Hf in S1. simpl app in S1. simpl map in S1.
  match type of S1 with _ = Some ?r => remember r as rt1 eqn:E1 end.
  assert (microtasks rt1 = finish_decode call :: map snd more) as M1
    by (rewrite E1; reflexivity).
  pose proof (step_microtask rt1 M1) as S2. simpl run_microtask in S2.
  eexists. split.
  { unfold run. rewrite S1, S2. reflexivity. }
  rewrite E1. do 6 (split; [reflexivity|]). reflexivity.
Qed.

(** What the end of [decode] does. *)
Lemma decode_finish_effect call rt :
  outcomes (decode_finish call rt)
  = outcomes rt ++ [(call, returned (pendingFrame (this rt)))]
  /\ pendingFrame (this (decode_finish call rt)) = None
  /\ decoding (this (decode_finish call rt)) = None
  /\ decoder (this (decode_finish call rt)) = decoder (this rt)
  /\ decodeCalls (decode_finish call rt) = decodeCalls rt
  /\ frameListeners (decode_finish call rt) = frameListeners rt
  /\ emitted (decode_finish call rt) = emitted rt.
Proof. do 6 (split; [reflexivity|]). reflexivity. Qed.

(** C8, as the code has it. Let call [call] wait for its own promise [p],
    still pending, with the timer of [p] armed. When the timer fires and
    the continuation of the call runs, the call returns what the slot
    holds at that moment, which is no frame unless a frame of an earlier
    submission came late; it is not rejected. Nothing is said to the
    decoder, and the frame listeners stay registered, so a frame that
    arrives later is stored in the slot. *)
Theorem timeout_returns_the_slot rt p t call more :
  find (fun t' => Nat.eqb (t_id t') p) (timeouts rt) = Some t ->
  t_resolve t = p ->
  existsb (Nat.eqb p) (settled rt) = false ->
  microtasks rt = [] ->
  filter (fun r => Nat.eqb (fst r) p) (reactions rt)
  = (p, finish_decode call) :: more ->
  exists rt2,
    run [timeout_fires p; microtask] rt = Some rt2
    /\ outcomes rt2
       = outcomes rt ++ [(call, returned (pendingFrame (this rt)))]
    /\ pendingFrame (this rt2) = None
    /\ decoding (this rt2) = None
    /\ decoder (this rt2) = decoder (this rt)
    /\ decodeCalls rt2 = decodeCalls rt
    /\ frameListeners rt2 = frameListeners rt
    /\ emitted rt2
       = emitted rt ++ [warn_timed_out (t_byteLength t) (t_timestampMicros t)]
    /\ (frameListeners rt <> [] ->
        forall frame, pendingFrame (this (emit_frame frame rt2)) = Some frame).
Proof.
  intros Ht Hr Hs Hm Hf. rewrite <- Hr in Hs, Hf.
  destruct (@timeout_then_finish rt p t call more Ht Hs Hm Hf)
    as (rt1 & Run & S1 & L1 & P1 & D1 & C1 & E1 & O1).
  exists (decode_finish call rt1).
  destruct (decode_finish_effect call rt1)
    as (F1 & F2 & F3 & F4 & F5 & F6 & F7).
  split; [exact Run|].
  split; [rewrite F1, O1, P1; reflexivity|]. split; [exact F2|].
  split; [exact F3|]. split; [rewrite F4; exact D1|].
  split; [rewrite F5; exact C1|]. split; [rewrite F6; exact L1|].
  split; [rewrite F7; exact E1|].
  intros Ne frame. apply emit_frame_stores. rewrite F6, L1. exact Ne.
Qed.

End TimedOut.

(** C8 as stated fails: the first submission times out and its frame comes
    late; the second submission times out as well, and the second call
    then returns a frame, the late one of the first. *)
Lemma timed_out_call_returns_late_frame :
  option_map outcomes
    (run (utils := Reference.utils) (platform := Reference.platform)
       [call_decode Reference.key_chunk 0; timeout_fires 0; microtask;
        decoder_output 7%nat;
        call_decode Reference.delta_chunk 40; timeout_fires 1; microtask]
       constructor)
  = Some [(0%nat, returned None); (1%nat, returned (Some 7%nat))].
Proof. vm_compute. reflexivity. Qed.

Lemma timeout_returns_the_slot_witness :
  let U := Reference.utils in
  let P := Reference.platform in
  let rt := decode (utils := U) (platform := P) Reference.key_chunk 0
              constructor in
  exists rt2,
    run (utils := U) (platform := P) [timeout_fires 0; microtask] rt
    = Some rt2
    /\ outcomes rt2 = outcomes rt ++ [(0%nat, returned (pendingFrame (this rt)))].
Proof.
  intros U P rt.
  assert (find (fun t' => Nat.eqb (t_id t') 0) (timeouts rt)
          = Some {| t_id := 0; t_byteLength := 20; t_timestampMicros := 0;
                    t_resolve := 0%nat |}) as Ht by (vm_compute; reflexivity).
  assert (existsb (Nat.eqb 0) (settled rt) = false) as Hs
    by (vm_compute; reflexivity).
  assert (microtasks rt = []) as Hm by (vm_compute; reflexivity).
  assert (filter (fun r => Nat.eqb (fst r) 0) (reactions rt)
          = (0%nat, finish_decode 0) :: []) as Hf by (vm_compute; reflexivity).
  clearbody rt.
  destruct (@timeout_returns_the_slot U P rt 0%nat _ 0%nat [] Ht eq_refl Hs
              Hm Hf) as (rt2 & Run & Out & _).
  exists rt2. split; [exact Run|exact Out].
Defined.

(** ** What a returning call leaves behind *)

Section Return.

Context {utils : H264Utils} {platform : VideoDecoderPlatform}.

(** The keyframe test either ends the call without a frame or goes on to
    the submission. *)
Lemma gate_and_submit_cases call data ts a rt :
  (exists o rt', same_core rt rt'
                 /\ gate_and_submit call data ts a rt = settle call o rt'
                 /\ (o = returned None \/ o = rejected))
  \/ (exists ty rt', gate_and_submit call data ts a rt
                     = submit call data ts ty a rt'
                     /\ outcomes rt' = outcomes rt).
Proof.
  unfold gate_and_submit.
  destruct (isKeyFrame a) as [[]|].
  - right. destruct (hasKeyframe (this rt)); eauto.
  - destruct (hasKeyframe (this rt)); [right; eauto|].
    left. exists (returned None), (emit debug_skipping rt).
    split; [apply same_core_emit; reflexivity|]. auto.
  - left. exists rejected, rt. split; [apply same_core_refl|]. auto.
Qed.

Lemma app_one_neq {A} (l : list A) x : l <> l ++ [x].
Proof.
  intros E. apply (f_equal (@List.length A)) in E.
  rewrite length_app in E. simpl in E. lia.
Qed.

(** C10, as the code has it. The final [return] of [decode] hands the
    content of the slot to the caller and leaves slot and marker empty. A
    call that ends before its submission, returning [undefined] or being
    rejected, leaves both as it found them. *)
Theorem decode_return_clears :
  (forall call rt,
     outcomes (decode_finish call rt)
     = outcomes rt ++ [(call, returned (pendingFrame (this rt)))]
     /\ pendingFrame (this (decode_finish call rt)) = None
     /\ decoding (this (decode_finish call rt)) = None)
  /\ (forall call data ts rt o,
        outcomes (decode_body call data ts rt) = outcomes rt ++ [(call, o)] ->
        (o = returned None \/ o = rejected)
        /\ pendingFrame (this (decode_body call data ts rt))
           = pendingFrame (this rt)
        /\ decoding (this (decode_body call data ts rt))
           = decoding (this rt)).
Proof.
  split.
  - intros call rt. split; [reflexivity|]. split; reflexivity.
  - intros call data ts rt o E.
    destruct (decode_body_cases call data ts rt)
      as (rt0 & S & _ & [(o' & B & Ho) | (a & _ & _ & B)]);
      rewrite B in *; clear B.
    + simpl in E. rewrite (sc_outcomes S) in E.
      apply app_inv_head in E. inversion E; subst o'.
      simpl. rewrite (sc_pendingFrame S), (sc_decoding S).
      split; [tauto|]. split; reflexivity.
    + destruct (gate_and_submit_cases call data ts a rt0)
        as [(o' & rt' & S' & B & Ho) | (ty & rt' & B & O)];
        rewrite B in *; clear B.
      * simpl in E. rewrite (sc_outcomes S'), (sc_outcomes S) in E.
        apply app_inv_head in E. inversion E; subst o'.
        simpl. rewrite (sc_pendingFrame S'), (sc_decoding S'),
          (sc_pendingFrame S), (sc_decoding S).
        split; [exact Ho|]. split; reflexivity.
      * exfalso. rewrite submit_outcomes, O, (sc_outcomes S) in E.
        exact (@app_one_neq _ _ _ E).
Qed.

End Return.

(** C10 as stated fails: a frame that came late sits in the slot; after
    [close], a call with a chunk of no known format returns [undefined] at
    once and the frame is still in the slot. *)
Lemma early_return_keeps_the_slot :
  option_map (fun rt => (outcomes rt, pendingFrame (this rt)))
    (run (utils := Reference.utils) (platform := Reference.platform)
       [call_decode Reference.key_chunk 0; timeout_fires 0; microtask;
        decoder_output 7%nat; call_close;
        call_decode Reference.garbage_chunk 50] constructor)
  = Some ([(0%nat, returned None); (1%nat, returned None)], Some 7%nat).
Proof. vm_compute. reflexivity. Qed.

Lemma decode_return_clears_witness :
  let U := Reference.utils in
  let P := Reference.platform in
  let rt := close (decode (utils := U) (platform := P) Reference.key_chunk 0
                     constructor) in
  outcomes (decode_body (utils := U) (platform := P) 1
              Reference.garbage_chunk 50 rt)
  = outcomes rt ++ [(1%nat, returned None)]
  /\ decoding (this (decode_body (utils := U) (platform := P) 1
                       Reference.garbage_chunk 50 rt))
     = decoding (this rt).
Proof.
  intros U P rt.
  assert (outcomes (decode_body (utils := U) (platform := P) 1
                      Reference.garbage_chunk 50 rt)
          = outcomes rt ++ [(1%nat, returned None)]) as E
    by (vm_compute; reflexivity).
  clearbody rt.
  split; [exact E|].
  exact (proj2 (proj2 (proj2 (decode_return_clears (utils := U)
                                (platform := P))
                         1%nat Reference.garbage_chunk 50 rt _ E))).
Defined.

(** ** One decode at a time *)

(** C3, the code against its claim. [decode] waits for [#decoding] once,
    with an [if]. Three calls are made back to back: the second and the
    third both wait for the promise of the first. When the first frame
    arrives the first call returns, the second call submits its chunk and
    waits, and the third, which does not look at [#decoding] again,
    submits its chunk as well: two promises are pending and two listeners
    are registered. The next frame goes to both listeners, the second of
    which closes it; the second call returns that closed frame and the
    third returns nothing. *)
Theorem three_calls_two_in_flight :
  let U := Reference.utils in
  let P := Reference.platform in
  let calls :=
    [call_decode Reference.key_chunk 0; call_decode Reference.delta_chunk 10;
     call_decode Reference.delta_chunk 20] in
  option_map (fun rt => (in_flight rt, List.length (decodeCalls rt)))
    (run (utils := U) (platform := P) calls constructor)
  = Some ([0%nat], 1%nat)
  /\ option_map
       (fun rt => (in_flight rt, List.length (frameListeners rt),
                   map (fun c => dc_accepted c) (decodeCalls rt),
                   outcomes rt))
       (run (utils := U) (platform := P)
          (calls ++ [decoder_output 7%nat; microtask; microtask; microtask])
          constructor)
     = Some ([1%nat; 2%nat], 2%nat, [true; true; true],
             [(0%nat, returned (Some 7%nat))])
  /\ option_map (fun rt => (outcomes rt, closedFrames rt))
       (run (utils := U) (platform := P)
          (calls ++ [decoder_output 7%nat; microtask; microtask; microtask;
                     decoder_output 8%nat; microtask; microtask])
          constructor)
     = Some ([(0%nat, returned (Some 7%nat)); (1%nat, returned (Some 8%nat));
              (2%nat, returned None)],
             [8%nat]).
Proof. vm_compute. repeat split. Qed.
(** ** Further properties: the decoder a chunk is handed to *)

Section Configured.

Context {utils : H264Utils} {platform : VideoDecoderPlatform}.

Lemma gate_and_submit_decodeCalls call data ts a rt :
  state (decoder (this rt)) = configured ->
  let rt' := gate_and_submit call data ts a rt in
  decodeCalls rt' = decodeCalls rt
  /\ hasKeyframe (this rt') = hasKeyframe (this rt)
  \/ exists c,
       decodeCalls rt' = decodeCalls rt ++ [c]
       /\ state (dc_decoder c) = configured
       /\ dc_decoder c = decoder (this rt')
       /\ chunk_data (dc_chunk c) = a
       /\ (hasKeyframe (this rt) = false -> chunk_type (dc_chunk c) = key).
Proof.
  intros C. unfold gate_and_submit.
  destruct (isKeyFrame a) as [[]|]; cbv beta iota zeta;
    [| |left; split; reflexivity];
    destruct (hasKeyframe (this rt)) eqn:H; cbv beta iota zeta;
    try (left; split; [reflexivity|simpl; exact H]);
    right; rewrite submit_decodeCalls, submit_this; simpl;
    eexists; (split; [reflexivity|]); simpl;
    (split; [exact C|]); (split; [reflexivity|]); (split; [reflexivity|]);
    intros X; first [discriminate X|reflexivity].
Qed.

Lemma decode_body_decodeCalls call data ts rt :
  let rt' := decode_body call data ts rt in
  decodeCalls rt' = decodeCalls rt
  /\ hasKeyframe (this rt') = hasKeyframe (this rt)
  \/ exists c,
       decodeCalls rt' = decodeCalls rt ++ [c]
       /\ state (dc_decoder c) = configured
       /\ dc_decoder c = decoder (this rt')
       /\ fst (_getAnnexBFrame data (replace_closed_decoder rt))
          = Ok (Some (chunk_data (dc_chunk c)))
       /\ (hasKeyframe (this rt) = false -> chunk_type (dc_chunk c) = key).
Proof.
  simpl.
  destruct (decode_body_cases call data ts rt)
    as (rt0 & S & _ & [(o & -> & _)|(a & A & C & ->)]).
  - left. simpl. split; [exact (sc_decodeCalls S)|exact (sc_hasKeyframe S)].
  - destruct (@gate_and_submit_decodeCalls call data ts a rt0 C)
      as [[E H]|(c & E & Cc & D & Da & K)].
    + left. rewrite E, H.
      split; [exact (sc_decodeCalls S)|exact (sc_hasKeyframe S)].
    + right. exists c. rewrite E, (sc_decodeCalls S).
      split; [reflexivity|]. split; [exact Cc|]. split; [exact D|].
      split; [rewrite Da; exact A|].
      intros H. apply K. rewrite (sc_hasKeyframe S). exact H.
Qed.

Lemma step_decodeCalls e rt rt' :
  step e rt = Some rt' ->
  decodeCalls rt' = decodeCalls rt
  /\ hasKeyframe (this rt') = hasKeyframe (this rt)
  \/ exists c,
       decodeCalls rt' = decodeCalls rt ++ [c]
       /\ state (dc_decoder c) = configured
       /\ dc_decoder c = decoder (this rt')
       /\ (hasKeyframe (this rt) = false -> chunk_type (dc_chunk c) = key).
Proof.
  intros St. destruct e; simpl in St.
  - injection St as <-. unfold decode.
    destruct (decoding _); simpl.
    + left. rewrite decodeCalls_await, this_await. split; reflexivity.
    + destruct (decode_body_decodeCalls (nextCall rt) data timestampMicros
                  (set_counters (nextDecoder rt) (S (nextCall rt)) rt))
        as [E|(c & E & Cc & D & _ & K)]; [left; exact E|].
      right. exists c. auto.
  - injection St as <-. left. split; reflexivity.
  - injection St as <-. left. split; reflexivity.
  - destruct (microtasks rt) as [|[call data ts|call] rest];
      [discriminate| |]; injection St as <-.
    + destruct (decode_body_decodeCalls call data ts
                  (set_promises (settled rt) (nextPromise rt) (reactions rt)
                     rest rt))
        as [E|(c & E & Cc & D & _ & K)]; [left; exact E|].
      right. exists c. auto.
    + left. split; reflexivity.
  - destruct (find _ _); [|discriminate]. injection St as <-.
    left. unfold on_timeout. rewrite decodeCalls_resolve, this_resolve.
    split; reflexivity.
  - injection St as <-. left. split.
    + unfold emit_frame. rewrite decodeCalls_fold_on_frame. reflexivity.
    + destruct (this_emit_frame frame rt) as [-> | ->]; reflexivity.
  - injection St as <-. left. split; reflexivity.
Qed.

(** A chunk is handed to the decoder the object holds, and only when that
    decoder is in state ["configured"]: in every state the object gets
    into, each chunk it ever submitted went to a configured decoder, and
    the first of them all was a key chunk. A step submits at most one
    chunk. *)
Theorem chunks_go_to_a_configured_decoder rt :
  reachable rt ->
  Forall (fun c => state (dc_decoder c) = configured) (decodeCalls rt)
  /\ (forall c rest, decodeCalls rt = c :: rest ->
                     chunk_type (dc_chunk c) = key)
  /\ (forall e rt',
        step e rt = Some rt' ->
        decodeCalls rt' = decodeCalls rt
        \/ exists c, decodeCalls rt' = decodeCalls rt ++ [c]
                     /\ dc_decoder c = decoder (this rt')
                     /\ state (decoder (this rt')) = configured).
Proof.
  intros R.
  assert (Forall (fun c => state (dc_decoder c) = configured) (decodeCalls rt)
          /\ (forall c rest, decodeCalls rt = c :: rest ->
                             chunk_type (dc_chunk c) = key)
          /\ (hasKeyframe (this rt) = true -> decodeCalls rt <> [])) as I.
  { induction R as [|e rt rt' R (IH1 & IH2 & IH3) St].
    - split; [constructor|]. split; [|discriminate].
      intros c rest X. discriminate X.
    - destruct (step_decodeCalls e rt St) as [[E H]|(c & E & Cc & D & K)].
      + rewrite E, H. auto.
      + rewrite E. split; [|split].
        * apply Forall_app. split; [exact IH1|]. constructor; [exact Cc|].
          constructor.
        * intros c0 rest X.
          destruct (decodeCalls rt) as [|c1 l] eqn:L.
          -- simpl in X. injection X as <- <-. apply K.
             destruct (hasKeyframe (this rt)); [|reflexivity].
             exfalso. exact (IH3 eq_refl eq_refl).
          -- simpl in X. injection X as <- <-. exact (IH2 c1 l eq_refl).
        * intros _ X. destruct (decodeCalls rt); discriminate X. }
  destruct I as (I1 & I2 & _). split; [exact I1|]. split; [exact I2|].
  intros e rt' St.
  destruct (step_decodeCalls e rt St) as [[E _]|(c & E & Cc & D & K)];
    [left; exact E|].
  right. exists c. split; [exact E|]. split; [exact D|].
  rewrite <- D. exact Cc.
Qed.

End Configured.

(** A key chunk, its frame, a close and a further chunk: both chunks went to
    a configured decoder, the second to the new one. *)
Lemma chunks_go_to_a_configured_decoder_witness :
  let U := Reference.utils in
  let P := Reference.platform in
  match run (utils := U) (platform := P)
          [call_decode Reference.key_chunk 0; decoder_output 7%nat; microtask;
           call_close; call_decode Reference.delta_chunk_with_sps 10]
          constructor with
  | Some rt =>
      map (fun c => instance (dc_decoder c)) (decodeCalls rt) = [0%nat; 1%nat]
      /\ Forall (fun c => state (dc_decoder c) = configured) (decodeCalls rt)
      /\ (forall c rest, decodeCalls rt = c :: rest ->
                         chunk_type (dc_chunk c) = key)
  | None => False
  end.
Proof.
  intros U P.
  destruct (run (utils := U) (platform := P) _ constructor) as [rt|] eqn:E;
    [|vm_compute in E; discriminate].
  assert (reachable (utils := U) (platform := P) rt) as R
    by exact (reachable_run _ reachable_constructor E).
  observe (fun r => map (fun c => instance (dc_decoder c)) (decodeCalls r))
    E X.
  split; [symmetry; exact X|].
  destruct (chunks_go_to_a_configured_decoder R) as (F & K & _).
  split; [exact F|exact K].
Defined.
(** ** The replacement of a closed decoder *)

Section Replacement.

Context {utils : H264Utils} {platform : VideoDecoderPlatform}.

(** *** The counter of decoder objects *)

Lemma nextDecoder_resolve p rt : nextDecoder (resolve p rt) = nextDecoder rt.
Proof. unfold resolve. destruct (existsb _ _); reflexivity. Qed.

Lemma nextDecoder_await p k rt : nextDecoder (await p k rt) = nextDecoder rt.
Proof. unfold await. destruct (existsb _ _); reflexivity. Qed.

Lemma nextDecoder__getAnnexBFrame data rt :
  nextDecoder (snd (_getAnnexBFrame data rt)) = nextDecoder rt.
Proof.
  unfold _getAnnexBFrame, _getNaluStreamInfo, _identifyNaluStreamInfo.
  destruct (naluStreamInfo (this rt)) as [i|].
  - destruct (type i); simpl; try reflexivity.
    destruct (convertToAnnexB data (boxSize i)); reflexivity.
  - destruct (NALUStream_strict data) as [[[[| |]|] [b|]]|]; simpl;
      try destruct (convertToAnnexB data b); reflexivity.
Qed.

Lemma nextDecoder_configure_if_needed a rt :
  nextDecoder (snd (configure_if_needed a rt)) = nextDecoder rt.
Proof.
  unfold configure_if_needed, _getDecoderConfig.
  destruct (state (decoder (this rt))); try reflexivity.
  destruct (videoDecoderConfig (this rt)) as [c|]; simpl.
  - destruct (configure_accepts c); reflexivity.
  - destruct (scan_for_SPS (nalus a) rt) as [r rt'] eqn:E.
    apply scan_for_SPS_effect in E.
    destruct E as [->|[(c & -> & ->)|[-> ->]]]; simpl.
    + destruct r as [[c|]|]; simpl; try reflexivity.
      destruct (configure_accepts c); reflexivity.
    + destruct (configure_accepts c); reflexivity.
    + reflexivity.
Qed.

Lemma nextDecoder_submit call data ts ty a rt :
  nextDecoder (submit call data ts ty a rt) = nextDecoder rt.
Proof.
  unfold submit. rewrite nextDecoder_await.
  destruct (decode_accepts _ _); reflexivity.
Qed.

Lemma nextDecoder_gate_and_submit call data ts a rt :
  nextDecoder (gate_and_submit call data ts a rt) = nextDecoder rt.
Proof.
  unfold gate_and_submit.
  destruct (isKeyFrame a) as [[]|]; try reflexivity;
    destruct (hasKeyframe (this rt)); rewrite ?nextDecoder_submit;
    reflexivity.
Qed.

(** [decode] makes a decoder object in one place only, the replacement of
    a closed decoder at its head. *)
Lemma nextDecoder_decode_body call data ts rt :
  nextDecoder (decode_body call data ts rt)
  = nextDecoder (replace_closed_decoder rt).
Proof.
  unfold decode_body.
  pose proof (nextDecoder__getAnnexBFrame data (replace_closed_decoder rt))
    as H2.
  destruct (_getAnnexBFrame data (replace_closed_decoder rt))
    as [[[a|]|] rt2]; simpl in *; try exact H2.
  pose proof (nextDecoder_configure_if_needed a rt2) as H3.
  destruct (configure_if_needed a rt2) as [[[]|] rt3]; simpl in *;
    try (rewrite H3; exact H2).
  destruct (state (decoder (this rt3))); simpl;
    rewrite ?nextDecoder_gate_and_submit, H3; exact H2.
Qed.

Lemma nextDecoder_fold_on_frame frame ls rt :
  nextDecoder (fold_left (fun r l => on_frame l frame r) ls rt)
  = nextDecoder rt.
Proof.
  revert rt. induction ls as [|l ls IH]; intros rt; simpl; [reflexivity|].
  rewrite IH. unfold on_frame. rewrite nextDecoder_resolve. simpl.
  destruct (pendingFrame (this rt)); reflexivity.
Qed.

(** The replacement takes the next decoder object and moves the counter
    on; without a closed decoder nothing changes. *)
Lemma replace_closed_decoder_counter rt :
  (instance (decoder (this rt)) < nextDecoder rt)%nat ->
  (nextDecoder rt <= nextDecoder (replace_closed_decoder rt))%nat
  /\ (instance (decoder (this (replace_closed_decoder rt)))
      < nextDecoder (replace_closed_decoder rt))%nat.
Proof.
  intros L. unfold replace_closed_decoder.
  destruct (state (decoder (this rt))); simpl; lia.
Qed.

Lemma decoders_made_step e rt rt' :
  step e rt = Some rt' ->
  decoders_made rt ->
  decoders_made rt' /\ (nextDecoder rt <= nextDecoder rt')%nat.
Proof.
  intros St [I D].
  assert ((instance (decoder (this rt')) < nextDecoder rt')%nat
          /\ (nextDecoder rt <= nextDecoder rt')%nat) as [I' Le].
  { destruct e; simpl in St.
    - injection St as <-. unfold decode.
      destruct (decoding _); simpl.
      + rewrite this_await, nextDecoder_await. simpl. lia.
      + rewrite instance_decode_body, nextDecoder_decode_body.
        destruct (replace_closed_decoder_counter
                    (set_counters (nextDecoder rt) (S (nextCall rt)) rt) I)
          as [A B].
        simpl in A. lia.
    - injection St as <-. simpl. lia.
    - injection St as <-. simpl. lia.
    - destruct (microtasks rt) as [|[call data ts|call] rest];
        [discriminate| |]; injection St as <-.
      + rewrite instance_decode_body, nextDecoder_decode_body.
        destruct (replace_closed_decoder_counter
                    (set_promises (settled rt) (nextPromise rt)
                       (reactions rt) rest rt) I) as [A B].
        simpl in A. lia.
      + simpl. lia.
    - destruct (find _ _); [|discriminate]. injection St as <-.
      unfold on_timeout. rewrite this_resolve, nextDecoder_resolve.
      simpl. lia.
    - injection St as <-.
      assert (nextDecoder (emit_frame frame rt) = nextDecoder rt) as ->
        by (unfold emit_frame; rewrite nextDecoder_fold_on_frame;
            reflexivity).
      destruct (this_emit_frame frame rt) as [-> | ->]; simpl; lia.
    - injection St as <-. simpl. lia. }
  split; [|exact Le]. split; [exact I'|].
  intros c Ic.
  destruct (step_decodeCalls e rt St) as [[E _]|(c' & E & _ & Dc & _)];
    rewrite E in Ic.
  - specialize (D c Ic). lia.
  - apply in_app_or in Ic. destruct Ic as [Ic|[<-|[]]].
    + specialize (D c Ic). lia.
    + rewrite Dc. exact I'.
Qed.

Lemma decoders_made_reachable rt : reachable rt -> decoders_made rt.
Proof.
  induction 1 as [|e rt rt' _ IH St].
  - split; [simpl; lia|]. intros c [].
  - exact (proj1 (decoders_made_step e St IH)).
Qed.

Lemma nextDecoder_run es rt rt' :
  reachable rt -> run es rt = Some rt' ->
  (nextDecoder rt <= nextDecoder rt')%nat.
Proof.
  revert rt. induction es as [|e es IH]; simpl; intros rt R E.
  - injection E as <-. lia.
  - destruct (step e rt) as [rt1|] eqn:St; [|discriminate].
    pose proof (proj2 (decoders_made_step e St (decoders_made_reachable R)))
      as L1.
    pose proof (IH rt1 (reachable_step e R St) E) as L2. lia.
Qed.

(** C7. When the body of [decode] finds the decoder closed it makes a new
    one, which is unconfigured, emits the warning and goes on exactly as it
    would with that new decoder, which is the decoder of the object when
    the call ends or suspends (so for a call that need not wait for an
    earlier one); with a cached configuration the platform
    accepts and the gate open, the chunk is passed to the new decoder. The
    new decoder is a fresh object: in whatever state the object can get
    into, it is none of the decoders the object held in any earlier state
    of the run, the closed one included, and none of those a chunk was ever
    handed to. *)
Theorem closed_decoder_is_replaced rt call data ts :
  state (decoder (this rt)) = closed ->
  let rt1 := replace_closed_decoder rt in
  decoder (this rt1) = {| state := unconfigured; instance := nextDecoder rt |}
  /\ emitted rt1 = emitted rt ++ [warn_closed]
  /\ decode_body call data ts rt = decode_body call data ts rt1
  /\ instance (decoder (this (decode_body call data ts rt))) = nextDecoder rt
  /\ (decoding (this rt) = None ->
      instance (decoder (this (decode data ts rt))) = nextDecoder rt)
  /\ (forall c ty,
        videoDecoderConfig (this rt) = Some c ->
        configure_accepts c = true ->
        hasKeyframe (this rt) = true ->
        chunk_kind data rt = Some ty ->
        exists dc,
          decodeCalls (decode_body call data ts rt) = decodeCalls rt ++ [dc]
          /\ dc_decoder dc
             = {| state := configured; instance := nextDecoder rt |}
          /\ chunk_type (dc_chunk dc) = ty)
  /\ (forall rt0 es,
        reachable rt0 -> run es rt0 = Some rt ->
        instance (decoder (this rt0)) <> instance (decoder (this rt1))
        /\ (forall c, In c (decodeCalls rt0) ->
                      instance (dc_decoder c)
                      <> instance (decoder (this rt1)))
        /\ (forall c, In c (decodeCalls rt) ->
                      instance (dc_decoder c)
                      <> instance (decoder (this rt1)))).
Proof.
  intros C rt1.
  assert (rt1 = upd (set_decoder {| state := unconfigured;
                                    instance := nextDecoder rt |})
                  (set_counters (S (nextDecoder rt)) (nextCall rt)
                     (emit warn_closed rt))) as E1.
  { unfold rt1, replace_closed_decoder. rewrite C. reflexivity. }
  assert (replace_closed_decoder rt1 = rt1) as E2.
  { rewrite E1. reflexivity. }
  split; [rewrite E1; reflexivity|].
  split; [rewrite E1; reflexivity|].
  assert (decode_body call data ts rt = decode_body call data ts rt1) as E3.
  { unfold decode_body. rewrite E2. reflexivity. }
  split; [exact E3|].
  split.
  { rewrite instance_decode_body. fold rt1. rewrite E1. reflexivity. }
  split.
  { intros Hd. unfold decode. simpl. rewrite Hd.
    rewrite instance_decode_body. unfold replace_closed_decoder. simpl.
    rewrite C. reflexivity. }
  split.
  2:{ intros rt0 es R0 Run.
      destruct (decoders_made_reachable R0) as [I0 D0].
      destruct (decoders_made_reachable (reachable_run es R0 Run))
        as [_ D].
      pose proof (nextDecoder_run es R0 Run) as Le.
      rewrite E1. simpl.
      split; [lia|]. split.
      - intros c I. specialize (D0 c I). lia.
      - intros c I. specialize (D c I). lia. }
  intros c ty Hc Ha H K.
  apply chunk_kind_inv in K. destruct K as (a & Ea & Ka). fold rt1 in Ea.
  unfold decode_body. fold rt1.
  pose proof (same_core__getAnnexBFrame data rt1) as S.
  destruct (decoder__getAnnexBFrame data rt1) as [Dd Dc].
  destruct (_getAnnexBFrame data rt1) as [r rt2]. simpl in *. subst r.
  assert (decoder (this rt2)
          = {| state := unconfigured; instance := nextDecoder rt |}) as D2.
  { rewrite Dd, E1. reflexivity. }
  assert (videoDecoderConfig (this rt2) = Some c) as C2.
  { rewrite Dc, E1. exact Hc. }
  unfold configure_if_needed, _getDecoderConfig. rewrite D2, C2. simpl.
  rewrite Ha. simpl.
  unfold gate_and_submit. rewrite Ka. simpl.
  assert (hasKeyframe (this rt1) = true) as H1 by (rewrite E1; exact H).
  assert (decodeCalls rt1 = decodeCalls rt) as Dc1
    by (rewrite E1; reflexivity).
  rewrite (sc_hasKeyframe S), H1.
  rewrite submit_decodeCalls. simpl. rewrite (sc_decodeCalls S), Dc1, D2.
  simpl.
  eexists. split; [reflexivity|]. split; [reflexivity|].
  simpl. destruct ty; reflexivity.
Qed.

End Replacement.

(** A decoder that closed on an error after a first frame: the next chunk
    goes to a new decoder, which is neither the first decoder nor the one
    the first chunk went to. *)
Lemma closed_decoder_is_replaced_witness :
  let U := Reference.utils in
  let P := Reference.platform in
  match run (utils := U) (platform := P)
          [call_decode Reference.key_chunk 0; decoder_output 7%nat; microtask;
           decoder_error] constructor with
  | Some rt =>
      state (decoder (this rt)) = closed
      /\ decode_body (utils := U) (platform := P) 1 Reference.delta_chunk 40 rt
         = decode_body (utils := U) (platform := P) 1 Reference.delta_chunk 40
             (replace_closed_decoder rt)
      /\ instance (decoder (this constructor))
         <> instance (decoder (this (replace_closed_decoder rt)))
      /\ instance (decoder (this rt))
         <> instance (decoder (this (replace_closed_decoder rt)))
      /\ List.length (decodeCalls rt) = 1%nat
      /\ (forall c, In c (decodeCalls rt) ->
                    instance (dc_decoder c)
                    <> instance (decoder (this (replace_closed_decoder rt))))
  | None => False
  end.
Proof.
  intros U P.
  destruct (run (utils := U) (platform := P) _ constructor) as [rt|] eqn:E;
    [|vm_compute in E; discriminate].
  assert (state (decoder (this rt)) = closed) as C.
  { observe (fun r => state (decoder (this r))) E X. symmetry. exact X. }
  assert (List.length (decodeCalls rt) = 1%nat) as L.
  { observe (fun r => List.length (decodeCalls r)) E X. symmetry. exact X. }
  assert (reachable (utils := U) (platform := P) rt) as R
    by exact (reachable_run _ reachable_constructor E).
  pose proof (@closed_decoder_is_replaced U P rt 1%nat Reference.delta_chunk
                40 C) as (_ & _ & B & _ & _ & _ & F).
  split; [exact C|]. split; [exact B|].
  split; [exact (proj1 (F constructor _ reachable_constructor E))|].
  split; [exact (proj1 (F rt [] R eq_refl))|].
  split; [exact L|].
  exact (proj2 (proj2 (F rt [] R eq_refl))).
Defined.

(** ** Further properties: the flag and the caches over runs *)

Section Caches.

Context {utils : H264Utils} {platform : VideoDecoderPlatform}.

(** [#hasKeyframe] is set by the first key chunk and by nothing unset: not
    by [resetForSeek], not by [close], not by the replacement of a closed
    decoder. *)
Theorem hasKeyframe_never_reset es rt rt' :
  run es rt = Some rt' ->
  hasKeyframe (this rt) = true ->
  hasKeyframe (this rt') = true.
Proof.
  revert rt. induction es as [|e es IH]; simpl; intros rt E H.
  - inversion E; subst. exact H.
  - destruct (step e rt) as [rt1|] eqn:S; [|discriminate].
    exact (IH rt1 E (hasKeyframe_monotone e rt S H)).
Qed.

Lemma naluStreamInfo__getAnnexBFrame data rt i :
  naluStreamInfo (this rt) = Some i ->
  naluStreamInfo (this (snd (_getAnnexBFrame data rt))) = Some i.
Proof.
  intros H. unfold _getAnnexBFrame, _getNaluStreamInfo. rewrite H.
  destruct (type i); simpl; try exact H.
  destruct (convertToAnnexB data (boxSize i)); exact H.
Qed.

Lemma naluStreamInfo_configure_if_needed a rt :
  naluStreamInfo (this (snd (configure_if_needed a rt)))
  = naluStreamInfo (this rt).
Proof.
  unfold configure_if_needed, _getDecoderConfig.
  destruct (state (decoder (this rt))); try reflexivity.
  destruct (videoDecoderConfig (this rt)) as [c|]; simpl.
  - destruct (configure_accepts c); reflexivity.
  - destruct (scan_for_SPS (nalus a) rt) as [r rt'] eqn:E.
    apply scan_for_SPS_effect in E.
    destruct E as [->|[(c & -> & ->)|[-> ->]]]; simpl.
    + destruct r as [[c|]|]; simpl; try reflexivity.
      destruct (configure_accepts c); reflexivity.
    + destruct (configure_accepts c); reflexivity.
    + reflexivity.
Qed.

Lemma naluStreamInfo_gate_and_submit call data ts a rt :
  naluStreamInfo (this (gate_and_submit call data ts a rt))
  = naluStreamInfo (this rt).
Proof.
  unfold gate_and_submit.
  destruct (isKeyFrame a) as [[]|]; try reflexivity;
    destruct (hasKeyframe (this rt)); rewrite ?submit_this; reflexivity.
Qed.

Lemma naluStreamInfo_decode_body call data ts rt i :
  naluStreamInfo (this rt) = Some i ->
  naluStreamInfo (this (decode_body call data ts rt)) = Some i.
Proof.
  intros H. unfold decode_body.
  assert (naluStreamInfo (this (replace_closed_decoder rt)) = Some i) as H1
    by (rewrite naluStreamInfo_replace_closed_decoder; exact H).
  pose proof (naluStreamInfo__getAnnexBFrame data _ H1) as H2.
  destruct (_getAnnexBFrame data (replace_closed_decoder rt))
    as [[[a|]|] rt2]; simpl in *; try exact H2.
  pose proof (naluStreamInfo_configure_if_needed a rt2) as H3.
  destruct (configure_if_needed a rt2) as [[[]|] rt3]; simpl in *;
    try (rewrite H3; exact H2).
  destruct (state (decoder (this rt3))); simpl;
    rewrite ?naluStreamInfo_gate_and_submit, H3; exact H2.
Qed.

Lemma naluStreamInfo_step e rt rt' i :
  e <> call_close ->
  step e rt = Some rt' ->
  naluStreamInfo (this rt) = Some i ->
  naluStreamInfo (this rt') = Some i.
Proof.
  intros Ne St H. destruct e; simpl in St.
  - inversion St; subst; clear St. unfold decode.
    destruct (decoding _); simpl.
    + rewrite this_await. exact H.
    + apply naluStreamInfo_decode_body. exact H.
  - inversion St; subst. exact H.
  - contradiction.
  - destruct (microtasks rt) as [|[call data ts|call] rest];
      inversion St; subst.
    + apply naluStreamInfo_decode_body. exact H.
    + exact H.
  - destruct (find _ _); inversion St; subst.
    unfold on_timeout. rewrite this_resolve. exact H.
  - inversion St; subst.
    destruct (this_emit_frame frame rt) as [-> | ->]; exact H.
  - inversion St; subst. exact H.
Qed.

(** Once the stream has been identified, the stream information stays as
    it is over every run without [close], and the Annex B form of a chunk
    is computed from it alone: no later chunk is looked at to identify the
    stream again. *)
Theorem naluStreamInfo_fixed_until_close es rt rt' i :
  run es rt = Some rt' ->
  ~ In call_close es ->
  naluStreamInfo (this rt) = Some i ->
  naluStreamInfo (this rt') = Some i
  /\ forall data,
       fst (_getAnnexBFrame data rt')
       = match type i with
         | packet =>
             match convertToAnnexB data (boxSize i) with
             | Ok buf => Ok (Some buf)
             | Thrown => Thrown
             end
         | annexB => Ok (Some data)
         | unknown => Ok None
         end.
Proof.
  revert rt. induction es as [|e es IH]; simpl; intros rt E Nc H.
  - inversion E; subst. split; [exact H|]. intros data.
    unfold _getAnnexBFrame, _getNaluStreamInfo. rewrite H.
    destruct (type i); simpl; try reflexivity.
    destruct (convertToAnnexB data (boxSize i)); reflexivity.
  - destruct (step e rt) as [rt1|] eqn:S; [|discriminate].
    apply (IH rt1 E).
    + intros I. apply Nc. right. exact I.
    + apply (@naluStreamInfo_step e rt rt1 i); [|exact S|exact H].
      intros ->. apply Nc. left. reflexivity.
Qed.

End Caches.

Lemma hasKeyframe_never_reset_witness :
  let U := Reference.utils in
  let P := Reference.platform in
  match run (utils := U) (platform := P)
          [call_decode Reference.key_chunk 0; decoder_output 7%nat; microtask]
          constructor with
  | Some rt =>
      hasKeyframe (this rt) = true
      /\ forall rt',
           run (utils := U) (platform := P)
             [call_resetForSeek; call_close;
              call_decode Reference.delta_chunk_with_sps 9] rt = Some rt' ->
           hasKeyframe (this rt') = true
  | None => False
  end.
Proof.
  intros U P.
  destruct (run (utils := U) (platform := P) _ constructor) as [rt|] eqn:E;
    [|vm_compute in E; discriminate].
  assert (hasKeyframe (this rt) = true) as H.
  { observe (fun r => hasKeyframe (this r)) E X. symmetry. exact X. }
  split; [exact H|].
  intros rt' R. exact (hasKeyframe_never_reset _ rt R H).
Defined.

Lemma naluStreamInfo_fixed_until_close_witness :
  let U := Reference.utils in
  let P := Reference.platform in
  let rt := decode (utils := U) (platform := P) Reference.key_chunk 0
              constructor in
  let i := {| type := annexB; boxSize := 4 |} in
  naluStreamInfo (this rt) = Some i
  /\ forall rt',
       run (utils := U) (platform := P)
         [decoder_output 7%nat; microtask; call_resetForSeek;
          call_decode Reference.garbage_chunk 9] rt = Some rt' ->
       naluStreamInfo (this rt') = Some i.
Proof.
  intros U P rt i.
  assert (naluStreamInfo (this rt) = Some i) as H by (vm_compute; reflexivity).
  clearbody rt.
  split; [exact H|].
  intros rt' R.
  refine (proj1 (naluStreamInfo_fixed_until_close _ rt R _ H)).
  simpl. intros [X|[X|[X|[X|[]]]]]; discriminate X.
Defined.

(** ** Further properties: before the first keyframe *)

Section BeforeKeyframe.

Context {utils : H264Utils} {platform : VideoDecoderPlatform}.

Lemma nothing_stored_before_keyframe rt :
  reachable rt -> hasKeyframe (this rt) = false -> stored rt = [].
Proof.
  induction 1 as [|e rt rt' R IH St].
  - reflexivity.
  - intros H'.
    destruct (hasKeyframe (this rt)) eqn:H.
    { rewrite (hasKeyframe_monotone e rt St H) in H'. discriminate. }
    specialize (IH eq_refl).
    destruct (quiet_before_keyframe R H) as (Hd & _ & _ & _ & Hm & Hl & Ho & _).
    destruct e; simpl in St.
    + inversion St; subst; clear St. unfold decode in *.
      simpl in *. rewrite Hd in *.
      set (rt1 := set_counters (nextDecoder rt) (S (nextCall rt)) rt) in *.
      destruct (decode_body_cases (nextCall rt) data timestampMicros rt1)
        as (rt0 & S & _ & [(o & E & _) | (a & _ & _ & E)]); rewrite E in *.
      * change (stored rt0 = []). rewrite (sc_stored S). exact IH.
      * pose proof (gate_and_submit_closed (nextCall rt) data
                      timestampMicros a rt0) as G.
        rewrite (sc_hasKeyframe S) in G. specialize (G H).
        destruct (isKeyFrame a) as [[]|]; rewrite G in *.
        -- rewrite submit_this in H'. discriminate.
        -- change (stored (emit debug_skipping rt0) = []).
           rewrite stored_emit, (sc_stored S). simpl. rewrite app_nil_r.
           exact IH.
        -- change (stored rt0 = []). rewrite (sc_stored S). exact IH.
    + inversion St; subst. exact IH.
    + inversion St; subst. exact IH.
    + rewrite Hm in St. discriminate.
    + rewrite Ho in St. discriminate.
    + inversion St; subst. unfold emit_frame. rewrite Hl. exact IH.
    + inversion St; subst.
      change (stored (emit error_decoder rt) = []).
      rewrite stored_emit. simpl. rewrite app_nil_r. exact IH.
Qed.

(** As long as no key chunk has passed the keyframe test, the object has
    done nothing with the decoder but configure it: no chunk was handed to
    it, [#timestamp] is 0, no timer is armed, no listener is registered,
    nothing is in flight, and no call has returned or closed a frame. *)
Theorem nothing_before_first_keyframe rt :
  reachable rt ->
  hasKeyframe (this rt) = false ->
  decodeCalls rt = [] /\ timestamp (this rt) = 0
  /\ timeouts rt = [] /\ frameListeners rt = []
  /\ decoding (this rt) = None /\ pendingFrame (this rt) = None
  /\ handed rt = [] /\ closedFrames rt = [].
Proof.
  intros R H.
  destruct (quiet_before_keyframe R H) as (Hd & Hp & Ht & _ & _ & Hl & Ho & Hc).
  pose proof (accounted_reachable R) as A. unfold accounted in A.
  rewrite (nothing_stored_before_keyframe R H) in A.
  apply Permutation_nil in A.
  apply app_eq_nil in A. destruct A as [A1 A2].
  apply app_eq_nil in A2. destruct A2 as [A2 _].
  repeat (split; [assumption|]). assumption.
Qed.

End BeforeKeyframe.

Lemma nothing_before_first_keyframe_witness :
  let U := Reference.utils in
  let P := Reference.platform in
  match run (utils := U) (platform := P)
          [call_decode Reference.delta_chunk_with_sps 0; decoder_output 3%nat;
           call_decode Reference.delta_chunk 5; call_resetForSeek]
          constructor with
  | Some rt =>
      hasKeyframe (this rt) = false
      /\ decodeCalls rt = [] /\ handed rt = []
  | None => False
  end.
Proof.
  intros U P.
  destruct (run (utils := U) (platform := P) _ constructor) as [rt|] eqn:E;
    [|vm_compute in E; discriminate].
  assert (reachable (utils := U) (platform := P) rt) as R
    by exact (reachable_run _ reachable_constructor E).
  assert (hasKeyframe (this rt) = false) as H.
  { observe (fun r => hasKeyframe (this r)) E X. symmetry. exact X. }
  destruct (nothing_before_first_keyframe R H)
    as (A & _ & _ & _ & _ & _ & B & _).
  split; [exact H|]. split; [exact A|exact B].
Defined.

(** ** Further properties: a frame and the registered listeners *)

Section EveryListener.

Context {utils : H264Utils} {platform : VideoDecoderPlatform}.

Lemma settled_resolve p rt :
  settled (resolve p rt)
  = if existsb (Nat.eqb p) (settled rt) then settled rt else p :: settled rt.
Proof. unfold resolve. destruct (existsb _ _); reflexivity. Qed.

Lemma is_settled_resolve p q rt :
  existsb (Nat.eqb q) (settled (resolve p rt))
  = Nat.eqb q p || existsb (Nat.eqb q) (settled rt).
Proof.
  rewrite settled_resolve.
  destruct (existsb (Nat.eqb p) (settled rt)) eqn:E; simpl; [|reflexivity].
  destruct (Nat.eqb q p) eqn:Q; simpl; [|reflexivity].
  apply Nat.eqb_eq in Q. subst q. exact E.
Qed.

(** What the frame listener does to the promises, timers and listeners. *)
Lemma on_frame_bookkeeping l frame rt :
  (forall q, existsb (Nat.eqb q) (settled (on_frame l frame rt))
             = Nat.eqb q (l_resolve l) || existsb (Nat.eqb q) (settled rt))
  /\ timeouts (on_frame l frame rt)
     = filter (fun t => negb (Nat.eqb (t_id t) (l_timeoutId l))) (timeouts rt)
  /\ frameListeners (on_frame l frame rt) = frameListeners rt.
Proof.
  unfold on_frame. split; [|split].
  - intros q. rewrite is_settled_resolve. simpl.
    destruct (pendingFrame (this rt)); reflexivity.
  - match goal with
    | |- context [resolve ?p ?r] =>
        destruct (resolve_shape p r) as (s & n & r' & m & ->)
    end.
    simpl. destruct (pendingFrame (this rt)); reflexivity.
  - match goal with
    | |- context [resolve ?p ?r] =>
        destruct (resolve_shape p r) as (s & n & r' & m & ->)
    end.
    simpl. destruct (pendingFrame (this rt)); reflexivity.
Qed.

Lemma fold_on_frame_closes frame ls rt :
  pendingFrame (this rt) = Some frame ->
  closedFrames (fold_left (fun r l => on_frame l frame r) ls rt)
  = closedFrames rt ++ repeat frame (List.length ls).
Proof.
  revert rt. induction ls as [|l ls IH]; intros rt P; simpl.
  - rewrite app_nil_r. reflexivity.
  - destruct (on_frame_effect l frame rt) as (P1 & C1 & _).
    rewrite (IH _ P1), C1. unfold slot. rewrite P.
    rewrite <- app_assoc. reflexivity.
Qed.

Lemma fold_on_frame_bookkeeping frame ls rt :
  (forall q,
     existsb (Nat.eqb q)
       (settled (fold_left (fun r l => on_frame l frame r) ls rt))
     = existsb (fun l => Nat.eqb q (l_resolve l)) ls
       || existsb (Nat.eqb q) (settled rt))
  /\ timeouts (fold_left (fun r l => on_frame l frame r) ls rt)
     = filter (fun t =>
                 negb (existsb (fun l => Nat.eqb (t_id t) (l_timeoutId l)) ls))
         (timeouts rt)
  /\ frameListeners (fold_left (fun r l => on_frame l frame r) ls rt)
     = frameListeners rt.
Proof.
  revert rt. induction ls as [|l ls IH]; intros rt; simpl.
  - split; [reflexivity|]. split; [|reflexivity].
    induction (timeouts rt) as [|t ts IHt]; simpl; [reflexivity|].
    rewrite <- IHt. reflexivity.
  - destruct (IH (on_frame l frame rt)) as (S1 & T1 & L1).
    destruct (on_frame_bookkeeping l frame rt) as (S2 & T2 & L2).
    split; [|split].
    + intros q. rewrite S1, S2.
      destruct (Nat.eqb q (l_resolve l)); simpl;
        [rewrite !orb_true_r|]; reflexivity.
    + rewrite T1, T2. clear.
      induction (timeouts rt) as [|t ts IHt]; simpl; [reflexivity|].
      destruct (Nat.eqb (t_id t) (l_timeoutId l)); simpl.
      * exact IHt.
      * rewrite IHt. reflexivity.
    + rewrite L1, L2. reflexivity.
Qed.

(** One frame from the decoder goes to every listener registered at that
    moment: all of them are removed, the promise of each is settled and
    the timer of each is cleared, whichever submission the frame belongs
    to. Each listener after the first closes the frame the one before has
    just stored: with [n] listeners the slot ends up holding the new frame
    and the object has closed that very frame [n - 1] times. *)
Theorem frame_goes_to_every_listener frame rt l ls :
  frameListeners rt = l :: ls ->
  let rt' := emit_frame frame rt in
  frameListeners rt' = []
  /\ pendingFrame (this rt') = Some frame
  /\ closedFrames rt'
     = closedFrames rt ++ slot rt ++ repeat frame (List.length ls)
  /\ (forall l', In l' (l :: ls) ->
        existsb (Nat.eqb (l_resolve l')) (settled rt') = true
        /\ forall t, In t (timeouts rt') -> t_id t <> l_timeoutId l').
Proof.
  intros E rt'. unfold rt', emit_frame. rewrite E. simpl fold_left.
  set (rt0 := set_frameListeners [] rt).
  destruct (on_frame_effect l frame rt0) as (P1 & C1 & _).
  destruct (fold_on_frame_bookkeeping frame (l :: ls) rt0) as (S & T & L).
  simpl fold_left in S, T, L.
  split; [exact L|].
  split; [exact (proj1 (@fold_on_frame_keeps frame ls _ P1))|].
  split.
  - rewrite (fold_on_frame_closes ls _ P1), C1, <- app_assoc. reflexivity.
  - intros l' I. split.
    + rewrite S. apply orb_true_iff. left.
      apply existsb_exists. exists l'. split; [exact I|].
      apply Nat.eqb_refl.
    + intros t It Eq. rewrite T in It. apply filter_In in It.
      destruct It as [_ It]. apply negb_true_iff in It.
      assert (existsb (fun l0 => Nat.eqb (t_id t) (l_timeoutId l0)) (l :: ls)
              = true) as X.
      { apply existsb_exists. exists l'. split; [exact I|].
        apply Nat.eqb_eq. exact Eq. }
      rewrite X in It. discriminate.
Qed.

End EveryListener.

(** Two submissions have timed out; the frame that comes then goes to both
    listeners. *)
Lemma frame_goes_to_every_listener_witness :
  let U := Reference.utils in
  let P := Reference.platform in
  match run (utils := U) (platform := P)
          [call_decode Reference.key_chunk 0; timeout_fires 0; microtask;
           call_decode Reference.delta_chunk 40; timeout_fires 1; microtask]
          constructor with
  | Some rt =>
      List.length (frameListeners rt) = 2%nat
      /\ pendingFrame (this (emit_frame 7%nat rt)) = Some 7%nat
      /\ closedFrames (emit_frame 7%nat rt) = closedFrames rt ++ slot rt ++ [7%nat]
  | None => False
  end.
Proof.
  intros U P.
  destruct (run (utils := U) (platform := P) _ constructor) as [rt|] eqn:E;
    [|vm_compute in E; discriminate].
  observe (fun r => List.length (frameListeners r)) E X.
  destruct (frameListeners rt) as [|l [|l2 [|l3 ls]]] eqn:L;
    try discriminate X.
  destruct (frame_goes_to_every_listener 7%nat rt L) as (_ & A & B & _).
  split; [reflexivity|]. split; [exact A|exact B].
Defined.

(** ** Further properties: single calls of [decode] *)

Section Calls.

Context {utils : H264Utils} {platform : VideoDecoderPlatform}.

Lemma set_naluStreamInfo_same o :
  naluStreamInfo o = None -> set_naluStreamInfo None o = o.
Proof. destruct o; simpl; intros ->; reflexivity. Qed.

(** A chunk whose format [NALUStream] cannot tell, given to an object that
    has no stream information yet, is dropped: the call returns [undefined]
    at once and emits three errors, one from each of
    [_identifyNaluStreamInfo], [_getAnnexBFrame] and [decode]. The object
    is left as it was after the test for a closed decoder, so the next
    chunk is examined afresh. *)
Theorem unidentified_chunk_is_dropped rt data ts :
  decoding (this rt) = None ->
  naluStreamInfo (this rt) = None ->
  match NALUStream_strict data with
  | Ok (Some packet, Some _) | Ok (Some annexB, Some _) => False
  | _ => True
  end ->
  let rt1 := replace_closed_decoder rt in
  let rt' := decode data ts rt in
  this rt' = this rt1
  /\ outcomes rt' = outcomes rt ++ [(nextCall rt, returned None)]
  /\ decodeCalls rt' = decodeCalls rt
  /\ emitted rt'
     = emitted rt1
         ++ [match NALUStream_strict data with
             | Thrown => error_unable_identify_because
             | _ => error_unable_identify
             end;
             error_unable_identify; error_convert (byteLength data)].
Proof.
  intros Hd Hi Hn rt1 rt'.
  pose proof (same_core_replace_closed_decoder rt) as S1. fold rt1 in S1.
  assert (naluStreamInfo (this rt1) = None) as Hi1.
  { unfold rt1. rewrite naluStreamInfo_replace_closed_decoder. exact Hi. }
  set (rta := set_counters (nextDecoder rt) (S (nextCall rt)) rt).
  set (rtb := replace_closed_decoder rta).
  assert (this rtb = this rt1 /\ emitted rtb = emitted rt1
          /\ outcomes rtb = outcomes rt /\ decodeCalls rtb = decodeCalls rt)
    as (Tb & Eb & Ob & Db).
  { unfold rtb, rt1, rta, replace_closed_decoder. simpl.
    destruct (state (decoder (this rt))); repeat split. }
  assert (naluStreamInfo (this rtb) = None) as Hib by (rewrite Tb; exact Hi1).
  assert (rt' = decode_body (nextCall rt) data ts rta) as E'.
  { unfold rt', decode. simpl. rewrite Hd. reflexivity. }
  rewrite E'. unfold decode_body. fold rtb.
  unfold _getAnnexBFrame, _getNaluStreamInfo, _identifyNaluStreamInfo.
  rewrite Hib.
  destruct (NALUStream_strict data) as [[[[]|] [box|]]|]; try contradiction;
    simpl; rewrite (set_naluStreamInfo_same _ Hib), Tb, Eb, Ob, Db;
    (split; [|split; [|split]]); rewrite <- ?app_assoc; reflexivity.
Qed.

Lemma submit_refused call data ts ty a rt :
  decode_accepts (decoder (this rt))
    {| chunk_type := ty; chunk_data := a;
       chunk_timestamp := timestamp (this rt) |} = false ->
  exists s n r m,
    submit call data ts ty a rt
    = set_promises s n r m
        (upd (set_decoding (Some (nextPromise rt)))
           (emit (error_failed_decode (byteLength data) ts)
              (log_decodeCall
                 {| dc_decoder := decoder (this rt);
                    dc_chunk := {| chunk_type := ty; chunk_data := a;
                                   chunk_timestamp := timestamp (this rt) |};
                    dc_accepted := false |}
                 (upd (set_timestamp (timestamp (this rt) + 1))
                    (set_frameListeners
                       (frameListeners rt
                          ++ [{| l_byteLength := byteLength data;
                                 l_type := ty; l_timestampMicros := ts;
                                 l_timeoutId := nextPromise rt;
                                 l_resolve := nextPromise rt |}])
                       (set_timeouts
                          (timeouts rt
                             ++ [{| t_id := nextPromise rt;
                                    t_byteLength := byteLength data;
                                    t_timestampMicros := ts;
                                    t_resolve := nextPromise rt |}])
                          rt))))))
    /\ In (finish_decode call) (map snd r ++ m).
Proof.
  intros Hr. unfold submit. simpl. rewrite Hr.
  unfold await. simpl. destruct (existsb _ _).
  - do 4 eexists. split; [reflexivity|].
    apply in_or_app. right. apply in_or_app. right. left. reflexivity.
  - do 4 eexists. split; [reflexivity|].
    apply in_or_app. left. rewrite map_app. apply in_or_app. right.
    left. reflexivity.
Qed.

(** A chunk on which [this.#decoder.decode] throws does not fail the call:
    the error is emitted, the timestamp is used up all the same, and the
    call waits like any other, with its timer armed and its listener
    registered, for the timeout or for a frame of another submission. *)
Theorem refused_chunk_waits rt data ts i ty a :
  decoding (this rt) = None ->
  hasKeyframe (this rt) = true ->
  state (decoder (this rt)) = configured ->
  naluStreamInfo (this rt) = Some i ->
  fst (_getAnnexBFrame data rt) = Ok (Some a) ->
  isKeyFrame a = Ok (match ty with key => true | delta => false end) ->
  decode_accepts (decoder (this rt))
    {| chunk_type := ty; chunk_data := a;
       chunk_timestamp := timestamp (this rt) |} = false ->
  let rt' := decode data ts rt in
  let p := nextPromise rt in
  outcomes rt' = outcomes rt
  /\ emitted rt' = emitted rt ++ [error_failed_decode (byteLength data) ts]
  /\ timestamp (this rt') = timestamp (this rt) + 1
  /\ decoding (this rt') = Some p
  /\ timeouts rt'
     = timeouts rt ++ [{| t_id := p; t_byteLength := byteLength data;
                          t_timestampMicros := ts; t_resolve := p |}]
  /\ frameListeners rt'
     = frameListeners rt
         ++ [{| l_byteLength := byteLength data; l_type := ty;
                l_timestampMicros := ts; l_timeoutId := p;
                l_resolve := p |}]
  /\ In (finish_decode (nextCall rt))
       (map snd (reactions rt') ++ microtasks rt').
Proof.
  intros Hd H C Hi Ea Ka Hr rt' p.
  set (rta := set_counters (nextDecoder rt) (S (nextCall rt)) rt).
  assert (rt' = decode_body (nextCall rt) data ts rta) as E'.
  { unfold rt', decode. simpl. rewrite Hd. reflexivity. }
  assert (_getAnnexBFrame data rta = (Ok (Some a), rta)) as Ga.
  { revert Ea. unfold _getAnnexBFrame, _getNaluStreamInfo. simpl.
    rewrite Hi. destruct (type i); simpl; try discriminate.
    - destruct (convertToAnnexB data (boxSize i)); simpl; congruence.
    - congruence. }
  assert (fst (_getAnnexBFrame data rta) = Ok (Some a)) as Ea'
    by (rewrite Ga; reflexivity).
  rewrite E', (decode_body_configured (nextCall rt) data ts rta C Ea'), Ga.
  simpl snd. unfold gate_and_submit. rewrite Ka.
  change (hasKeyframe (this rta)) with (hasKeyframe (this rt)). rewrite H.
  assert ((if match ty with key => true | delta => false end
           then key else delta) = ty) as Ety by (destruct ty; reflexivity).
  rewrite Ety.
  destruct (submit_refused (nextCall rt) data ts ty a rta Hr)
    as (s & n & r & m & -> & Ik).
  split; [|split; [|split; [|split; [|split; [|split]]]]];
    try reflexivity.
  exact Ik.
Qed.

(** [close] leaves [#hasKeyframe] alone, so it does not close the keyframe
    test for the stream that comes next: when a key chunk had passed before
    [close], the first chunk afterwards that brings a parameter set the
    platform accepts is handed to the new decoder even if it has no IDR
    unit, as a delta chunk. *)
Theorem close_leaves_the_gate_open rt data ts a nalu sps :
  decoding (this rt) = None ->
  hasKeyframe (this rt) = true ->
  fst (_getAnnexBFrame data (close rt)) = Ok (Some a) ->
  isKeyFrame a = Ok false ->
  first_SPS_unit (nalus a) = Ok (Some nalu) ->
  SPS nalu = Ok sps ->
  configure_accepts (config_of_SPS sps) = true ->
  exists dc,
    decodeCalls (decode data ts (close rt)) = decodeCalls rt ++ [dc]
    /\ dc_decoder dc = {| state := configured; instance := nextDecoder rt |}
    /\ chunk_type (dc_chunk dc) = delta
    /\ chunk_data (dc_chunk dc) = a.
Proof.
  intros Hd H Ea Ka Fs Sp Ac.
  unfold decode. change (decoding (this _)) with (decoding (this rt)).
  rewrite Hd.
  set (rta := set_counters (nextDecoder (close rt)) (S (nextCall (close rt)))
                (close rt)).
  unfold decode_body.
  set (rt1 := replace_closed_decoder rta).
  assert (rt1 = upd (set_decoder {| state := unconfigured;
                                    instance := nextDecoder rt |})
                  (set_counters (S (nextDecoder rt)) (S (nextCall rt))
                     (emit warn_closed rta))) as E1 by reflexivity.
  assert (fst (_getAnnexBFrame data rt1) = Ok (Some a)) as Ea1.
  { rewrite <- Ea. apply fst__getAnnexBFrame_info. reflexivity. }
  pose proof (same_core__getAnnexBFrame data rt1) as S.
  destruct (decoder__getAnnexBFrame data rt1) as [Dd Dc].
  destruct (_getAnnexBFrame data rt1) as [r rt2]. simpl in *. subst r.
  assert (decoder (this rt2)
          = {| state := unconfigured; instance := nextDecoder rt |}) as D2
    by (rewrite Dd; reflexivity).
  assert (videoDecoderConfig (this rt2) = None) as C2
    by (rewrite Dc; reflexivity).
  unfold configure_if_needed, _getDecoderConfig. rewrite D2, C2. simpl.
  rewrite scan_for_SPS_first, Fs, Sp, Ac. simpl.
  unfold gate_and_submit. rewrite Ka. simpl.
  assert (hasKeyframe (this rt1) = true) as H1 by exact H.
  assert (decodeCalls rt1 = decodeCalls rt) as Dc1 by reflexivity.
  rewrite (sc_hasKeyframe S), H1.
  rewrite submit_decodeCalls. simpl. rewrite (sc_decodeCalls S), Dc1, D2.
  simpl.
  eexists. split; [reflexivity|]. split; [reflexivity|].
  split; reflexivity.
Qed.

End Calls.

Lemma unidentified_chunk_is_dropped_witness :
  let U := Reference.utils in
  let P := Reference.platform in
  outcomes (decode (utils := U) (platform := P) Reference.garbage_chunk 3
              constructor)
  = [(0%nat, returned None)].
Proof.
  intros U P.
  refine (proj1 (proj2 (unidentified_chunk_is_dropped (utils := U)
                          (platform := P) constructor Reference.garbage_chunk
                          3 eq_refl eq_refl _))).
  vm_compute. exact I.
Defined.

Lemma refused_chunk_waits_witness :
  let U := Reference.utils in
  let P := Reference.key_only_platform in
  match run (utils := U) (platform := P)
          [call_decode Reference.key_chunk 0; decoder_output 7%nat; microtask]
          constructor with
  | Some rt =>
      outcomes (decode (utils := U) (platform := P) Reference.delta_chunk 40
                  rt) = outcomes rt
      /\ timestamp (this (decode (utils := U) (platform := P)
                            Reference.delta_chunk 40 rt))
         = timestamp (this rt) + 1
  | None => False
  end.
Proof.
  intros U P.
  destruct (run (utils := U) (platform := P) _ constructor) as [rt|] eqn:E;
    [|vm_compute in E; discriminate].
  observe (fun r => decoding (this r)) E Hd.
  observe (fun r => hasKeyframe (this r)) E H.
  observe (fun r => state (decoder (this r))) E C.
  observe (fun r => naluStreamInfo (this r)) E Hi.
  observe (fun r => timestamp (this r)) E Ht.
  observe (fun r => instance (decoder (this r))) E Hn.
  symmetry in Hd, H, C, Hi.
  assert (fst (_getAnnexBFrame (utils := U) Reference.delta_chunk rt)
          = Ok (Some Reference.delta_chunk)) as Ea.
  { unfold _getAnnexBFrame, _getNaluStreamInfo. rewrite Hi. reflexivity. }
  assert (isKeyFrame (utils := U) Reference.delta_chunk = Ok false) as Ka
    by (vm_compute; reflexivity).
  assert (decode_accepts (VideoDecoderPlatform := P) (decoder (this rt))
            {| chunk_type := delta; chunk_data := Reference.delta_chunk;
               chunk_timestamp := timestamp (this rt) |} = false) as Hr.
  { simpl. rewrite C. reflexivity. }
  destruct (@refused_chunk_waits U P rt Reference.delta_chunk 40 _ delta
              Reference.delta_chunk Hd H C Hi Ea Ka Hr) as (A & _ & B & _).
  split; [exact A|exact B].
Defined.

Lemma close_leaves_the_gate_open_witness :
  let U := Reference.utils in
  let P := Reference.platform in
  match run (utils := U) (platform := P)
          [call_decode Reference.key_chunk 0; decoder_output 7%nat; microtask]
          constructor with
  | Some rt =>
      exists dc,
        decodeCalls (decode (utils := U) (platform := P)
                       Reference.delta_chunk_with_sps 40 (close rt))
        = decodeCalls rt ++ [dc]
        /\ chunk_type (dc_chunk dc) = delta
  | None => False
  end.
Proof.
  intros U P.
  destruct (run (utils := U) (platform := P) _ constructor) as [rt|] eqn:E;
    [|vm_compute in E; discriminate].
  observe (fun r => decoding (this r)) E Hd.
  observe (fun r => hasKeyframe (this r)) E H.
  symmetry in Hd, H.
  assert (fst (_getAnnexBFrame (utils := U) Reference.delta_chunk_with_sps
                 (close rt))
          = Ok (Some Reference.delta_chunk_with_sps)) as Ea
    by (vm_compute; reflexivity).
  assert (isKeyFrame (utils := U) Reference.delta_chunk_with_sps = Ok false)
    as Ka by (vm_compute; reflexivity).
  assert (first_SPS_unit (nalus (H264Utils := U)
                            Reference.delta_chunk_with_sps)
          = Ok (Some Reference.sps_unit)) as Fs by (vm_compute; reflexivity).
  assert (SPS (H264Utils := U) Reference.sps_unit
          = Ok ("avc1.42001e"%string, 240, 320)) as Sp
    by (vm_compute; reflexivity).
  destruct (@close_leaves_the_gate_open U P rt Reference.delta_chunk_with_sps
              40 _ _ _ Hd H Ea Ka Fs Sp eq_refl) as (dc & A & _ & B & _).
  exists dc. split; [exact A|exact B].
Defined.

(** ** Further properties: no call is left hanging *)

Section WellFormed.

Context {utils : H264Utils} {platform : VideoDecoderPlatform}.

Lemma well_formed_promise_state rt rt' :
  promise_state rt' = promise_state rt -> well_formed rt -> well_formed rt'.
Proof.
  unfold promise_state. intros E [A B C D F G].
  inversion E as [[E1 E2 E3 E4 E5 E6]].
  constructor; rewrite ?E1, ?E2, ?E3, ?E4, ?E5, ?E6; assumption.
Qed.

Lemma promise_state_same_core rt rt' :
  same_core rt rt' -> promise_state rt' = promise_state rt.
Proof.
  intros S. unfold promise_state.
  rewrite (sc_settled S), (sc_nextPromise S), (sc_reactions S),
    (sc_timeouts S), (sc_frameListeners S), (sc_decoding S). reflexivity.
Qed.

Lemma well_formed_same_core rt rt' :
  same_core rt rt' -> well_formed rt -> well_formed rt'.
Proof.
  intros S. apply well_formed_promise_state, promise_state_same_core, S.
Qed.

Lemma not_settled p rt :
  existsb (Nat.eqb p) (settled rt) = false <-> ~ In p (settled rt).
Proof.
  split.
  - intros E I.
    assert (existsb (Nat.eqb p) (settled rt) = true) as X.
    { apply existsb_exists. exists p. split; [exact I|apply Nat.eqb_refl]. }
    congruence.
  - intros N. destruct (existsb (Nat.eqb p) (settled rt)) eqn:E; [|reflexivity].
    apply existsb_exists in E. destruct E as (q & I & Q).
    apply Nat.eqb_eq in Q. subst q. contradiction.
Qed.

Lemma fresh_not_settled rt :
  well_formed rt -> existsb (Nat.eqb (nextPromise rt)) (settled rt) = false.
Proof.
  intros W. apply not_settled. intros I.
  apply (wf_settled W) in I. lia.
Qed.

(** A submission makes a promise, arms its timer, registers its listener
    and leaves the call waiting for the promise. *)
Lemma submit_promises call data ts ty a rt :
  well_formed rt ->
  let p := nextPromise rt in
  promise_state (submit call data ts ty a rt)
  = (settled rt, S p, reactions rt ++ [(p, finish_decode call)],
     timeouts rt ++ [{| t_id := p; t_byteLength := byteLength data;
                        t_timestampMicros := ts; t_resolve := p |}],
     frameListeners rt
       ++ [{| l_byteLength := byteLength data; l_type := ty;
              l_timestampMicros := ts; l_timeoutId := p; l_resolve := p |}],
     Some p)
  /\ microtasks (submit call data ts ty a rt) = microtasks rt
  /\ nextCall (submit call data ts ty a rt) = nextCall rt.
Proof.
  intros W p. subst p. pose proof (fresh_not_settled W) as F.
  unfold submit, await, promise_state.
  destruct (decode_accepts _ _); simpl; rewrite F;
    (split; [reflexivity|split; reflexivity]).
Qed.

Lemma well_formed_submit call data ts ty a rt :
  well_formed rt -> well_formed (submit call data ts ty a rt).
Proof.
  intros W. destruct (submit_promises call data ts ty a W) as (E & _).
  unfold promise_state in E. inversion E as [[E1 E2 E3 E4 E5 E6]].
  clear E. destruct W as [A B C D F G].
  constructor; rewrite ?E1, ?E2, ?E3, ?E4, ?E5, ?E6.
  - intros p I. apply A in I. lia.
  - intros t I. apply in_app_or in I. destruct I as [I|[<-|[]]].
    + destruct (B t I) as (X & Y & Z).
      split; [exact X|]. split; [lia|exact Z].
    + simpl. repeat split; [lia|]. intros I. apply A in I. lia.
  - intros p k I. apply in_app_or in I. destruct I as [I|[X|[]]].
    + destruct (C p k I). split; [lia|assumption].
    + inversion X; subst. split; [lia|]. intros I. apply A in I. lia.
  - intros p X. inversion X; subst. lia.
  - intros p L.
    destruct (Nat.eq_dec p (nextPromise rt)) as [->|N].
    + right. eexists. split; [apply in_or_app; right; left; reflexivity|].
      reflexivity.
    + destruct (F p) as [I|(t & I & X)]; [lia|left; exact I|].
      right. exists t. split; [apply in_or_app; left; exact I|exact X].
  - intros l I. apply in_app_or in I. destruct I as [I|[<-|[]]].
    + destruct (G l I). split; [assumption|lia].
    + simpl. split; [reflexivity|lia].
Qed.

Lemma well_formed_settle call o rt :
  well_formed rt -> well_formed (settle call o rt).
Proof. apply well_formed_promise_state. reflexivity. Qed.

Lemma well_formed_gate_and_submit call data ts a rt :
  well_formed rt -> well_formed (gate_and_submit call data ts a rt).
Proof.
  intros W. unfold gate_and_submit.
  destruct (isKeyFrame a) as [[]|]; [| |apply well_formed_settle; exact W];
    destruct (hasKeyframe (this rt));
    try (apply well_formed_submit; try exact W;
         revert W; apply well_formed_promise_state; reflexivity).
  apply well_formed_settle. revert W.
  apply well_formed_promise_state. reflexivity.
Qed.

Lemma well_formed_decode_body call data ts rt :
  well_formed rt -> well_formed (decode_body call data ts rt).
Proof.
  intros W.
  destruct (decode_body_cases call data ts rt)
    as (rt0 & S & _ & [(o & -> & _) | (a & _ & _ & ->)]).
  - apply well_formed_settle. exact (well_formed_same_core S W).
  - apply well_formed_gate_and_submit. exact (well_formed_same_core S W).
Qed.

Lemma well_formed_clear_resolve p rt :
  well_formed rt -> (p < nextPromise rt)%nat ->
  well_formed (resolve p (clearTimeout p rt)).
Proof.
  intros [A B C D F G] L.
  assert (forall t, In t (filter (fun t => negb (Nat.eqb (t_id t) p))
                            (timeouts rt)) ->
                    In t (timeouts rt) /\ t_id t <> p) as Ft.
  { intros t I. apply filter_In in I. destruct I as [I N]. split; [exact I|].
    apply negb_true_iff, Nat.eqb_neq in N. exact N. }
  assert (forall t, In t (timeouts rt) -> t_id t <> p ->
                    In t (filter (fun t => negb (Nat.eqb (t_id t) p))
                            (timeouts rt))) as Tf.
  { intros t I N. apply filter_In. split; [exact I|].
    apply negb_true_iff, Nat.eqb_neq. exact N. }
  unfold resolve. simpl.
  destruct (existsb (Nat.eqb p) (settled rt)) eqn:E.
  - apply existsb_exists in E. destruct E as (q & I & Q).
    apply Nat.eqb_eq in Q. subst q.
    constructor; simpl; auto.
    + intros t It. apply Ft in It. apply B. tauto.
    + intros q Lq. destruct (F q Lq) as [X|(t & It & X)]; [auto|].
      destruct (Nat.eq_dec q p) as [->|N]; [auto|].
      right. exists t. split; [apply Tf; congruence|exact X].
  - constructor; simpl.
    + intros q [<-|I]; auto.
    + intros t It. apply Ft in It. destruct It as [It N].
      destruct (B t It) as (X & Y & Z). split; [exact X|]. split; [exact Y|].
      intros [W|W]; [congruence|contradiction].
    + intros q k I. apply filter_In in I. destruct I as [I N]. simpl in N.
      apply negb_true_iff, Nat.eqb_neq in N.
      destruct (C q k I) as (X & Y). split; [exact X|].
      intros [W|W]; [congruence|contradiction].
    + exact D.
    + intros q Lq. destruct (Nat.eq_dec q p) as [->|N]; [auto|].
      destruct (F q Lq) as [X|(t & It & X)]; [auto|].
      right. exists t. split; [apply Tf; congruence|exact X].
    + exact G.
Qed.

Lemma promise_state_on_frame l frame rt :
  promise_state (on_frame l frame rt)
  = promise_state (resolve (l_resolve l) (clearTimeout (l_timeoutId l) rt)).
Proof.
  unfold on_frame, resolve, promise_state. simpl.
  destruct (pendingFrame (this rt)); simpl;
    destruct (existsb _ _); reflexivity.
Qed.

Lemma well_formed_on_frame l frame rt :
  l_timeoutId l = l_resolve l -> (l_resolve l < nextPromise rt)%nat ->
  well_formed rt -> well_formed (on_frame l frame rt).
Proof.
  intros E L W.
  apply (well_formed_promise_state (promise_state_on_frame l frame rt)).
  rewrite E. apply well_formed_clear_resolve; assumption.
Qed.

Lemma nextPromise_on_frame l frame rt :
  nextPromise (on_frame l frame rt) = nextPromise rt.
Proof.
  unfold on_frame, resolve. simpl.
  destruct (pendingFrame (this rt)); simpl;
    destruct (existsb _ _); reflexivity.
Qed.

Lemma well_formed_fold_on_frame frame ls rt :
  (forall l, In l ls ->
     l_timeoutId l = l_resolve l /\ (l_resolve l < nextPromise rt)%nat) ->
  well_formed rt ->
  well_formed (fold_left (fun r l => on_frame l frame r) ls rt).
Proof.
  revert rt. induction ls as [|l ls IH]; intros rt H W; simpl; [exact W|].
  apply IH.
  - intros l' I. rewrite nextPromise_on_frame. apply H. right. exact I.
  - destruct (H l (or_introl eq_refl)) as [E L].
    apply well_formed_on_frame; assumption.
Qed.

Lemma well_formed_step e rt rt' :
  step e rt = Some rt' -> well_formed rt -> well_formed rt'.
Proof.
  intros St W. destruct e; simpl in St.
  - inversion St; subst; clear St. unfold decode.
    destruct (decoding (this _)) as [p|] eqn:Hd; simpl in Hd.
    + unfold await. simpl.
      destruct (existsb (Nat.eqb p) (settled rt)) eqn:E.
      * revert W. apply well_formed_promise_state. reflexivity.
      * destruct W as [A B C D F G].
        constructor; simpl; auto.
        intros q k I. apply in_app_or in I. destruct I as [I|[X|[]]].
        -- apply (C q k I).
        -- inversion X; subst. split; [apply D; exact Hd|].
           apply not_settled. exact E.
    + apply well_formed_decode_body. revert W.
      apply well_formed_promise_state. reflexivity.
  - inversion St; subst. revert W.
    apply well_formed_promise_state. reflexivity.
  - inversion St; subst. revert W.
    apply well_formed_promise_state. reflexivity.
  - destruct (microtasks rt) as [|[call data ts|call] rest];
      inversion St; subst.
    + apply well_formed_decode_body. revert W.
      apply well_formed_promise_state. reflexivity.
    + destruct W as [A B C D F G].
      constructor; simpl; auto. discriminate.
  - destruct (find _ (timeouts rt)) as [t|] eqn:Ft; inversion St; subst.
    apply find_some in Ft. destruct Ft as [It Et].
    apply Nat.eqb_eq in Et.
    destruct (wf_timeouts W t It) as (X & Y & _).
    assert (promise_state (on_timeout t (clearTimeout id rt))
            = promise_state (resolve id (clearTimeout id rt))) as E.
    { unfold on_timeout, resolve, promise_state. rewrite X, Et. simpl.
      destruct (existsb _ _); reflexivity. }
    apply (well_formed_promise_state E).
    apply well_formed_clear_resolve; [exact W|lia].
  - inversion St; subst. unfold emit_frame.
    apply well_formed_fold_on_frame.
    + intros l I. apply (wf_listeners W l I).
    + destruct W as [A B C D F G]. constructor; simpl; auto.
      intros l [].
  - inversion St; subst. revert W.
    apply well_formed_promise_state. reflexivity.
Qed.

Lemma well_formed_reachable rt : reachable rt -> well_formed rt.
Proof.
  induction 1 as [|e rt rt' R IH St].
  - constructor; simpl; try tauto; try discriminate; intros; lia.
  - exact (well_formed_step e St IH).
Qed.

(** The timer of a submission is armed exactly as long as its promise is
    pending: [decode] arms it with the promise, the frame listener clears
    it before resolving, and firing resolves. So a timer can fire, and the
    "Timed out" warning be emitted, only for a promise that is pending, and
    for each pending promise it can. *)
Theorem timer_armed_while_pending rt :
  reachable rt ->
  (forall p, In p (in_flight rt)
             <-> exists t, In t (timeouts rt) /\ t_id t = p)
  /\ (forall p, In p (in_flight rt)
                <-> exists rt', step (timeout_fires p) rt = Some rt').
Proof.
  intros R. pose proof (well_formed_reachable R) as W.
  assert (forall p, In p (in_flight rt)
                    <-> exists t, In t (timeouts rt) /\ t_id t = p) as A.
  { intros p. unfold in_flight. rewrite filter_In, in_seq. split.
    - intros [L N]. apply negb_true_iff, not_settled in N.
      destruct (@wf_timer rt W p) as [X|X]; [lia|contradiction|exact X].
    - intros (t & I & <-). destruct (@wf_timeouts rt W t I) as (_ & L & N).
      split; [lia|]. apply negb_true_iff, not_settled. exact N. }
  split; [exact A|]. intros p. rewrite A. simpl. split.
  - intros (t & I & E).
    destruct (find (fun t => Nat.eqb (t_id t) p) (timeouts rt)) as [t'|] eqn:F.
    + eexists. reflexivity.
    + exfalso. pose proof (find_none _ _ F t I) as X. simpl in X.
      rewrite E, Nat.eqb_refl in X. discriminate.
  - intros (rt' & St).
    destruct (find (fun t => Nat.eqb (t_id t) p) (timeouts rt)) as [t'|] eqn:F;
      [|discriminate].
    apply find_some in F. destruct F as [I E]. apply Nat.eqb_eq in E.
    exists t'. split; assumption.
Qed.

End WellFormed.

(** A key chunk submitted: its timer is armed; after the frame it is not. *)
Lemma timer_armed_while_pending_witness :
  let U := Reference.utils in
  let P := Reference.platform in
  match run (utils := U) (platform := P)
          [call_decode Reference.key_chunk 0] constructor with
  | Some rt =>
      in_flight rt = [0%nat]
      /\ (exists rt',
            step (utils := U) (platform := P) (timeout_fires 0) rt = Some rt')
      /\ (forall rt1,
            step (utils := U) (platform := P) (decoder_output 7%nat) rt
            = Some rt1 ->
            forall p rt',
              step (utils := U) (platform := P) (timeout_fires p) rt1
              = Some rt' ->
              In p (in_flight rt1))
  | None => False
  end.
Proof.
  intros U P.
  destruct (run (utils := U) (platform := P) _ constructor) as [rt|] eqn:E;
    [|vm_compute in E; discriminate].
  assert (reachable (utils := U) (platform := P) rt) as R
    by exact (reachable_run _ reachable_constructor E).
  observe (fun r => in_flight r) E X.
  split; [symmetry; exact X|]. split.
  - apply (proj2 (timer_armed_while_pending R)). rewrite <- X. left.
    reflexivity.
  - intros rt1 S1 p rt' S2.
    apply (proj2 (timer_armed_while_pending
                    (@reachable_step U P (decoder_output 7%nat) rt rt1 R S1))).
    exists rt'. exact S2.
Defined.

Section NoHang.

Context {utils : H264Utils} {platform : VideoDecoderPlatform}.

Lemma pending_resolve p rt k :
  In k (pending (resolve p rt)) <-> In k (pending rt).
Proof.
  unfold pending, resolve.
  destruct (existsb _ _); simpl; [tauto|].
  rewrite !in_app_iff, !in_map_iff.
  split.
  - intros [(x & E & I)|[I|(x & E & I)]].
    + apply filter_In in I. left. exists x. tauto.
    + right. exact I.
    + apply filter_In in I. left. exists x. tauto.
  - intros [(x & E & I)|I]; [|right; left; exact I].
    destruct (Nat.eqb (fst x) p) eqn:Q.
    + right. right. exists x. split; [exact E|].
      apply filter_In. split; [exact I|exact Q].
    + left. exists x. split; [exact E|].
      apply filter_In. split; [exact I|]. apply negb_true_iff. exact Q.
Qed.

Lemma pending_await p k rt k' :
  In k' (pending (await p k rt)) <-> k' = k \/ In k' (pending rt).
Proof.
  unfold pending, await.
  destruct (existsb _ _); simpl; rewrite ?map_app, !in_app_iff; simpl;
    intuition congruence.
Qed.

Lemma pending_submit call data ts ty a rt k :
  In k (pending (submit call data ts ty a rt))
  <-> k = finish_decode call \/ In k (pending rt).
Proof.
  unfold submit. rewrite pending_await.
  destruct (decode_accepts _ _); reflexivity.
Qed.

Lemma nextCall_submit call data ts ty a rt :
  nextCall (submit call data ts ty a rt) = nextCall rt.
Proof.
  unfold submit.
  match goal with
  | |- context [await ?p ?k ?r] =>
      destruct (await_shape p k r) as (s & n & r' & m & ->)
  end.
  destruct (decode_accepts _ _); reflexivity.
Qed.

Lemma covered_settle c call o rt :
  covered c (settle call o rt) <-> c = call \/ covered c rt.
Proof.
  unfold covered, pending. simpl. rewrite map_app, in_app_iff. simpl.
  intuition congruence.
Qed.

Lemma covered_same_core c rt rt' :
  same_core rt rt' -> covered c rt -> covered c rt'.
Proof.
  intros S. unfold covered, pending.
  rewrite (sc_outcomes S), (sc_reactions S), (sc_microtasks S). auto.
Qed.

Lemma covered_submit c call data ts ty a rt :
  covered c (submit call data ts ty a rt) <-> c = call \/ covered c rt.
Proof.
  unfold covered. rewrite submit_outcomes, !in_map_iff.
  split.
  - intros [I|(k & E & I)]; [right; left; exact I|].
    apply pending_submit in I. destruct I as [->|I].
    + left. symmetry. exact E.
    + right. right. exists k. tauto.
  - intros [->|[I|(k & E & I)]].
    + right. exists (finish_decode call). split; [reflexivity|].
      apply pending_submit. left. reflexivity.
    + left. exact I.
    + right. exists k. split; [exact E|]. apply pending_submit. tauto.
Qed.

(** The body of [decode] ends with its call settled or waiting, leaves the
    other calls as they are and makes no call. *)
Lemma covered_decode_body c call data ts rt :
  (covered c (decode_body call data ts rt) <-> c = call \/ covered c rt)
  /\ nextCall (decode_body call data ts rt) = nextCall rt.
Proof.
  destruct (decode_body_cases call data ts rt)
    as (rt0 & S & _ & [(o & -> & _) | (a & _ & _ & ->)]).
  - split; [|exact (sc_nextCall S)].
    rewrite covered_settle. unfold covered, pending.
    rewrite (sc_outcomes S), (sc_reactions S), (sc_microtasks S). tauto.
  - assert (forall rt1,
              outcomes rt1 = outcomes rt0 -> reactions rt1 = reactions rt0 ->
              microtasks rt1 = microtasks rt0 ->
              (covered c rt1 <-> covered c rt)) as Eq.
    { intros rt1 E1 E2 E3. unfold covered, pending.
      rewrite E1, E2, E3, (sc_outcomes S), (sc_reactions S),
        (sc_microtasks S).
      tauto. }
    unfold gate_and_submit.
    destruct (isKeyFrame a) as [[]|]; [| |];
      try destruct (hasKeyframe (this rt0));
      rewrite ?covered_submit, ?covered_settle, ?nextCall_submit; simpl;
      (split; [|exact (sc_nextCall S)]);
      apply or_iff_compat_l, Eq; reflexivity.
Qed.

Lemma covered_resolve c p rt :
  (covered c (resolve p rt) <-> covered c rt)
  /\ nextCall (resolve p rt) = nextCall rt.
Proof.
  split.
  - unfold covered. rewrite outcomes_resolve, !in_map_iff.
    split; (intros [I|(k & E & I)]; [left; exact I|right; exists k]);
      (split; [exact E|]); apply pending_resolve in I || apply pending_resolve;
      exact I.
  - unfold resolve. destruct (existsb _ _); reflexivity.
Qed.

Lemma covered_on_frame c l frame rt :
  (covered c (on_frame l frame rt) <-> covered c rt)
  /\ nextCall (on_frame l frame rt) = nextCall rt.
Proof.
  unfold on_frame.
  match goal with
  | |- context [resolve ?p ?r] => destruct (covered_resolve c p r) as [A B]
  end.
  rewrite A, B. destruct (pendingFrame (this (clearTimeout _ _)));
    split; reflexivity.
Qed.

Lemma covered_fold_on_frame c frame ls rt :
  (covered c (fold_left (fun r l => on_frame l frame r) ls rt)
   <-> covered c rt)
  /\ nextCall (fold_left (fun r l => on_frame l frame r) ls rt) = nextCall rt.
Proof.
  revert rt. induction ls as [|l ls IH]; intros rt; simpl; [tauto|].
  destruct (IH (on_frame l frame rt)) as [A B].
  destruct (covered_on_frame c l frame rt) as [A' B'].
  rewrite A, B, A', B'. tauto.
Qed.

Lemma all_covered_step e rt rt' :
  step e rt = Some rt' -> all_covered rt -> all_covered rt'.
Proof.
  unfold all_covered. intros St A. destruct e; simpl in St.
  - inversion St; subst; clear St. unfold decode.
    set (rt1 := set_counters (nextDecoder rt) (S (nextCall rt)) rt).
    assert (forall c, covered c rt1 <-> covered c rt) as E1 by (intros; tauto).
    destruct (decoding (this rt1)) as [p|].
    + intros c L.
      assert (nextCall (await p (resume_decode (nextCall rt) data
                                   timestampMicros) rt1)
              = S (nextCall rt)) as N.
      { unfold await. destruct (existsb _ _); reflexivity. }
      rewrite N in L. unfold covered. rewrite outcomes_await.
      destruct (Nat.eq_dec c (nextCall rt)) as [->|Ne].
      * right. apply in_map_iff. eexists. split; [|apply pending_await; left;
          reflexivity]. reflexivity.
      * destruct (A c) as [I|I]; [lia|left; exact I|].
        right. apply in_map_iff in I. destruct I as (k & E & I).
        apply in_map_iff. exists k. split; [exact E|].
        apply pending_await. right. exact I.
    + intros c L.
      destruct (covered_decode_body c (nextCall rt) data timestampMicros rt1)
        as [Cv N].
      rewrite N in L. simpl in L. apply Cv.
      destruct (Nat.eq_dec c (nextCall rt)) as [->|Ne]; [auto|].
      right. apply E1, A. lia.
  - inversion St; subst. exact A.
  - inversion St; subst. exact A.
  - destruct (microtasks rt) as [|k rest] eqn:M; inversion St; subst.
    set (rt1 := set_promises (settled rt) (nextPromise rt) (reactions rt) rest
                  rt).
    assert (forall c, covered c rt -> c = call_of k \/ covered c rt1) as P.
    { intros c [I|I]; [right; left; exact I|].
      unfold pending in I. rewrite M, map_app in I. simpl in I.
      apply in_app_or in I. destruct I as [I|[I|I]].
      - right. right. unfold pending. rewrite map_app.
        apply in_or_app. left. exact I.
      - left. symmetry. exact I.
      - right. right. unfold pending. rewrite map_app.
        apply in_or_app. right. exact I. }
    destruct k as [call data ts|call]; simpl.
    + intros c L.
      destruct (covered_decode_body c call data ts rt1) as [Cv N].
      rewrite N in L. apply Cv. apply P, A. exact L.
    + intros c L. unfold decode_finish.
      apply covered_settle. simpl in L.
      destruct (P c (A c L)) as [->|I]; [left; reflexivity|].
      right. exact I.
  - destruct (find _ (timeouts rt)) as [t|]; inversion St; subst.
    intros c. unfold on_timeout.
    match goal with
    | |- context [resolve ?p ?r] => destruct (covered_resolve c p r) as [Cv N]
    end.
    rewrite N. intros L. apply Cv. apply (A c L).
  - inversion St; subst. intros c. unfold emit_frame.
    destruct (covered_fold_on_frame c frame (frameListeners rt)
                (set_frameListeners [] rt)) as [Cv N].
    rewrite N. intros L. apply Cv. apply (A c L).
  - inversion St; subst. exact A.
Qed.

Lemma all_covered_reachable rt : reachable rt -> all_covered rt.
Proof.
  induction 1 as [|e rt rt' R IH St].
  - intros c L. simpl in L. lia.
  - exact (all_covered_step e St IH).
Qed.

(** No call of [decode] is left hanging. In every state the object can
    reach, each call made so far has settled, or its continuation is queued
    as a microtask, or it waits for a promise whose timer is armed; and when
    that timer fires, the continuation is queued. *)
Theorem no_call_is_left_hanging rt c :
  reachable rt ->
  (c < nextCall rt)%nat ->
  (exists o, In (c, o) (outcomes rt))
  \/ (exists k, call_of k = c /\ In k (microtasks rt))
  \/ (exists k p rt',
        call_of k = c /\ In (p, k) (reactions rt)
        /\ step (timeout_fires p) rt = Some rt'
        /\ In k (microtasks rt')).
Proof.
  intros R L.
  pose proof (well_formed_reachable R) as W.
  pose proof (all_covered_reachable R) as A. unfold all_covered in A.
  destruct (A c L) as [I|I].
  - left. apply in_map_iff in I. destruct I as ([c' o] & E & I).
    simpl in E. subst c'. eauto.
  - apply in_map_iff in I. destruct I as (k & E & I).
    unfold pending in I. apply in_app_or in I. destruct I as [I|I].
    + right. right. apply in_map_iff in I. destruct I as ([p k'] & E' & I).
      simpl in E'. subst k'.
      destruct (wf_reactions W p k I) as (Lp & Ns).
      destruct (wf_timer W Lp) as [X|(t & It & Et)]; [contradiction|].
      destruct (find (fun t' => Nat.eqb (t_id t') p) (timeouts rt))
        as [t'|] eqn:F.
      * pose proof (find_some _ _ F) as [It' Et'].
        apply Nat.eqb_eq in Et'.
        destruct (wf_timeouts W t' It') as (Rt' & _ & _).
        assert (t_resolve t' = p) as Rp by congruence.
        assert (existsb (Nat.eqb (t_resolve t')) (settled rt) = false) as Hs.
        { rewrite Rp. apply not_settled. exact Ns. }
        exists k, p. eexists. split; [exact E|]. split; [exact I|].
        split; [exact (step_timeout_pending rt p F Hs)|].
        simpl. apply in_or_app. right. apply in_map_iff.
        exists (p, k). split; [reflexivity|].
        apply filter_In. split; [exact I|]. simpl. rewrite Rp.
        apply Nat.eqb_refl.
      * pose proof (find_none _ _ F t It) as X. simpl in X.
        rewrite Et, Nat.eqb_refl in X. discriminate.
    + right. left. exists k. split; [exact E|exact I].
Qed.

End NoHang.

Lemma no_call_is_left_hanging_witness :
  let U := Reference.utils in
  let P := Reference.platform in
  match run (utils := U) (platform := P)
          [call_decode Reference.key_chunk 0;
           call_decode Reference.delta_chunk 10; decoder_error; call_close]
          constructor with
  | Some rt =>
      (1 < nextCall rt)%nat
      /\ ((exists o, In (1%nat, o) (outcomes rt))
          \/ (exists k, call_of k = 1%nat /\ In k (microtasks rt))
          \/ (exists k p rt',
                call_of k = 1%nat /\ In (p, k) (reactions rt)
                /\ step (utils := U) (platform := P) (timeout_fires p) rt
                   = Some rt'
                /\ In k (microtasks rt')))
  | None => False
  end.
Proof.
  intros U P.
  destruct (run (utils := U) (platform := P) _ constructor) as [rt|] eqn:E;
    [|vm_compute in E; discriminate].
  assert (reachable (utils := U) (platform := P) rt) as R
    by exact (reachable_run _ reachable_constructor E).
  observe (fun r => nextCall r) E Hn.
  assert (1 < nextCall rt)%nat as L by (rewrite <- Hn; lia).
  split; [exact L|].
  exact (no_call_is_left_hanging R L).
Defined.

(** ** Further properties: one submission at a time, for callers that
    keep at most one call waiting *)

Section SingleFlight.

Context {utils : H264Utils} {platform : VideoDecoderPlatform}.

Lemma polite_reachable rt : polite rt -> reachable rt.
Proof.
  induction 1 as [|e rt rt' _ IH St _].
  - constructor.
  - exact (reachable_step e IH St).
Qed.

Lemma flight_same rt rt' :
  settled rt' = settled rt -> nextPromise rt' = nextPromise rt ->
  reactions rt' = reactions rt -> microtasks rt' = microtasks rt ->
  decoding (this rt') = decoding (this rt) ->
  flight rt -> flight rt'.
Proof.
  intros E1 E2 E3 E4 E5 F.
  assert (forall o, all_settled_but o rt -> all_settled_but o rt') as A.
  { unfold all_settled_but. intros o H. rewrite E1, E2. exact H. }
  destruct F;
    [ apply idle | eapply flying | eapply flying_waited | eapply landed
    | eapply landed_waited | eapply waited ];
    rewrite ?E1, ?E3, ?E4, ?E5; eauto.
Qed.

Lemma flight_same_core rt rt' : same_core rt rt' -> flight rt -> flight rt'.
Proof.
  intros S. apply flight_same;
    [exact (sc_settled S)|exact (sc_nextPromise S)|exact (sc_reactions S)
    |exact (sc_microtasks S)|exact (sc_decoding S)].
Qed.

(** Settling a promise lands the submission in flight, if it is the one
    settled, and changes nothing otherwise. *)
Lemma flight_resolve q rt :
  (q < nextPromise rt)%nat -> flight rt -> flight (resolve q rt).
Proof.
  intros L F. unfold resolve.
  destruct (existsb (Nat.eqb q) (settled rt)) eqn:E; [exact F|].
  apply not_settled in E.
  assert (forall p, all_settled_but (Some p) rt -> p = q) as Only.
  { intros p A. destruct (A q L) as [I|X]; [contradiction|congruence]. }
  assert (forall p, all_settled_but (Some p) rt -> p = q ->
            all_settled_but None
              (set_promises (q :: settled rt) (nextPromise rt)
                 (filter (fun r => negb (Nat.eqb (fst r) q)) (reactions rt))
                 (microtasks rt
                    ++ map snd (filter (fun r => Nat.eqb (fst r) q)
                                  (reactions rt))) rt)) as Land.
  { intros p A -> x Lx. simpl in *. destruct (A x Lx) as [I|X].
    - left. right. exact I.
    - left. left. congruence. }
  destruct F as [R M D A|p c R M D N A|p c c' data ts R M D N A
                |p c R M D A|p c c' data ts R M D A|c' data ts R M D A];
    try (destruct (A q L) as [I|X]; [contradiction|discriminate]).
  - pose proof (Only p A) as ->.
    apply (@landed _ q c); simpl; rewrite ?R, ?M; simpl;
      rewrite ?Nat.eqb_refl; simpl; auto.
    apply (Land q A eq_refl).
  - pose proof (Only p A) as ->.
    apply (@landed_waited _ q c c' data ts); simpl; rewrite ?R, ?M; simpl;
      rewrite ?Nat.eqb_refl; simpl; auto.
    apply (Land q A eq_refl).
Qed.

Lemma flight_on_frame l frame rt :
  (l_resolve l < nextPromise rt)%nat -> flight rt ->
  flight (on_frame l frame rt).
Proof.
  intros L F. unfold on_frame. apply flight_resolve.
  - destruct (pendingFrame (this (clearTimeout _ _))); exact L.
  - revert F. apply flight_same;
      destruct (pendingFrame (this (clearTimeout _ _))); reflexivity.
Qed.

Lemma flight_fold_on_frame frame ls rt :
  (forall l, In l ls -> (l_resolve l < nextPromise rt)%nat) ->
  flight rt ->
  flight (fold_left (fun r l => on_frame l frame r) ls rt).
Proof.
  revert rt. induction ls as [|l ls IH]; intros rt H F; simpl; [exact F|].
  apply IH.
  - intros l' I. rewrite nextPromise_on_frame. apply H. right. exact I.
  - apply flight_on_frame; [apply H; left; reflexivity|exact F].
Qed.

Lemma flight_submit call data ts ty a rt :
  well_formed rt ->
  reactions rt = [] -> microtasks rt = [] -> all_settled_but None rt ->
  flight (submit call data ts ty a rt).
Proof.
  intros W R M A.
  destruct (submit_promises call data ts ty a W) as (E & Em & _).
  unfold promise_state in E. rewrite R in E. simpl in E.
  inversion E as [[E1 E2 E3 E4 E5 E6]]. clear E.
  apply (@flying _ (nextPromise rt) call).
  - exact E3.
  - rewrite Em. exact M.
  - exact E6.
  - rewrite E1. intros I. apply (wf_settled W) in I. lia.
  - intros q L. rewrite E1. rewrite E2 in L.
    destruct (Nat.eq_dec q (nextPromise rt)) as [->|N]; [auto|].
    destruct (A q) as [I|X]; [lia|auto|discriminate].
Qed.

(** The body of [decode], run while nothing is in flight, ends the call or
    puts its submission in flight. *)
Lemma flight_decode_body call data ts rt :
  well_formed rt ->
  reactions rt = [] -> microtasks rt = [] -> decoding (this rt) = None ->
  all_settled_but None rt ->
  flight (decode_body call data ts rt).
Proof.
  intros W R M D A.
  assert (flight rt) as F by (apply idle; assumption).
  destruct (decode_body_cases call data ts rt)
    as (rt0 & S & _ & [(o & -> & _) | (a & _ & _ & ->)]).
  - apply (@flight_same rt0); try reflexivity.
    exact (flight_same_core S F).
  - pose proof (well_formed_same_core S W) as W0.
    assert (reactions rt0 = []) as R0 by (rewrite (sc_reactions S); exact R).
    assert (microtasks rt0 = []) as M0 by (rewrite (sc_microtasks S); exact M).
    assert (all_settled_but None rt0) as A0.
    { unfold all_settled_but. rewrite (sc_settled S), (sc_nextPromise S).
      exact A. }
    unfold gate_and_submit.
    destruct (isKeyFrame a) as [[]|].
    + destruct (hasKeyframe (this rt0)).
      * apply flight_submit; assumption.
      * apply flight_submit; try assumption.
        revert W0. apply well_formed_promise_state. reflexivity.
    + destruct (hasKeyframe (this rt0)).
      * apply flight_submit; assumption.
      * apply (@flight_same rt0); try reflexivity.
        exact (flight_same_core S F).
    + apply (@flight_same rt0); try reflexivity.
      exact (flight_same_core S F).
Qed.

Lemma flight_step e rt rt' :
  well_formed rt ->
  step e rt = Some rt' ->
  (forall data ts,
     e = call_decode data ts -> existsb is_resume (pending rt) = false) ->
  flight rt -> flight rt'.
Proof.
  intros W St Pol F. destruct e; simpl in St.
  - inversion St; subst; clear St.
    specialize (Pol data timestampMicros eq_refl). unfold pending in Pol.
    unfold decode.
    set (rt1 := set_counters (nextDecoder rt) (S (nextCall rt)) rt).
    assert (well_formed rt1) as W1
      by (revert W; apply well_formed_promise_state; reflexivity).
    destruct F as [R M D A|p c R M D N A|p c c' d' t' R M D N A
                  |p c R M D A|p c c' d' t' R M D A|c' d' t' R M D A];
      try (rewrite R, M in Pol; simpl in Pol; discriminate).
    + change (decoding (this rt1)) with (decoding (this rt)). rewrite D.
      apply flight_decode_body; assumption.
    + change (decoding (this rt1)) with (decoding (this rt)). rewrite D.
      unfold await. change (settled rt1) with (settled rt).
      apply not_settled in N. rewrite N.
      eapply (@flying_waited _ p c); simpl; rewrite ?R; simpl; eauto.
      apply not_settled. exact N.
    + change (decoding (this rt1)) with (decoding (this rt)). rewrite D.
      unfold await. change (settled rt1) with (settled rt).
      assert (existsb (Nat.eqb p) (settled rt) = true) as Ps.
      { destruct (A p (wf_decoding W D)) as [I|X]; [|discriminate].
        apply existsb_exists. exists p. split; [exact I|apply Nat.eqb_refl]. }
      rewrite Ps.
      eapply (@landed_waited _ p c); simpl; rewrite ?M; simpl; eauto.
  - inversion St; subst. revert F. apply flight_same; reflexivity.
  - inversion St; subst. revert F. apply flight_same; reflexivity.
  - destruct F as [R M D A|p c R M D N A|p c c' d' t' R M D N A
                  |p c R M D A|p c c' d' t' R M D A|c' d' t' R M D A];
      rewrite M in St; inversion St; subst; clear St; simpl.
    + apply idle; simpl; auto.
    + eapply waited; simpl; eauto.
    + apply flight_decode_body; simpl; auto.
      revert W. apply well_formed_promise_state. reflexivity.
  - destruct (find _ (timeouts rt)) as [t|] eqn:Ft; inversion St; subst.
    apply find_some in Ft. destruct Ft as [It Et].
    destruct (wf_timeouts W t It) as (X & Y & _).
    unfold on_timeout. apply flight_resolve.
    + simpl. rewrite X. exact Y.
    + revert F. apply flight_same; reflexivity.
  - inversion St; subst. unfold emit_frame.
    apply flight_fold_on_frame.
    + intros l I. apply (wf_listeners W l I).
    + revert F. apply flight_same; reflexivity.
  - inversion St; subst. revert F. apply flight_same; reflexivity.
Qed.

Lemma flight_polite rt : polite rt -> flight rt.
Proof.
  induction 1 as [|e rt rt' Po IH St Pol].
  - apply idle; try reflexivity. intros q L. simpl in L. lia.
  - exact (flight_step (well_formed_reachable (polite_reachable Po)) St Pol
             IH).
Qed.

Lemma polite_run_politely es rt rt' :
  polite rt -> run_politely es rt = Some rt' -> polite rt'.
Proof.
  revert rt. induction es as [|e es IH]; simpl; intros rt Po E.
  - injection E as <-. exact Po.
  - destruct (match e with
              | call_decode _ _ => existsb is_resume (pending rt)
              | _ => false
              end) eqn:C; [discriminate|].
    destruct (step e rt) as [rt1|] eqn:St; [|discriminate].
    apply (IH rt1); [|exact E].
    apply (polite_step Po St). intros data ts ->. exact C.
Qed.

Lemma in_flight_none rt : all_settled_but None rt -> in_flight rt = [].
Proof.
  intros A. unfold in_flight.
  assert (forall l, (forall q, In q l -> (q < nextPromise rt)%nat) ->
            filter (fun p => negb (existsb (Nat.eqb p) (settled rt))) l = [])
    as X.
  { induction l as [|x l IH]; intros H; simpl; [reflexivity|].
    destruct (A x (H x (or_introl eq_refl))) as [I|E]; [|discriminate].
    assert (existsb (Nat.eqb x) (settled rt) = true) as ->.
    { apply existsb_exists. exists x. split; [exact I|apply Nat.eqb_refl]. }
    simpl. apply IH. intros q Iq. apply H. right. exact Iq. }
  apply X. intros q I. apply in_seq in I. lia.
Qed.

Lemma in_flight_only p rt :
  all_settled_but (Some p) rt ->
  (forall q, In q (in_flight rt) -> q = p)
  /\ (List.length (in_flight rt) <= 1)%nat.
Proof.
  intros A.
  assert (forall q, In q (in_flight rt) -> q = p) as Only.
  { intros q I. unfold in_flight in I. apply filter_In in I.
    destruct I as [I N]. apply in_seq in I.
    apply negb_true_iff, not_settled in N.
    destruct (A q) as [X|X]; [lia|contradiction|congruence]. }
  split; [exact Only|].
  assert (NoDup (in_flight rt)) as Nd
    by (apply NoDup_filter, seq_NoDup).
  destruct (in_flight rt) as [|x [|y l]]; simpl; try lia.
  exfalso. inversion Nd as [|? ? Nx _]; subst. apply Nx.
  rewrite (Only x (or_introl eq_refl)).
  rewrite (Only y (or_intror (or_introl eq_refl))). left. reflexivity.
Qed.

(** The single flight that [decode] aims at holds for callers that never
    call it while an earlier call is still waiting to start: in every state
    such callers can bring about, at most one promise of [decode] is
    pending, it is the one in [#decoding], and as long as it is pending no
    step hands a chunk to the decoder. *)
Theorem one_submission_at_a_time rt :
  polite rt ->
  (List.length (in_flight rt) <= 1)%nat
  /\ (forall p, In p (in_flight rt) -> decoding (this rt) = Some p)
  /\ (forall e rt',
        step e rt = Some rt' ->
        (forall data ts,
           e = call_decode data ts ->
           existsb is_resume (pending rt) = false) ->
        in_flight rt <> [] ->
        decodeCalls rt' = decodeCalls rt).
Proof.
  intros Po. pose proof (flight_polite Po) as F.
  assert (forall p, decoding (this rt) = Some p ->
            all_settled_but (Some p) rt ->
            microtasks rt = [] ->
            (List.length (in_flight rt) <= 1)%nat
            /\ (forall q, In q (in_flight rt) -> decoding (this rt) = Some q)
            /\ (forall e rt',
                  step e rt = Some rt' ->
                  (forall data ts,
                     e = call_decode data ts ->
                     existsb is_resume (pending rt) = false) ->
                  in_flight rt <> [] ->
                  decodeCalls rt' = decodeCalls rt)) as Fly.
  { intros p D A M. destruct (in_flight_only A) as [Only Le].
    split; [exact Le|]. split.
    - intros q I. rewrite (Only q I). exact D.
    - intros e rt' St _ _. destruct e; simpl in St.
      + injection St as <-. unfold decode.
        change (decoding (this (set_counters (nextDecoder rt)
                                  (S (nextCall rt)) rt)))
          with (decoding (this rt)).
        rewrite D. rewrite decodeCalls_await. reflexivity.
      + injection St as <-. reflexivity.
      + injection St as <-. reflexivity.
      + rewrite M in St. discriminate.
      + destruct (find _ _); [|discriminate]. injection St as <-.
        unfold on_timeout. simpl. rewrite ?decodeCalls_resolve. reflexivity.
      + injection St as <-. unfold emit_frame.
        rewrite ?decodeCalls_fold_on_frame. reflexivity.
      + injection St as <-. reflexivity. }
  assert (all_settled_but None rt ->
            (List.length (in_flight rt) <= 1)%nat
            /\ (forall q, In q (in_flight rt) -> decoding (this rt) = Some q)
            /\ (forall e rt',
                  step e rt = Some rt' ->
                  (forall data ts,
                     e = call_decode data ts ->
                     existsb is_resume (pending rt) = false) ->
                  in_flight rt <> [] ->
                  decodeCalls rt' = decodeCalls rt)) as Calm.
  { intros A. rewrite (in_flight_none A). simpl.
    split; [lia|]. split; [intros q []|]. intros e rt' _ _ X.
    contradiction. }
  destruct F as [R M D A|p c R M D N A|p c c' d' t' R M D N A
                |p c R M D A|p c c' d' t' R M D A|c' d' t' R M D A];
    try (apply Calm; exact A).
  - exact (Fly p D A M).
  - exact (Fly p D A M).
Qed.

End SingleFlight.

(** One call after the other, the second while the first is pending: its
    chunk waits, and the frame of the first call starts it. *)
Lemma one_submission_at_a_time_witness :
  let U := Reference.utils in
  let P := Reference.platform in
  match run_politely (utils := U) (platform := P)
          [call_decode Reference.key_chunk 0;
           call_decode Reference.delta_chunk 10;
           decoder_output 7%nat; microtask; microtask]
          constructor with
  | Some rt =>
      in_flight rt = [1%nat]
      /\ (List.length (in_flight rt) <= 1)%nat
      /\ (forall p, In p (in_flight rt) -> decoding (this rt) = Some p)
      /\ (forall e rt',
            step (utils := U) (platform := P) e rt = Some rt' ->
            (forall data ts,
               e = call_decode data ts ->
               existsb is_resume (pending rt) = false) ->
            in_flight rt <> [] ->
            decodeCalls rt' = decodeCalls rt)
  | None => False
  end.
Proof.
  intros U P.
  destruct (run_politely (utils := U) (platform := P) _ constructor)
    as [rt|] eqn:E; [|vm_compute in E; discriminate].
  assert (polite (utils := U) (platform := P) rt) as Po
    by exact (polite_run_politely _ polite_constructor E).
  observe (fun r => in_flight r) E X.
  split; [symmetry; exact X|].
  exact (one_submission_at_a_time Po).
Defined.
(** ** Further properties: the type of a NAL unit and the key frame test *)

Lemma read_five_bits b rest :
  Bitstream.read (b :: rest) 3 5 0 = Z.land (Z.of_N (Byte.to_N b)) 31.
Proof. destruct b; reflexivity. Qed.

(** The type [_getDecoderConfig] and [isKeyFrame] read from a unit, with
    [seek(3)] and [u(5)], is the low five bits of its first byte; on a unit
    of no bytes the reading throws. *)
Theorem nal_unit_type_low_five_bits nalu :
  nal_unit_type nalu
  = match nalu with
    | [] => Thrown
    | b :: _ => Ok (Z.land (Z.of_N (Byte.to_N b)) 31)
    end.
Proof.
  destruct nalu as [|b rest]; [reflexivity|].
  unfold nal_unit_type, Bitstream.seek, Bitstream.u, Bitstream.max,
    Bitstream.make, byteLength. simpl Bitstream.buffer.
  assert (8 <= 8 * Z.of_nat (List.length (b :: rest))) as L
    by (simpl List.length; lia).
  assert ((3 <? 0) || (8 * Z.of_nat (List.length (b :: rest)) <? 3) = false)
    as -> by (apply orb_false_iff; split; apply Z.ltb_ge; lia).
  simpl Bitstream.ptr. simpl Bitstream.buffer.
  assert ((8 * Z.of_nat (List.length (b :: rest)) <? 3 + Z.of_nat 5) = false)
    as -> by (apply Z.ltb_ge; simpl Z.of_nat; lia).
  rewrite read_five_bits. reflexivity.
Qed.

Lemma scan_for_IDR_true units :
  scan_for_IDR units = Ok true
  <-> exists pre nalu post,
        units = pre ++ Some nalu :: post
        /\ nal_unit_type nalu = Ok NaluType.IDR
        /\ forall n, In (Some n) pre -> nal_unit_type n <> Thrown.
Proof.
  split.
  - induction units as [|[n|] units IH]; simpl; intros E.
    + discriminate.
    + destruct (nal_unit_type n) as [ty|] eqn:T; [|discriminate].
      destruct (ty =? NaluType.IDR) eqn:Q.
      * apply Z.eqb_eq in Q. subst ty.
        exists [], n, units. split; [reflexivity|]. split; [exact T|].
        intros m [].
      * destruct (IH E) as (pre & nalu & post & -> & Tn & Pre).
        exists (Some n :: pre), nalu, post.
        split; [reflexivity|]. split; [exact Tn|].
        intros m [X|X]; [|exact (Pre m X)].
        injection X as <-. rewrite T. discriminate.
    + destruct (IH E) as (pre & nalu & post & -> & Tn & Pre).
      exists (None :: pre), nalu, post.
      split; [reflexivity|]. split; [exact Tn|].
      intros m [X|X]; [discriminate|exact (Pre m X)].
  - intros (pre & nalu & post & -> & Tn & Pre).
    induction pre as [|[n|] pre IH]; simpl.
    + rewrite Tn. reflexivity.
    + destruct (nal_unit_type n) as [ty|] eqn:T.
      * destruct (ty =? NaluType.IDR); [reflexivity|].
        apply IH. intros m X. apply Pre. right. exact X.
      * exfalso. exact (Pre n (or_introl eq_refl) T).
    + apply IH. intros m X. apply Pre. right. exact X.
Qed.

Lemma scan_for_IDR_thrown units :
  scan_for_IDR units = Thrown
  <-> exists pre nalu post,
        units = pre ++ Some nalu :: post
        /\ nal_unit_type nalu = Thrown
        /\ forall n, In (Some n) pre -> nal_unit_type n <> Ok NaluType.IDR.
Proof.
  split.
  - induction units as [|[n|] units IH]; simpl; intros E.
    + discriminate.
    + destruct (nal_unit_type n) as [ty|] eqn:T.
      * destruct (ty =? NaluType.IDR) eqn:Q; [discriminate|].
        destruct (IH E) as (pre & nalu & post & -> & Tn & Pre).
        exists (Some n :: pre), nalu, post.
        split; [reflexivity|]. split; [exact Tn|].
        intros m [X|X]; [|exact (Pre m X)].
        injection X as <-. rewrite T. intros Y. injection Y as ->.
        discriminate.
      * exists [], n, units. split; [reflexivity|]. split; [exact T|].
        intros m [].
    + destruct (IH E) as (pre & nalu & post & -> & Tn & Pre).
      exists (None :: pre), nalu, post.
      split; [reflexivity|]. split; [exact Tn|].
      intros m [X|X]; [discriminate|exact (Pre m X)].
  - intros (pre & nalu & post & -> & Tn & Pre).
    induction pre as [|[n|] pre IH]; simpl.
    + rewrite Tn. reflexivity.
    + destruct (nal_unit_type n) as [ty|] eqn:T.
      * destruct (ty =? NaluType.IDR) eqn:Q.
        -- exfalso. apply Z.eqb_eq in Q. subst ty.
           exact (Pre n (or_introl eq_refl) T).
        -- apply IH. intros m X. apply Pre. right. exact X.
      * reflexivity.
    + apply IH. intros m X. apply Pre. right. exact X.
Qed.

Lemma scan_for_IDR_false units :
  scan_for_IDR units = Ok false
  <-> forall n, In (Some n) units ->
        exists ty, nal_unit_type n = Ok ty /\ ty <> NaluType.IDR.
Proof.
  split.
  - induction units as [|[n|] units IH]; simpl; intros E m I.
    + destruct I.
    + destruct (nal_unit_type n) as [ty|] eqn:T; [|discriminate].
      destruct (ty =? NaluType.IDR) eqn:Q; [discriminate|].
      destruct I as [X|X]; [|exact (IH E m X)].
      injection X as <-. exists ty. split; [exact T|].
      apply Z.eqb_neq. exact Q.
    + destruct I as [X|X]; [discriminate|exact (IH E m X)].
  - induction units as [|[n|] units IH]; simpl; intros A.
    + reflexivity.
    + destruct (A n (or_introl eq_refl)) as (ty & -> & Ne).
      apply Z.eqb_neq in Ne. rewrite Ne.
      apply IH. intros m I. apply A. right. exact I.
    + apply IH. intros m I. apply A. right. exact I.
Qed.

Section KeyFrameTest.

Context {utils : H264Utils}.

(** [isKeyFrame] stops at the first unit that settles it. It answers true
    when some unit is an IDR unit and the type of every unit before it can
    be read; it throws when the type of some unit cannot be read and no
    unit before it is an IDR unit; it answers false when the type of every
    unit can be read and none is an IDR unit. Falsy units are passed over. *)
Theorem isKeyFrame_first_match frame :
  (isKeyFrame frame = Ok true
   <-> exists pre nalu post,
         nalus frame = pre ++ Some nalu :: post
         /\ nal_unit_type nalu = Ok NaluType.IDR
         /\ forall n, In (Some n) pre -> nal_unit_type n <> Thrown)
  /\ (isKeyFrame frame = Thrown
      <-> exists pre nalu post,
            nalus frame = pre ++ Some nalu :: post
            /\ nal_unit_type nalu = Thrown
            /\ forall n, In (Some n) pre ->
                  nal_unit_type n <> Ok NaluType.IDR)
  /\ (isKeyFrame frame = Ok false
      <-> forall n, In (Some n) (nalus frame) ->
            exists ty, nal_unit_type n = Ok ty /\ ty <> NaluType.IDR).
Proof.
  unfold isKeyFrame. split; [apply scan_for_IDR_true|].
  split; [apply scan_for_IDR_thrown|apply scan_for_IDR_false].
Qed.

End KeyFrameTest.

(** A chunk with an empty unit behind its IDR unit is a key frame; with the
    empty unit in front, the test throws. *)
Lemma isKeyFrame_first_match_witness :
  let U := {| NALUStream_strict := fun _ => Thrown;
              convertToAnnexB := fun _ _ => Thrown;
              nalus := fun b =>
                         match b with
                         | [] => [Some []; Some Reference.idr_unit]
                         | _ => [None; Some Reference.slice_unit;
                                 Some Reference.idr_unit; Some []]
                         end;
              SPS := fun _ => Thrown |} in
  isKeyFrame (utils := U) Reference.idr_unit = Ok true
  /\ isKeyFrame (utils := U) [] = Thrown.
Proof.
  intros U. split.
  - apply (proj1 (isKeyFrame_first_match (utils := U) Reference.idr_unit)).
    exists [None; Some Reference.slice_unit], Reference.idr_unit, [Some []].
    split; [reflexivity|]. split; [reflexivity|].
    intros n [X|[X|[]]]; [discriminate|]. injection X as <-. discriminate.
  - apply (proj1 (proj2 (isKeyFrame_first_match (utils := U) []))).
    exists [], [], [Some Reference.idr_unit].
    split; [reflexivity|]. split; [reflexivity|]. intros n [].
Defined.
(** ** Further properties: the stream types [_getAnnexBFrame] meets *)

Ltac handled_now H :=
  let K := fresh "K" in
  let E := fresh "E" in
  destruct H as [K E]; split;
  [ simpl; intros i X;
    first [ discriminate X
          | exact (K i X)
          | injection X as <-; simpl; discriminate ]
  | simpl; rewrite ?existsb_app, ?E; reflexivity ].

Section Handled.

Context {utils : H264Utils} {platform : VideoDecoderPlatform}.

Lemma handled_resolve p rt : handled rt -> handled (resolve p rt).
Proof.
  intros H. unfold resolve. destruct (existsb _ _); [exact H|handled_now H].
Qed.

Lemma handled_await p k rt : handled rt -> handled (await p k rt).
Proof.
  intros H. unfold await. destruct (existsb _ _); handled_now H.
Qed.

Lemma handled__getAnnexBFrame data rt :
  handled rt -> handled (snd (_getAnnexBFrame data rt)).
Proof.
  intros H. unfold _getAnnexBFrame, _getNaluStreamInfo.
  destruct (naluStreamInfo (this rt)) as [i|] eqn:N.
  - pose proof (h_type H N) as T.
    destruct (type i); simpl; [|exact H|contradiction].
    destruct (convertToAnnexB data (boxSize i)); exact H.
  - unfold _identifyNaluStreamInfo.
    destruct (NALUStream_strict data) as [[[[| |]|] [b|]]|]; simpl;
      try destruct (convertToAnnexB data b); simpl; handled_now H.
Qed.

Lemma handled_replace_closed_decoder rt :
  handled rt -> handled (replace_closed_decoder rt).
Proof.
  intros H. unfold replace_closed_decoder.
  destruct (state (decoder (this rt))); try exact H. handled_now H.
Qed.

Lemma handled_configure_if_needed a rt :
  handled rt -> handled (snd (configure_if_needed a rt)).
Proof.
  intros H. unfold configure_if_needed, _getDecoderConfig.
  destruct (state (decoder (this rt))); try exact H.
  destruct (videoDecoderConfig (this rt)) as [c|]; simpl.
  - destruct (configure_accepts c); handled_now H.
  - destruct (scan_for_SPS (nalus a) rt) as [r rt'] eqn:E.
    apply scan_for_SPS_effect in E.
    destruct E as [->|[(c & -> & ->)|[-> ->]]]; simpl.
    + destruct r as [[c|]|]; simpl; try exact H.
      destruct (configure_accepts c); handled_now H.
    + destruct (configure_accepts c); handled_now H.
    + handled_now H.
Qed.

Lemma handled_submit call data ts ty a rt :
  handled rt -> handled (submit call data ts ty a rt).
Proof.
  intros H. unfold submit. apply handled_await.
  destruct (decode_accepts _ _); handled_now H.
Qed.

Lemma handled_gate_and_submit call data ts a rt :
  handled rt -> handled (gate_and_submit call data ts a rt).
Proof.
  intros H. unfold gate_and_submit.
  destruct (isKeyFrame a) as [[]|]; [| |handled_now H];
    destruct (hasKeyframe (this rt));
    try (apply handled_submit; exact H);
    try (apply handled_submit); handled_now H.
Qed.

Lemma handled_decode_body call data ts rt :
  handled rt -> handled (decode_body call data ts rt).
Proof.
  intros H. unfold decode_body.
  pose proof (handled__getAnnexBFrame data (handled_replace_closed_decoder H))
    as H2.
  destruct (_getAnnexBFrame data (replace_closed_decoder rt))
    as [[[a|]|] rt2]; simpl in H2; try (handled_now H2).
  pose proof (handled_configure_if_needed a H2) as H3.
  destruct (configure_if_needed a rt2) as [[[]|] rt3]; simpl in H3;
    try (handled_now H3).
  destruct (state (decoder (this rt3)));
    try (apply handled_gate_and_submit; exact H3); handled_now H3.
Qed.

Lemma handled_on_frame l frame rt :
  handled rt -> handled (on_frame l frame rt).
Proof.
  intros H. unfold on_frame. apply handled_resolve.
  destruct (pendingFrame (this (clearTimeout _ _))); handled_now H.
Qed.

Lemma handled_fold_on_frame frame ls rt :
  handled rt -> handled (fold_left (fun r l => on_frame l frame r) ls rt).
Proof.
  revert rt. induction ls as [|l ls IH]; simpl; intros rt H; [exact H|].
  apply IH, handled_on_frame, H.
Qed.

Lemma handled_step e rt rt' :
  step e rt = Some rt' -> handled rt -> handled rt'.
Proof.
  intros St H. destruct e; simpl in St.
  - injection St as <-. unfold decode.
    assert (handled (set_counters (nextDecoder rt) (S (nextCall rt)) rt))
      as H1 by handled_now H.
    destruct (decoding _).
    + apply handled_await, H1.
    + apply handled_decode_body, H1.
  - injection St as <-. handled_now H.
  - injection St as <-. handled_now H.
  - destruct (microtasks rt) as [|[call data ts|call] rest];
      [discriminate| |]; injection St as <-.
    + apply handled_decode_body. handled_now H.
    + handled_now H.
  - destruct (find _ _); [|discriminate]. injection St as <-.
    unfold on_timeout. apply handled_resolve. handled_now H.
  - injection St as <-. unfold emit_frame.
    apply handled_fold_on_frame. handled_now H.
  - injection St as <-. handled_now H.
Qed.

Lemma handled_reachable rt : reachable rt -> handled rt.
Proof.
  induction 1 as [|e rt rt' _ IH St].
  - split; [discriminate|reflexivity].
  - exact (handled_step e St IH).
Qed.

(** The last branch of the [switch] in [_getAnnexBFrame] is never taken:
    [_identifyNaluStreamInfo] gives no stream information of type
    ["unknown"], so the type held is ["packet"] or ["annexB"] in every state
    the object gets into, and no "Unhandled NALU stream type" error is ever
    emitted. *)
Theorem unhandled_stream_type_never_met rt :
  reachable rt ->
  (forall i, naluStreamInfo (this rt) = Some i ->
             type i = packet \/ type i = annexB)
  /\ (forall t, ~ In (error_unhandled t) (emitted rt)).
Proof.
  intros R. destruct (handled_reachable R) as [K E]. split.
  - intros i N. pose proof (K i N) as T.
    destruct (type i); [left|right|contradiction]; reflexivity.
  - intros t I.
    assert (existsb is_unhandled (emitted rt) = true) as X
      by (apply existsb_exists; exists (error_unhandled t);
          split; [exact I|reflexivity]).
    congruence.
Qed.

End Handled.

(** A chunk that cannot be identified, a close, and a chunk that can. *)
Lemma unhandled_stream_type_never_met_witness :
  let U := Reference.utils in
  let P := Reference.platform in
  match run (utils := U) (platform := P)
          [call_decode Reference.garbage_chunk 0; call_close;
           call_decode Reference.key_chunk 10]
          constructor with
  | Some rt =>
      (exists i, naluStreamInfo (this rt) = Some i)
      /\ (forall i, naluStreamInfo (this rt) = Some i ->
                    type i = packet \/ type i = annexB)
      /\ (forall t, ~ In (error_unhandled t) (emitted rt))
  | None => False
  end.
Proof.
  intros U P.
  destruct (run (utils := U) (platform := P) _ constructor) as [rt|] eqn:E;
    [|vm_compute in E; discriminate].
  assert (reachable (utils := U) (platform := P) rt) as R
    by exact (reachable_run _ reachable_constructor E).
  split.
  - observe (fun r => naluStreamInfo (this r)) E X.
    eexists. symmetry. exact X.
  - exact (unhandled_stream_type_never_met R).
Defined.
